(** * Hybrid MPI + OpenMP Jacobi relaxation (src/C/hybrid_cpu.c)

    A shallow embedding of the relaxation engine of [main]: the two
    temperature grids, the 4-point stencil, the local-delta pass with its
    copy-forward, the per-rank halo exchange over non-blocking MPI
    point-to-point transfers, the two OpenMP threads of one iteration and the
    controlling [while] loop.

    Temperatures are IEEE binary64 values (Rocq's primitive floats), grids are
    lists of rows, ranks and the iteration counter are C [int]s carried in
    [Z]. The macros of [util.h] ([ROWS], [COLUMNS],
    [MAX_NUMBER_OF_ITERATIONS], [MAX_TEMP_ERROR], [VERSION_RUN]) are not in
    the source tree; they are section variables. *)

From Stdlib Require Import ZArith Floats Lia Bool String DecimalString.
From stdpp Require Import base option list gmap.

Local Open Scope Z_scope.
Local Open Scope nat_scope.

(** ** Binary64 arithmetic as used by the solver *)

Module Double.

(** [fabs] of <math.h>. *)
Definition fabs (x : float) : float := PrimFloat.abs x.

(** [fmax] of <math.h>: a NaN operand is dropped in favour of the other
    one; otherwise the larger operand is returned. *)
Definition fmax (x y : float) : float :=
  if PrimFloat.is_nan x then y
  else if PrimFloat.is_nan y then x
  else if (x <? y)%float then y else x.

(** The C comparison [x > y]: false as soon as one side is NaN. *)
Definition gt (x y : float) : bool := (y <? x)%float.

(** [x <= y] as a proposition. *)
Definition le (x y : float) : Prop := (x <=? y)%float = true.

Definition ordered (x : float) : Prop := PrimFloat.is_nan x = false.

(** *** The order of the specification floats *)

Definition sf_le (x y : spec_float) : Prop := SFleb x y = true.
Definition sf_num (x : spec_float) : Prop := x <> S754_nan.

Lemma sf_compare_refl x : sf_num x -> SFcompare x x = Some Eq.
Proof.
  unfold sf_num; destruct x as [s|s| |s m e]; simpl; try congruence.
  - now destruct s.
  - intros _. rewrite Z.compare_refl, Pos.compare_cont_refl. now destruct s.
Qed.

Lemma sf_compare_num x y c : SFcompare x y = Some c -> sf_num x /\ sf_num y.
Proof. unfold sf_num; destruct x, y; simpl; intros; split; congruence. Qed.

Lemma sf_compare_total x y : sf_num x -> sf_num y -> exists c, SFcompare x y = Some c.
Proof. unfold sf_num; destruct x, y; simpl; intros; try congruence; eauto. Qed.

Lemma sf_compare_antisym x y :
  SFcompare y x = option_map CompOpp (SFcompare x y).
Proof.
  destruct x as [s1|s1| |s1 m1 e1], y as [s2|s2| |s2 m2 e2]; simpl; try reflexivity;
    try (destruct s1; reflexivity); try (destruct s2; reflexivity);
    try (destruct s1, s2; reflexivity).
  rewrite (Z.compare_antisym e1 e2).
  rewrite !Pos.compare_cont_spec; simpl.
  rewrite (Pos.compare_antisym m1 m2).
  destruct s1, s2; simpl; try reflexivity;
    destruct (e1 ?= e2)%Z; simpl; try reflexivity;
    destruct (m1 ?= m2)%positive; reflexivity.
Qed.

Lemma sf_le_refl x : sf_num x -> sf_le x x.
Proof. intros H. unfold sf_le, SFleb. now rewrite sf_compare_refl. Qed.

Lemma sf_le_trans x y z : sf_le x y -> sf_le y z -> sf_le x z.
Proof.
  unfold sf_le, SFleb.
  destruct x as [s1|s1| |s1 m1 e1], y as [s2|s2| |s2 m2 e2], z as [s3|s3| |s3 m3 e3];
    simpl; try congruence;
    try (destruct s1; simpl; congruence);
    try (destruct s1, s2; simpl; congruence);
    try (destruct s1, s3; simpl; congruence);
    try (destruct s2, s3; simpl; congruence);
    try (destruct s1, s2, s3; simpl; congruence).
  rewrite !Pos.compare_cont_spec; simpl.
  destruct s1, s2, s3; simpl; try congruence;
    destruct (Z.compare_spec e1 e2), (Z.compare_spec e2 e3), (Z.compare_spec e1 e3);
    simpl; try congruence; try lia;
    destruct (Pos.compare_spec m1 m2), (Pos.compare_spec m2 m3), (Pos.compare_spec m1 m3);
    simpl; try congruence; try lia.
Qed.

Lemma sf_ltb_false_le x y : sf_num x -> sf_num y -> SFltb x y = false -> sf_le y x.
Proof.
  intros Hx Hy. unfold sf_le, SFltb, SFleb. rewrite (sf_compare_antisym x y).
  destruct (sf_compare_total x y Hx Hy) as [c ->]. now destruct c.
Qed.

Lemma sf_ltb_le x y : SFltb x y = true -> sf_le x y.
Proof. unfold sf_le, SFltb, SFleb. destruct (SFcompare x y) as [[]|]; congruence. Qed.

(** *** Transfer to binary64 *)

Lemma ordered_num x : ordered x <-> sf_num (Prim2SF x).
Proof.
  unfold ordered, PrimFloat.is_nan, sf_num. rewrite FloatAxioms.eqb_spec. unfold SFeqb.
  split.
  - intros H E. rewrite E in H. discriminate.
  - intros H. now rewrite (sf_compare_refl _ H).
Qed.

Lemma le_sf x y : le x y <-> sf_le (Prim2SF x) (Prim2SF y).
Proof. unfold le, sf_le. now rewrite FloatAxioms.leb_spec. Qed.

Lemma le_ordered x y : le x y -> ordered x /\ ordered y.
Proof.
  rewrite le_sf, !ordered_num. unfold sf_le, SFleb.
  destruct (SFcompare (Prim2SF x) (Prim2SF y)) as [c|] eqn:E; [|discriminate].
  intros _. exact (sf_compare_num _ _ _ E).
Qed.

Lemma le_refl x : ordered x -> le x x.
Proof. rewrite ordered_num, le_sf. apply sf_le_refl. Qed.

Lemma le_trans x y z : le x y -> le y z -> le x z.
Proof. rewrite !le_sf. apply sf_le_trans. Qed.

Lemma gt_false_le x y : ordered x -> ordered y -> gt x y = false -> le x y.
Proof.
  unfold gt. rewrite !ordered_num, le_sf, FloatAxioms.ltb_spec. intros Hx Hy.
  now apply sf_ltb_false_le.
Qed.

Lemma gt_true_not_le x y : gt x y = true -> ~ le x y.
Proof.
  unfold gt, le. rewrite FloatAxioms.ltb_spec, FloatAxioms.leb_spec. unfold SFltb, SFleb.
  rewrite (sf_compare_antisym (Prim2SF y) (Prim2SF x)).
  destruct (SFcompare (Prim2SF y) (Prim2SF x)) as [[]|]; simpl; congruence.
Qed.

Lemma le_gt_false x y : le x y -> gt x y = false.
Proof.
  intros H. destruct (gt x y) eqn:E; [|reflexivity].
  now apply gt_true_not_le in E.
Qed.

Lemma fabs_ordered x : ordered x -> ordered (fabs x).
Proof.
  rewrite !ordered_num. unfold fabs, sf_num. rewrite FloatAxioms.abs_spec.
  now destruct (Prim2SF x).
Qed.

Lemma fabs_ordered_inv x : ordered (fabs x) -> ordered x.
Proof.
  rewrite !ordered_num. unfold fabs, sf_num. rewrite FloatAxioms.abs_spec.
  now destruct (Prim2SF x).
Qed.

Lemma fabs_nonneg x : ordered x -> le 0 (fabs x).
Proof.
  rewrite ordered_num, le_sf. unfold fabs, sf_num, sf_le. rewrite FloatAxioms.abs_spec.
  change (Prim2SF 0) with (S754_zero false). unfold SFleb.
  destruct (Prim2SF x) as [s|s| |s m e]; simpl; intros H; try reflexivity. congruence.
Qed.

(** [fmax] keeps an ordered accumulator ordered, whatever the new operand. *)
Lemma fmax_ordered_r x y : ordered y -> ordered (fmax x y).
Proof.
  unfold ordered, fmax. intros Hy.
  destruct (PrimFloat.is_nan x) eqn:Hx; [exact Hy|].
  rewrite Hy. now destruct (x <? y)%float.
Qed.

Lemma fmax_cases x y : fmax x y = x \/ fmax x y = y.
Proof.
  unfold fmax. destruct (PrimFloat.is_nan x), (PrimFloat.is_nan y), (x <? y)%float; auto.
Qed.

Lemma fmax_ge_r x y : ordered y -> le y (fmax x y).
Proof.
  intros Hy. unfold fmax.
  destruct (PrimFloat.is_nan x) eqn:Hx; [now apply le_refl|].
  rewrite Hy.
  destruct (x <? y)%float eqn:E; [now apply le_refl|].
  now apply (gt_false_le y x).
Qed.

Lemma fmax_ge_l x y : ordered x -> ordered y -> le x (fmax x y).
Proof.
  intros Hx Hy. unfold fmax. rewrite Hx, Hy.
  destruct (x <? y)%float eqn:E; [|now apply le_refl].
  apply le_sf. apply sf_ltb_le. now rewrite <- FloatAxioms.ltb_spec.
Qed.

End Double.

(** ** Grids

    [double temperature[ROWS+2][COLUMNS+2]] is a list of [ROWS+2] rows of
    [COLUMNS+2] cells. Every index the program uses is in range for such a
    grid; [cell] answers [0] and [store] does nothing out of range, where C
    leaves the behaviour undefined. *)

Abbreviation grid := (list (list float)).

Definition cell (g : grid) (i j : nat) : float :=
  default 0%float (g !! i ≫= (.!! j)).

Definition store (g : grid) (i j : nat) (v : float) : grid :=
  alter (<[j := v]>) i g.

Definition shaped (rows cols : nat) (g : grid) : Prop :=
  length g = rows /\ Forall (fun r => length r = cols) g.

Lemma shaped_row rows cols g i r :
  shaped rows cols g -> g !! i = Some r -> length r = cols.
Proof.
  intros [_ H] Hi. rewrite Forall_forall in H. apply H.
  eapply list_elem_of_lookup_2; eauto.
Qed.

Lemma shaped_store rows cols g i j v :
  shaped rows cols g -> shaped rows cols (store g i j v).
Proof.
  intros [Hl Hr]. split; unfold store.
  - now rewrite length_alter.
  - apply Forall_alter; [exact Hr|]. intros r _ Hlen. now rewrite length_insert.
Qed.

Lemma cell_store_eq rows cols g i j v :
  shaped rows cols g -> i < rows -> j < cols -> cell (store g i j v) i j = v.
Proof.
  intros Hs Hi Hj. unfold cell, store. rewrite list_lookup_alter_eq.
  destruct (lookup_lt_is_Some_2 g i) as [r Hr]; [destruct Hs; lia|].
  rewrite Hr. simpl. rewrite list_lookup_insert_eq; [reflexivity|].
  rewrite (shaped_row _ _ _ _ _ Hs Hr). exact Hj.
Qed.

Lemma cell_store_ne g i j v i' j' :
  (i', j') <> (i, j) -> cell (store g i j v) i' j' = cell g i' j'.
Proof.
  intros Hne. unfold cell, store.
  destruct (decide (i = i')) as [->|Hi].
  - rewrite list_lookup_alter_eq. destruct (g !! i') as [r|]; simpl; [|reflexivity].
    rewrite list_lookup_insert_ne; [reflexivity|]. congruence.
  - now rewrite list_lookup_alter_ne.
Qed.

(** Cells [1..cols] of row [i], the payload of one [column]-typed transfer
    ([MPI_Type_contiguous(COLUMNS, MPI_DOUBLE, &column)] starting at
    [&g[i][1]]). *)
Definition row_payload (cols : nat) (g : grid) (i : nat) : list float :=
  map (cell g i) (seq 1 cols).

(** Writing a received payload into row [i], from column [j] on. *)
Fixpoint store_from (g : grid) (i j : nat) (payload : list float) : grid :=
  match payload with
  | [] => g
  | v :: vs => store_from (store g i j v) i (S j) vs
  end.

Definition store_payload (g : grid) (i : nat) (payload : list float) : grid :=
  store_from g i 1 payload.

Lemma cell_store_from_other g i j payload i' j' :
  i' <> i \/ j' < j \/ j + length payload <= j' ->
  cell (store_from g i j payload) i' j' = cell g i' j'.
Proof.
  revert g j. induction payload as [|v vs IH]; intros g j H; simpl; [reflexivity|].
  rewrite IH by (simpl in H; lia).
  apply cell_store_ne. intros E. inversion E. simpl in H. lia.
Qed.

Lemma shaped_store_from rows cols g i j payload :
  shaped rows cols g -> shaped rows cols (store_from g i j payload).
Proof.
  revert g j. induction payload as [|v vs IH]; intros g j Hg; simpl; [exact Hg|].
  apply IH. now apply shaped_store.
Qed.

Lemma cell_store_from_in rows cols g i j payload k v :
  shaped rows cols g -> i < rows -> j + length payload <= cols ->
  payload !! k = Some v ->
  cell (store_from g i j payload) i (j + k) = v.
Proof.
  revert g j k. induction payload as [|w ws IH]; intros g j k Hg Hi Hj Hk; [discriminate|].
  simpl in *. destruct k as [|k]; simpl in Hk.
  - inversion Hk; subst w. rewrite cell_store_from_other by lia.
    replace (j + 0) with j by lia.
    apply (cell_store_eq rows cols); [exact Hg|exact Hi|lia].
  - replace (j + S k) with (S j + k) by lia.
    apply IH; [now apply shaped_store|exact Hi|lia|exact Hk].
Qed.

(** After a payload that fits has been written, the row holds it. *)
Lemma row_payload_store_payload rows cols g i payload :
  shaped rows (cols + 2) g -> i < rows -> length payload = cols ->
  row_payload cols (store_payload g i payload) i = payload.
Proof.
  intros Hg Hi Hlen. unfold row_payload, store_payload.
  apply list_eq. intros k. rewrite list_lookup_fmap.
  destruct (payload !! k) as [v|] eqn:Hk.
  - assert (k < cols) by (rewrite <- Hlen; eapply lookup_lt_Some; eauto).
    rewrite lookup_seq_lt by lia. simpl. f_equal.
    apply (cell_store_from_in rows (cols + 2)); [exact Hg|exact Hi|lia|exact Hk].
  - apply lookup_ge_None_1 in Hk. rewrite lookup_seq_ge by lia. reflexivity.
Qed.

(** ** The numerical kernel of one iteration *)

Section Kernel.

(** [ROWS]: rows per MPI process, [COLUMNS]: columns, both without the
    boundary cells (compilation flags). *)
Variables ROWS COLUMNS : nat.

Definition local_shape (g : grid) : Prop := shaped (ROWS + 2) (COLUMNS + 2) g.

(** The right-hand side of the update, lines 109-112, 121-124 and 166-169:
    the sum associates to the left, as in C. *)
Definition stencil (temperature_last : grid) (i j : nat) : float :=
  (0.25 * (cell temperature_last (i + 1) j +
           cell temperature_last (i - 1) j +
           cell temperature_last i (j + 1) +
           cell temperature_last i (j - 1)))%float.

(** [for(unsigned int j = 1; j <= COLUMNS; j++) temperature[i][j] = ...] *)
Definition relax_row (temperature_last : grid) (i : nat) (temperature : grid) : grid :=
  foldl (fun t j => store t i j (stencil temperature_last i j)) temperature (seq 1 COLUMNS).

(** The body of the delta loop, lines 189-190. *)
Definition delta_cell (temperature : grid) (i j : nat) (acc : grid * float) : grid * float :=
  let dt := Double.fmax (Double.fabs (cell temperature i j - cell acc.1 i j)) acc.2 in
  (store acc.1 i j (cell temperature i j), dt).

(** The loop nest of lines 184-192, on the pair ([temperature_last], [dt]). *)
Definition delta_pass (temperature : grid) (acc : grid * float) : grid * float :=
  foldl (fun acc i => foldl (fun acc j => delta_cell temperature i j acc) acc (seq 1 COLUMNS))
        acc (seq 1 ROWS).

(** *** Row relaxation *)

Lemma relax_cols_shape last i js t :
  local_shape t ->
  local_shape (foldl (fun t j => store t i j (stencil last i j)) t js).
Proof.
  revert t. induction js as [|j js IH]; intros t Ht; simpl; [exact Ht|].
  apply IH. now apply shaped_store.
Qed.

Lemma relax_row_shape last i t : local_shape t -> local_shape (relax_row last i t).
Proof. apply relax_cols_shape. Qed.

Lemma relax_cols_cell last i js t i' j' :
  local_shape t -> i < ROWS + 2 -> Forall (fun j => j < COLUMNS + 2) js ->
  cell (foldl (fun t j => store t i j (stencil last i j)) t js) i' j' =
  if decide (i' = i /\ j' ∈ js) then stencil last i j' else cell t i' j'.
Proof.
  intros Ht Hi. revert t Ht. induction js as [|j js IH]; intros t Ht Hjs; simpl.
  - destruct (decide _) as [[_ H]|_]; [|reflexivity]. now apply elem_of_nil in H.
  - apply Forall_cons in Hjs as [Hj Hjs].
    rewrite IH by (try apply shaped_store; assumption).
    destruct (decide (i' = i /\ j' ∈ js)) as [[-> Hin]|Hn].
    + rewrite decide_True; [reflexivity|]. split; [reflexivity|]. now apply elem_of_cons; right.
    + destruct (decide ((i', j') = (i, j))) as [E|E].
      * inversion E; subst. rewrite decide_True by (split; [reflexivity|apply elem_of_cons; now left]).
        now apply (cell_store_eq (ROWS + 2) (COLUMNS + 2)).
      * rewrite cell_store_ne by exact E.
        rewrite decide_False; [reflexivity|].
        intros [-> Hin]. apply elem_of_cons in Hin as [->|Hin]; [now apply E|].
        apply Hn. now split.
Qed.

Lemma relax_row_cell last i t i' j' :
  local_shape t -> i < ROWS + 2 ->
  cell (relax_row last i t) i' j' =
  if decide (i' = i /\ 1 <= j' <= COLUMNS) then stencil last i j' else cell t i' j'.
Proof.
  intros Ht Hi. unfold relax_row. rewrite relax_cols_cell; [|exact Ht|exact Hi|].
  - destruct (decide (i' = i /\ j' ∈ seq 1 COLUMNS)) as [[E H]|H].
    + rewrite decide_True; [reflexivity|]. apply elem_of_seq in H. split; [exact E|lia].
    + rewrite decide_False; [reflexivity|]. intros [E H']. apply H. split; [exact E|].
      apply elem_of_seq. lia.
  - apply Forall_forall. intros j Hj. apply elem_of_seq in Hj. lia.
Qed.

(** The row update reads [temperature_last] only through the stencil of
    its own row. *)
Lemma relax_row_ext last last' i t :
  (forall j, 1 <= j <= COLUMNS -> stencil last i j = stencil last' i j) ->
  relax_row last i t = relax_row last' i t.
Proof.
  intros H. unfold relax_row.
  assert (Hjs : Forall (fun j => 1 <= j <= COLUMNS) (seq 1 COLUMNS)).
  { apply Forall_forall. intros j Hj. apply elem_of_seq in Hj. lia. }
  revert t Hjs. generalize (seq 1 COLUMNS) as js.
  induction js as [|j js IH]; intros t Hjs; simpl; [reflexivity|].
  apply Forall_cons in Hjs as [Hj Hjs]. rewrite (H j Hj). now apply IH.
Qed.

(** The stencil of row [i] reads rows [i-1], [i] and [i+1] only. *)
Lemma stencil_ext last last' i j :
  (forall i' j', i - 1 <= i' <= i + 1 -> cell last i' j' = cell last' i' j') ->
  stencil last i j = stencil last' i j.
Proof. intros H. unfold stencil. rewrite !H by lia. reflexivity. Qed.

(** *** The local-delta pass *)

(** The cells scanned by the delta loop nest, in the order of the loops. *)
Definition local_cells : list (nat * nat) :=
  i ← seq 1 ROWS; pair i <$> seq 1 COLUMNS.

(** [|temperature[i][j] - temperature_last[i][j]|] *)
Definition abs_delta (temperature temperature_last : grid) (c : nat * nat) : float :=
  Double.fabs (cell temperature c.1 c.2 - cell temperature_last c.1 c.2).

(** The running maximum of the reduction, from the initial [dt]. *)
Definition fold_max (dt : float) (xs : list float) : float :=
  foldl (fun d x => Double.fmax x d) dt xs.

Lemma elem_of_local_cells i j :
  (i, j) ∈ local_cells <-> 1 <= i <= ROWS /\ 1 <= j <= COLUMNS.
Proof.
  unfold local_cells. rewrite list_elem_of_bind. split.
  - intros (i' & Hj & Hi). apply list_elem_of_fmap in Hj as (j' & E & Hj).
    inversion E; subst. apply elem_of_seq in Hi, Hj. lia.
  - intros [Hi Hj]. exists i. split.
    + apply list_elem_of_fmap. exists j. split; [reflexivity|apply elem_of_seq; lia].
    + apply elem_of_seq. lia.
Qed.

Lemma NoDup_local_cells : NoDup local_cells.
Proof.
  unfold local_cells. apply NoDup_bind.
  - intros i1 i2 [a b] _ _ H1 H2.
    apply list_elem_of_fmap in H1 as (? & E1 & _), H2 as (? & E2 & _). congruence.
  - intros i _. apply NoDup_fmap_2; [|apply NoDup_seq]. intros ? ? E. congruence.
  - apply NoDup_seq.
Qed.

Lemma delta_pass_cells temperature acc :
  delta_pass temperature acc =
  foldl (fun acc c => delta_cell temperature c.1 c.2 acc) acc local_cells.
Proof.
  unfold delta_pass, local_cells. revert acc.
  generalize (seq 1 ROWS) as rows. intros rows.
  induction rows as [|i rows IH]; intros acc; [reflexivity|].
  simpl. rewrite foldl_app, foldl_fmap. apply IH.
Qed.

Lemma fold_max_ext (f g : nat * nat -> float) dt cs :
  (forall c, c ∈ cs -> f c = g c) ->
  fold_max dt (f <$> cs) = fold_max dt (g <$> cs).
Proof.
  revert dt. induction cs as [|c cs IH]; intros dt H; [reflexivity|].
  simpl. rewrite (H c) by (apply elem_of_cons; now left).
  apply IH. intros c' Hc'. apply H. apply elem_of_cons. now right.
Qed.

(** One sweep over distinct in-range cells: the scanned cells of
    [temperature_last] take the value of [temperature], every other cell is
    kept, and [dt] is the running maximum of the differences to the
    values [temperature_last] held before the sweep. *)
Lemma delta_cells_spec temperature cs :
  forall last dt,
    local_shape last -> NoDup cs ->
    Forall (fun c => c.1 < ROWS + 2 /\ c.2 < COLUMNS + 2) cs ->
    let r := foldl (fun acc c => delta_cell temperature c.1 c.2 acc) (last, dt) cs in
    local_shape r.1 /\
    (forall i j, cell r.1 i j = if decide ((i, j) ∈ cs) then cell temperature i j
                                else cell last i j) /\
    r.2 = fold_max dt (abs_delta temperature last <$> cs).
Proof.
  induction cs as [|[a b] cs IH]; intros last dt Hs Hnd Hin; cbv zeta.
  - split; [exact Hs|]. split; [|reflexivity]. intros i j. simpl.
    destruct (decide ((i, j) ∈ [])) as [H|_]; [|reflexivity]. now apply elem_of_nil in H.
  - apply NoDup_cons in Hnd as [Hnotin Hnd]. apply Forall_cons in Hin as [[Ha Hb] Hin].
    simpl in Ha, Hb.
    set (last1 := store last a b (cell temperature a b)).
    set (dt1 := Double.fmax (Double.fabs (cell temperature a b - cell last a b)) dt).
    change (foldl (fun acc c => delta_cell temperature c.1 c.2 acc) (last, dt) ((a, b) :: cs))
      with (foldl (fun acc c => delta_cell temperature c.1 c.2 acc) (last1, dt1) cs).
    assert (Hs1 : local_shape last1) by now apply shaped_store.
    destruct (IH last1 dt1 Hs1 Hnd Hin) as (Hshape & Hcells & Hdt).
    split; [exact Hshape|]. split.
    + intros i j. rewrite Hcells.
      destruct (decide ((i, j) ∈ cs)) as [Hc|Hc].
      * rewrite decide_True; [reflexivity|]. apply elem_of_cons. now right.
      * destruct (decide ((i, j) = (a, b))) as [E|E].
        -- inversion E; subst. rewrite decide_True by (apply elem_of_cons; now left).
           now apply (cell_store_eq (ROWS + 2) (COLUMNS + 2)).
        -- rewrite decide_False by (rewrite elem_of_cons; tauto).
           unfold last1. now apply cell_store_ne.
    + rewrite Hdt. rewrite fmap_cons. change (fold_max dt (abs_delta temperature last (a, b) :: (abs_delta temperature last <$> cs)))
        with (fold_max dt1 (abs_delta temperature last <$> cs)).
      apply fold_max_ext. intros [i j] Hc. unfold abs_delta. simpl.
      unfold last1. rewrite cell_store_ne; [reflexivity|]. intros E. now rewrite E in Hc.
Qed.

Lemma fold_max_ordered dt xs : Double.ordered dt -> Double.ordered (fold_max dt xs).
Proof.
  revert dt. induction xs as [|x xs IH]; intros dt H; [exact H|].
  simpl. apply IH. now apply Double.fmax_ordered_r.
Qed.

Lemma fold_max_ge_init dt xs : Double.ordered dt -> Double.le dt (fold_max dt xs).
Proof.
  revert dt. induction xs as [|x xs IH]; intros dt H; simpl.
  - now apply Double.le_refl.
  - eapply Double.le_trans; [apply (Double.fmax_ge_r x dt H)|].
    apply IH. now apply Double.fmax_ordered_r.
Qed.

Lemma fold_max_ge dt xs x :
  Double.ordered dt -> x ∈ xs -> Double.ordered x -> Double.le x (fold_max dt xs).
Proof.
  revert dt. induction xs as [|y xs IH]; intros dt Hdt Hin Hx.
  - now apply elem_of_nil in Hin.
  - simpl. apply elem_of_cons in Hin as [->|Hin].
    + eapply Double.le_trans; [apply (Double.fmax_ge_l y dt Hx Hdt)|].
      apply fold_max_ge_init. now apply Double.fmax_ordered_r.
    + apply IH; [now apply Double.fmax_ordered_r|exact Hin|exact Hx].
Qed.

Lemma fold_max_attained dt xs : fold_max dt xs = dt \/ fold_max dt xs ∈ xs.
Proof.
  revert dt. induction xs as [|x xs IH]; intros dt; simpl; [now left|].
  destruct (IH (Double.fmax x dt)) as [E|Hin].
  - rewrite E. destruct (Double.fmax_cases x dt) as [->| ->].
    + right. apply elem_of_cons. now left.
    + now left.
  - right. apply elem_of_cons. now right.
Qed.

End Kernel.

(** ** One MPI process

    The state of a rank during the loop: its two grids, its four request
    handles and its local [dt]. The network holds, per (source, destination,
    tag), the payloads sent and not yet received, oldest first (MPI matches
    the messages of one source, destination, tag and communicator in the
    order they were sent). *)

Inductive request :=
| MPI_REQUEST_NULL
| Sending (row : nat)
| Receiving (source tag : Z) (row : nat).

Inductive handle := TopRecv | TopSend | BottomRecv | BottomSend.

Record process := Process {
  temperature : grid;
  temperature_last : grid;
  top_recv : request;
  top_send : request;
  bottom_recv : request;
  bottom_send : request;
  dt : float
}.

Definition request_of (h : handle) (p : process) : request :=
  match h with
  | TopRecv => top_recv p
  | TopSend => top_send p
  | BottomRecv => bottom_recv p
  | BottomSend => bottom_send p
  end.

Definition set_request (h : handle) (r : request) (p : process) : process :=
  match h with
  | TopRecv => Process (temperature p) (temperature_last p) r (top_send p) (bottom_recv p) (bottom_send p) (dt p)
  | TopSend => Process (temperature p) (temperature_last p) (top_recv p) r (bottom_recv p) (bottom_send p) (dt p)
  | BottomRecv => Process (temperature p) (temperature_last p) (top_recv p) (top_send p) r (bottom_send p) (dt p)
  | BottomSend => Process (temperature p) (temperature_last p) (top_recv p) (top_send p) (bottom_recv p) r (dt p)
  end.

Definition set_temperature (g : grid) (p : process) : process :=
  Process g (temperature_last p) (top_recv p) (top_send p) (bottom_recv p) (bottom_send p) (dt p).

Definition set_temperature_last (g : grid) (p : process) : process :=
  Process (temperature p) g (top_recv p) (top_send p) (bottom_recv p) (bottom_send p) (dt p).

Definition set_dt (d : float) (p : process) : process :=
  Process (temperature p) (temperature_last p) (top_recv p) (top_send p) (bottom_recv p) (bottom_send p) d.

(** The variables of a rank when the loop is reached: the two grids as
    [initialise_temperatures] filled them (line 74), [dt] as declared
    (line 30, not yet assigned), and the four request handles, each
    initialised to [MPI_REQUEST_NULL] (lines 77-80). *)
Definition initial_process (temperature temperature_last : grid) (dt : float) : process :=
  Process temperature temperature_last
          MPI_REQUEST_NULL MPI_REQUEST_NULL MPI_REQUEST_NULL MPI_REQUEST_NULL dt.

Abbreviation network := (gmap (Z * Z * Z) (list (list float))).

(** The payloads in flight from [source] to [dest] under [tag]. *)
Definition channel (net : network) (key : Z * Z * Z) : list (list float) :=
  default [] (net !! key).

Definition post (key : Z * Z * Z) (payload : list float) (net : network) : network :=
  <[key := channel net key ++ [payload]]> net.

(** The statements of one loop iteration that touch the grids or MPI. *)
Inductive command :=
| MPI_Wait (h : handle)
| Relax (i : nat)
| MPI_Irecv (row : nat) (source tag : Z) (h : handle)
| MPI_Isend (row : nat) (dest tag : Z) (h : handle)
| ResetDt
| Barrier
| DeltaPass.

#[global] Instance request_eq_dec : EqDecision request.
Proof. solve_decision. Defined.
#[global] Instance handle_eq_dec : EqDecision handle.
Proof. solve_decision. Defined.
#[global] Instance command_eq_dec : EqDecision command.
Proof. solve_decision. Defined.

(** The schedules of two threads: every merge of their two programs that
    keeps the order of each. *)
Inductive interleaving {A : Type} : list A -> list A -> list A -> Prop :=
| interleaving_nil : interleaving [] [] []
| interleaving_left a l0 l1 l : interleaving l0 l1 l -> interleaving (a :: l0) l1 (a :: l)
| interleaving_right b l0 l1 l : interleaving l0 l1 l -> interleaving l0 (b :: l1) (b :: l).

Section Process.

Variables ROWS COLUMNS : nat.

(** The rank of this process. *)
Variable my_rank : Z.

(** The effect of one statement; [None] when an [MPI_Wait] on a receive
    finds no matching message (the call would block).

    - [MPI_Wait] on [MPI_REQUEST_NULL] returns at once; on a send it frees
      the handle; on a receive it delivers the oldest matching payload into
      the receive buffer and frees the handle.
    - [MPI_Isend] hands the [COLUMNS] cells of the row to the network: the
      buffer is read at the call. MPI may read it until the wait on the send
      returns; with two or more rows per rank the row is not written in
      between ([send_buffer_kept] below), with a single row it is
      ([exec_late] reads the buffer when the wait returns).
    - [Relax i] is the [j] loop of row [i]; [DeltaPass] the loop nest of
      lines 184-192; [ResetDt] is [dt = 0.0]. *)
Definition exec (c : command) (s : process * network) : option (process * network) :=
  let p := s.1 in
  let net := s.2 in
  match c with
  | MPI_Wait h =>
      match request_of h p with
      | MPI_REQUEST_NULL => Some (p, net)
      | Sending _ => Some (set_request h MPI_REQUEST_NULL p, net)
      | Receiving source tag row =>
          match channel net (source, my_rank, tag) with
          | payload :: rest =>
              Some (set_request h MPI_REQUEST_NULL
                      (set_temperature_last (store_payload (temperature_last p) row payload) p),
                    <[(source, my_rank, tag) := rest]> net)
          | [] => None
          end
      end
  | Relax i =>
      Some (set_temperature (relax_row COLUMNS (temperature_last p) i (temperature p)) p, net)
  | MPI_Irecv row source tag h =>
      Some (set_request h (Receiving source tag row) p, net)
  | MPI_Isend row dest tag h =>
      Some (set_request h (Sending row) p,
            post (my_rank, dest, tag) (row_payload COLUMNS (temperature p) row) net)
  | ResetDt => Some (set_dt 0%float p, net)
  | Barrier => Some (p, net)
  | DeltaPass =>
      let r := delta_pass ROWS COLUMNS (temperature p) (temperature_last p, dt p) in
      Some (set_dt r.2 (set_temperature_last r.1 p), net)
  end.

Fixpoint run (cs : list command) (s : process * network) : option (process * network) :=
  match cs with
  | [] => Some s
  | c :: cs => exec c s ≫= run cs
  end.

(** Every statement of [cs] that is reached, with the state it starts in. *)
Fixpoint visits (cs : list command) (s : process * network) : list (command * (process * network)) :=
  match cs with
  | [] => []
  | c :: cs => (c, s) :: match exec c s with
                         | Some s' => visits cs s'
                         | None => []
                         end
  end.

(** The number of MPI processes. *)
Variable comm_size : Z.

(** Lines 104-125: thread 0 waits for the transfers of the previous
    iteration and updates the two boundary rows. *)
Definition boundary_rows : list command :=
  [MPI_Wait TopSend; MPI_Wait TopRecv; Relax 1;
   MPI_Wait BottomSend; MPI_Wait BottomRecv; Relax ROWS].

(** Lines 130-155: the non-blocking transfers for the next iteration. *)
Definition launch_exchange : list command :=
  (if negb (my_rank =? 0)%Z then [MPI_Irecv 0 (my_rank - 1) 0 TopRecv] else []) ++
  (if negb (my_rank =? 0)%Z then [MPI_Isend 1 (my_rank - 1) 1 TopSend] else []) ++
  (if negb (my_rank =? comm_size - 1)%Z then [MPI_Isend ROWS (my_rank + 1) 0 BottomSend] else []) ++
  (if negb (my_rank =? comm_size - 1)%Z then [MPI_Irecv (ROWS + 1) (my_rank + 1) 1 BottomRecv] else []).

(** Thread 0 of the parallel region, lines 101-156. *)
Definition thread0 : list command := boundary_rows ++ launch_exchange.

(** The rows of the other thread, lines 159-171: [2 .. ROWS-1] (none when
    [ROWS] is 1 or 2; [ROWS] is at least 1, it is the number of rows of a
    rank). *)
Definition interior_rows : list nat := seq 2 (ROWS - 2).

(** The other thread runs the row loop as a [parallel for]: the rows are
    dealt out to its threads, each row is written by one of them, so the
    rows are relaxed in some order. *)
Definition interior_task (order : list nat) : list command := Relax <$> order.

(** The rows in the order of the loop. *)
Definition thread1 : list command := interior_task interior_rows.

(** Lines 178-192, after both branches: [dt = 0.0], the barrier, the delta
    loop nest. [dt = 0.0] is run once, by the thread that reaches it first;
    it writes [dt] only, which nothing before the barrier reads or writes,
    so it is placed right before the barrier ([reset_dt_anywhere] below).
    The delta loop is shared between the threads and its maximum combined
    by the reduction; the cells are taken here in the order of the loops,
    and [delta_pass_any_order] below gives the same copy and a local maximum
    for every order. *)
Definition closing : list command := [ResetDt; Barrier; DeltaPass].

(** The statement sequences the two branches can execute: a merge of
    thread 0 with the interior rows in any order. A row update is one step:
    no two threads write cells of the same row. *)
Definition compute_schedule (sched : list command) : Prop :=
  exists order, order ≡ₚ interior_rows /\ interleaving thread0 (interior_task order) sched.

(** The team of the parallel region, line 98. [num_threads(2)] asks for two
    threads; the OpenMP runtime may give the region fewer (a thread limit,
    no resources), so the team has one or two threads. Every thread of the
    team runs the region: the test of line 101 sends thread 0 to the first
    branch and any other thread to the second. With a team of one no thread
    enters the second branch, and the compute phase is [thread0] alone. *)
Definition team_schedule (team : nat) (sched : list command) : Prop :=
  match team with
  | 1 => sched = thread0
  | 2 => compute_schedule sched
  | _ => False
  end.

(** The statement sequences one iteration can execute. *)
Definition iteration_schedule (cs : list command) : Prop :=
  exists sched, compute_schedule sched /\ cs = sched ++ closing.

(** The schedule in which thread 0 runs first. *)
Definition sequential_schedule : list command := thread0 ++ thread1 ++ closing.

(** Lines 214-217, after the loop. *)
Definition final_waits : list command :=
  [MPI_Wait TopSend; MPI_Wait TopRecv; MPI_Wait BottomSend; MPI_Wait BottomRecv].

End Process.

(** ** Schedules of two threads *)

Lemma interleaving_elem_of {A : Type} (l0 l1 l : list A) x :
  interleaving l0 l1 l -> x ∈ l <-> x ∈ l0 \/ x ∈ l1.
Proof.
  induction 1 as [|a l0 l1 l _ IH|b l0 l1 l _ IH].
  - rewrite !elem_of_nil. tauto.
  - rewrite !elem_of_cons, IH. tauto.
  - rewrite !elem_of_cons, IH. tauto.
Qed.

Lemma interleaving_sequential {A : Type} (l0 l1 : list A) : interleaving l0 l1 (l0 ++ l1).
Proof.
  induction l0 as [|a l0 IH]; simpl.
  - induction l1 as [|b l1 IH]; constructor. exact IH.
  - constructor. exact IH.
Qed.

(** [x] occurs in [l] with a later occurrence of [y]. *)
Definition precedes {A : Type} (l : list A) (x y : A) : Prop :=
  exists a b c, l = a ++ x :: b ++ y :: c.

Lemma precedes_cons {A : Type} (l : list A) z x y : precedes l x y -> precedes (z :: l) x y.
Proof. intros (a & b & c & ->). now exists (z :: a), b, c. Qed.

Lemma precedes_head {A : Type} (l : list A) x y : y ∈ l -> precedes (x :: l) x y.
Proof.
  intros H. apply list_elem_of_split in H as (b & c & ->). now exists [], b, c.
Qed.

Lemma precedes_inv {A : Type} (l : list A) z x y :
  precedes (z :: l) x y -> (z = x /\ y ∈ l) \/ precedes l x y.
Proof.
  intros (a & b & c & E). destruct a as [|z' a]; simpl in E; inversion E; subst.
  - left. split; [reflexivity|]. apply elem_of_app. right. apply elem_of_cons. now left.
  - right. now exists a, b, c.
Qed.

(** A merge keeps the order of the statements of each thread. *)
Lemma interleaving_precedes {A : Type} (l0 l1 l : list A) x y :
  interleaving l0 l1 l -> precedes l0 x y -> precedes l x y.
Proof.
  induction 1 as [|a l0 l1 l Hi IH|b l0 l1 l Hi IH]; intros Hp.
  - destruct Hp as (a & b & c & E). now destruct a.
  - apply precedes_inv in Hp as [[-> Hy]|Hp].
    + apply precedes_head. apply (interleaving_elem_of _ _ _ _ Hi). now left.
    + apply precedes_cons. now apply IH.
  - apply precedes_cons. now apply IH.
Qed.

Lemma precedes_app_r {A : Type} (l k : list A) x y : x ∈ l -> y ∈ k -> precedes (l ++ k) x y.
Proof.
  intros Hx Hy. apply list_elem_of_split in Hx as (a & b & ->), Hy as (c & d & ->).
  exists a, (b ++ c), d. now rewrite <- !app_assoc.
Qed.

Lemma precedes_app_l {A : Type} (l k : list A) x y : precedes l x y -> precedes (l ++ k) x y.
Proof.
  intros (a & b & c & ->). exists a, b, (c ++ k).
  rewrite <- app_assoc. simpl. rewrite <- app_assoc. reflexivity.
Qed.

(** ** Proof outlines for one thread under interference of the other *)

Section Outline.

Variables ROWS COLUMNS : nat.
Variable my_rank : Z.

Definition assertion : Type := process * network -> Prop.

(** If [c] starts in a state of [P] and returns, it ends in a state of [Q]. *)
Definition triple (P : assertion) (c : command) (Q : assertion) : Prop :=
  forall s s', P s -> exec ROWS COLUMNS my_rank c s = Some s' -> Q s'.

(** [P] survives every statement of the other thread. *)
Definition stable (others : list command) (P : assertion) : Prop :=
  forall b, b ∈ others -> triple P b P.

Definition pre_of (ann : list (assertion * command)) (Q : assertion) : assertion :=
  match ann with
  | [] => Q
  | (P, _) :: _ => P
  end.

(** A thread annotated with the assertion in front of each statement, and
    [Q] at its end. *)
Fixpoint outline (ann : list (assertion * command)) (Q : assertion) : Prop :=
  match ann with
  | [] => True
  | (P, c) :: rest => triple P c (pre_of rest Q) /\ outline rest Q
  end.

Lemma stable_tail b others P : stable (b :: others) P -> stable others P.
Proof. intros H c Hc. apply H. apply elem_of_cons. now right. Qed.

(** In every merge of an outlined thread with a thread that keeps its
    assertions, each statement of the outlined thread starts in its
    assertion, each statement of the other thread starts in some assertion
    of the outline, and the run ends in [Q]. *)
Lemma outline_sound (ann : list (assertion * command)) (Q : assertion) others l :
  interleaving ann.*2 others l ->
  outline ann Q ->
  Forall (fun a => stable others a.1) ann ->
  stable others Q ->
  forall s, pre_of ann Q s ->
    (forall c s', (c, s') ∈ visits ROWS COLUMNS my_rank l s ->
       (exists P, (P, c) ∈ ann /\ P s') \/
       (c ∈ others /\ exists P, P ∈ Q :: ann.*1 /\ P s')) /\
    (forall s', run ROWS COLUMNS my_rank l s = Some s' -> Q s').
Proof.
  intros Hi. remember (ann.*2) as l0 eqn:El0. revert ann El0.
  induction Hi as [|a l0 l1 l Hi IH|b l0 l1 l Hi IH]; intros ann El0 Hout Hst HQ s Hpre.
  - destruct ann; [|discriminate]. split.
    + intros c s' H. now apply elem_of_nil in H.
    + intros s' H. simpl in H. inversion H; subst. exact Hpre.
  - destruct ann as [|[P c] rest]; [discriminate|]. simpl in El0. inversion El0; subst.
    simpl in Hout, Hpre. destruct Hout as [Htr Hout].
    apply Forall_cons in Hst as [_ Hst].
    split.
    + intros c' s' H. simpl in H. apply elem_of_cons in H as [E|H].
      * inversion E; subst. left. exists P. split; [apply elem_of_cons; now left|exact Hpre].
      * destruct (exec ROWS COLUMNS my_rank c s) as [s1|] eqn:Ex; [|now apply elem_of_nil in H].
        destruct (IH rest eq_refl Hout Hst HQ s1 (Htr _ _ Hpre Ex)) as [IHv _].
        destruct (IHv c' s' H) as [(P' & Hin & HP')|(Hc' & P' & Hin & HP')].
        -- left. exists P'. split; [apply elem_of_cons; now right|exact HP'].
        -- right. split; [exact Hc'|]. exists P'. split; [|exact HP'].
           simpl. rewrite !elem_of_cons in *. tauto.
    + intros s' H. simpl in H.
      destruct (exec ROWS COLUMNS my_rank c s) as [s1|] eqn:Ex; [|discriminate].
      simpl in H.
      destruct (IH rest eq_refl Hout Hst HQ s1 (Htr _ _ Hpre Ex)) as [_ IHr]. now apply IHr.
  - assert (Hst' : Forall (fun a => stable l1 a.1) ann).
    { eapply Forall_impl; [exact Hst|]. intros a. apply stable_tail. }
    assert (Hpre_st : stable (b :: l1) (pre_of ann Q)).
    { destruct ann as [|[P c] rest]; [exact HQ|]. now apply Forall_cons in Hst as [Hst _]. }
    assert (Hb : b ∈ b :: l1) by (apply elem_of_cons; now left).
    split.
    + intros c' s' H. simpl in H. apply elem_of_cons in H as [E|H].
      * inversion E; subst. right. split; [exact Hb|]. exists (pre_of ann Q). split; [|exact Hpre].
        destruct ann as [|[P c] rest]; simpl; rewrite !elem_of_cons; tauto.
      * destruct (exec ROWS COLUMNS my_rank b s) as [s1|] eqn:Ex; [|now apply elem_of_nil in H].
        destruct (IH ann El0 Hout Hst' (stable_tail _ _ _ HQ) s1 (Hpre_st _ Hb _ _ Hpre Ex)) as [IHv _].
        destruct (IHv c' s' H) as [?|(Hc' & HP')]; [now left|].
        right. split; [apply elem_of_cons; now right|exact HP'].
    + intros s' H. simpl in H.
      destruct (exec ROWS COLUMNS my_rank b s) as [s1|] eqn:Ex; [|discriminate].
      simpl in H.
      destruct (IH ann El0 Hout Hst' (stable_tail _ _ _ HQ) s1 (Hpre_st _ Hb _ _ Hpre Ex)) as [_ IHr].
      now apply IHr.
Qed.

End Outline.

(** ** Invariants of one iteration *)

Lemma request_of_set_eq h r p : request_of h (set_request h r p) = r.
Proof. now destruct h. Qed.

Lemma request_of_set_ne h h' r p : h <> h' -> request_of h' (set_request h r p) = request_of h' p.
Proof. destruct h, h'; simpl; congruence. Qed.

Lemma temperature_set_request h r p : temperature (set_request h r p) = temperature p.
Proof. now destruct h. Qed.

Lemma temperature_last_set_request h r p : temperature_last (set_request h r p) = temperature_last p.
Proof. now destruct h. Qed.

Lemma interleaving_sym {A : Type} (l0 l1 l : list A) : interleaving l0 l1 l -> interleaving l1 l0 l.
Proof. induction 1; constructor; assumption. Qed.

Section Iteration.

Variables ROWS COLUMNS : nat.
Variables my_rank comm_size : Z.

(** The order in which the interior rows are relaxed. *)
Variable order : list nat.
Hypothesis order_ok : order ≡ₚ interior_rows ROWS.

Local Abbreviation interior := (interior_task order).
Local Abbreviation step := (exec ROWS COLUMNS my_rank).
Local Abbreviation hoare := (triple ROWS COLUMNS my_rank).
Local Abbreviation shape := (local_shape ROWS COLUMNS).

(** A send handle is free or sends row [row]. *)
Definition send_of (row : nat) (r : request) : Prop :=
  r = MPI_REQUEST_NULL \/ r = Sending row.

(** A receive handle is free or receives into row [row]. *)
Definition recv_into (row : nat) (r : request) : Prop :=
  r = MPI_REQUEST_NULL \/ exists source tag, r = Receiving source tag row.

(** What the four handles can hold: the transfers of [launch_exchange]. *)
Definition request_ok (h : handle) (r : request) : Prop :=
  match h with
  | TopRecv => recv_into 0 r
  | TopSend => send_of 1 r
  | BottomRecv => recv_into (ROWS + 1) r
  | BottomSend => send_of ROWS r
  end.

Definition well_formed (s : process * network) : Prop :=
  shape (temperature s.1) /\ shape (temperature_last s.1) /\
  forall h, request_ok h (request_of h s.1).

(** Row [i] of [temperature] holds the stencil of [temperature_last]. *)
Definition row_relaxed (i : nat) (s : process * network) : Prop :=
  forall j, 1 <= j <= COLUMNS ->
    cell (temperature s.1) i j = stencil (temperature_last s.1) i j.

(** The assertions of the outlines: the handles of [free] are
    [MPI_REQUEST_NULL] and the rows of [rows] are relaxed. *)
Definition at_point (free : list handle) (rows : list nat) : assertion :=
  fun s => well_formed s /\
           (forall h, h ∈ free -> request_of h s.1 = MPI_REQUEST_NULL) /\
           (forall i, i ∈ rows -> row_relaxed i s).

(** The transfers thread 0 may launch. *)
Definition launch_ok (c : command) : Prop :=
  match c with
  | MPI_Irecv row _ _ h => (h = TopRecv /\ row = 0) \/ (h = BottomRecv /\ row = ROWS + 1)
  | MPI_Isend row _ _ h => (h = TopSend /\ row = 1) \/ (h = BottomSend /\ row = ROWS)
  | _ => False
  end.

Lemma launch_exchange_ok c : c ∈ launch_exchange ROWS my_rank comm_size -> launch_ok c.
Proof.
  unfold launch_exchange.
  destruct (negb (my_rank =? 0)%Z), (negb (my_rank =? comm_size - 1)%Z); simpl;
    rewrite ?elem_of_cons, elem_of_nil; intros H;
    repeat (destruct H as [->|H]; [simpl; tauto|]); destruct H.
Qed.

Lemma request_ok_null h : request_ok h MPI_REQUEST_NULL.
Proof. destruct h; simpl; now left. Qed.

Lemma at_point_weaken free rows free' rows' s :
  at_point free rows s -> free' ⊆ free -> rows' ⊆ rows -> at_point free' rows' s.
Proof.
  intros (Hwf & Hf & Hr) Hsf Hsr. split; [exact Hwf|]. split.
  - intros h Hh. apply Hf. now apply Hsf.
  - intros i Hi. apply Hr. now apply Hsr.
Qed.

(** [MPI_Wait] frees its handle; a completed receive rewrites cells
    [1..] of the halo row it was posted for. *)
Lemma exec_wait h s s' :
  well_formed s -> step (MPI_Wait h) s = Some s' ->
  temperature s'.1 = temperature s.1 /\
  request_of h s'.1 = MPI_REQUEST_NULL /\
  (forall h', h' <> h -> request_of h' s'.1 = request_of h' s.1) /\
  shape (temperature_last s'.1) /\
  (forall i j, (h = TopRecv -> i <> 0) -> (h = BottomRecv -> i <> ROWS + 1) ->
     cell (temperature_last s'.1) i j = cell (temperature_last s.1) i j) /\
  ((h = TopSend \/ h = BottomSend) -> temperature_last s'.1 = temperature_last s.1).
Proof.
  intros (Ht & Hl & Hr) H. destruct s as [p net]. unfold exec in H. simpl in *.
  specialize (Hr h) as Hh.
  destruct (request_of h p) as [|row|source tag row] eqn:E.
  - inversion H; subst; simpl. repeat split; auto; apply Hl.
  - inversion H; subst; simpl.
    rewrite temperature_set_request, temperature_last_set_request, request_of_set_eq.
    repeat split; auto; try apply Hl. intros h' Hne. now apply request_of_set_ne.
  - destruct (channel net (source, my_rank, tag)) as [|payload rest]; [discriminate|].
    inversion H; subst; simpl.
    rewrite temperature_set_request, temperature_last_set_request, request_of_set_eq. simpl.
    split; [reflexivity|]. split; [reflexivity|]. split.
    { intros h' Hne. rewrite request_of_set_ne by congruence. now destruct h'. }
    split; [now apply shaped_store_from|]. split.
    + intros i j H1 H2. apply cell_store_from_other. left.
      destruct h; simpl in Hh; destruct Hh as [Hh|Hh]; try discriminate;
        try (destruct Hh as (? & ? & Hh)); inversion Hh; subst; auto.
    + intros [-> | ->]; simpl in Hh; destruct Hh; discriminate.
Qed.

(** [Relax i] rewrites cells [1..COLUMNS] of row [i] of [temperature]. *)
Lemma exec_relax i s s' :
  well_formed s -> i < ROWS + 2 -> step (Relax i) s = Some s' ->
  well_formed s' /\
  temperature_last s'.1 = temperature_last s.1 /\
  (forall h, request_of h s'.1 = request_of h s.1) /\
  row_relaxed i s' /\
  (forall i' j, i' <> i -> cell (temperature s'.1) i' j = cell (temperature s.1) i' j).
Proof.
  intros (Ht & Hl & Hr) Hi H. destruct s as [p net]. unfold exec in H. simpl in *.
  inversion H; subst; simpl. clear H.
  split; [|split; [reflexivity|split; [now intros []|split]]].
  - split; [now apply relax_row_shape|]. split; [exact Hl|]. intros h. specialize (Hr h). now destruct h.
  - intros j Hj. simpl. rewrite (relax_row_cell ROWS) by assumption.
    rewrite decide_True; [reflexivity|]. split; [reflexivity|exact Hj].
  - intros i' j Hne. rewrite (relax_row_cell ROWS) by assumption.
    rewrite decide_False; [reflexivity|]. intros [E _]. congruence.
Qed.

(** A launch changes one handle and the network only. *)
Lemma exec_launch c s s' :
  well_formed s -> launch_ok c -> step c s = Some s' ->
  well_formed s' /\ temperature s'.1 = temperature s.1 /\
  temperature_last s'.1 = temperature_last s.1.
Proof.
  intros (Ht & Hl & Hr) Hc H. destruct s as [p net].
  destruct c as [h|i|row source tag h|row dest tag h| | |]; simpl in Hc; try contradiction;
    unfold exec in H; simpl in H; inversion H; subst; unfold well_formed; simpl in *;
    rewrite temperature_set_request, temperature_last_set_request;
    (split; [|split; reflexivity]); (split; [exact Ht|split; [exact Hl|]]);
    intros h'; specialize (Hr h'); simpl in Hr;
    (destruct (decide (h = h')) as [<-|Hne];
     [rewrite request_of_set_eq|rewrite request_of_set_ne by exact Hne; exact Hr]).
  - destruct Hc as [[-> ->]|[-> ->]]; simpl; right; eauto.
  - destruct Hc as [[-> ->]|[-> ->]]; simpl; now right.
Qed.

Lemma hoare_wait free rows h :
  (h = TopRecv -> forall i, i ∈ rows -> 2 <= i) ->
  (h = BottomRecv -> forall i, i ∈ rows -> i + 1 <= ROWS) ->
  hoare (at_point free rows) (MPI_Wait h) (at_point (h :: free) rows).
Proof.
  intros Htop Hbot s s' (Hwf & Hf & Hr) H.
  destruct (exec_wait h s s' Hwf H) as (Ht & Hnull & Hother & Hshape & Hcells & _).
  split; [|split].
  - destruct Hwf as (Hts & _ & Hreq). split; [now rewrite Ht|]. split; [exact Hshape|].
    intros h'. destruct (decide (h' = h)) as [->|Hne].
    + rewrite Hnull. apply request_ok_null.
    + rewrite Hother by exact Hne. apply Hreq.
  - intros h' Hh'. apply elem_of_cons in Hh' as [->|Hh']; [exact Hnull|].
    destruct (decide (h' = h)) as [->|Hne]; [exact Hnull|].
    rewrite Hother by exact Hne. now apply Hf.
  - intros i Hi j Hj. rewrite Ht, (Hr i Hi j Hj). apply stencil_ext.
    intros i' j' Hi'. symmetry. apply Hcells.
    + intros E. specialize (Htop E i Hi). lia.
    + intros E. specialize (Hbot E i Hi). lia.
Qed.

Lemma hoare_relax free rows i :
  i < ROWS + 2 -> hoare (at_point free rows) (Relax i) (at_point free (i :: rows)).
Proof.
  intros Hi s s' (Hwf & Hf & Hr) H.
  destruct (exec_relax i s s' Hwf Hi H) as (Hwf' & Hl & Hreq & Hrow & Hcells).
  split; [exact Hwf'|]. split.
  - intros h Hh. rewrite Hreq. now apply Hf.
  - intros i' Hi'. destruct (decide (i' = i)) as [->|Hne]; [exact Hrow|].
    apply elem_of_cons in Hi' as [->|Hi']; [congruence|].
    intros j Hj. rewrite Hcells by exact Hne. rewrite Hl. now apply Hr.
Qed.

Lemma hoare_launch free rows c :
  launch_ok c -> hoare (at_point free rows) c (at_point [] rows).
Proof.
  intros Hc s s' (Hwf & Hf & Hr) H.
  destruct (exec_launch c s s' Hwf Hc H) as (Hwf' & Ht & Hl).
  split; [exact Hwf'|]. split.
  - intros h Hh. now apply elem_of_nil in Hh.
  - intros i Hi j Hj. rewrite Ht, Hl. now apply Hr.
Qed.

Lemma hoare_weaken P c Q Q' :
  hoare P c Q -> (forall s, Q s -> Q' s) -> hoare P c Q'.
Proof. intros H HQ s s' HP Hex. apply HQ. eapply H; eauto. Qed.

Lemma hoare_relax_keep free rows i :
  i < ROWS + 2 -> hoare (at_point free rows) (Relax i) (at_point free rows).
Proof.
  intros Hi. eapply hoare_weaken; [apply (hoare_relax free rows i Hi)|].
  intros s Hs. eapply at_point_weaken; [exact Hs|set_solver|set_solver].
Qed.

Lemma hoare_wait_keep rows h :
  (forall i, i ∈ rows -> 2 <= i /\ i + 1 <= ROWS) ->
  hoare (at_point [] rows) (MPI_Wait h) (at_point [] rows).
Proof.
  intros Hrows. eapply hoare_weaken; [apply (hoare_wait [] rows h)|].
  - intros _ i Hi. now apply Hrows.
  - intros _ i Hi. now apply Hrows.
  - intros s Hs. eapply at_point_weaken; [exact Hs|set_solver|set_solver].
Qed.

(** The statements of the two threads. *)
Lemma thread0_command c :
  c ∈ thread0 ROWS my_rank comm_size ->
  (exists h, c = MPI_Wait h) \/ c = Relax 1 \/ c = Relax ROWS \/ launch_ok c.
Proof.
  unfold thread0, boundary_rows. rewrite elem_of_app, !elem_of_cons, elem_of_nil.
  intros [H|H].
  - repeat (destruct H as [->|H]; [eauto|]). destruct H.
  - right; right; right. now apply launch_exchange_ok.
Qed.

Lemma thread1_command c :
  c ∈ interior -> exists i, c = Relax i /\ 2 <= i /\ i + 1 <= ROWS.
Proof.
  unfold interior_task. intros H. apply list_elem_of_fmap in H as (i & -> & Hi).
  rewrite order_ok in Hi. apply elem_of_seq in Hi. exists i. split; [reflexivity|lia].
Qed.

Lemma launch_not_relax c i : launch_ok c -> c <> Relax i.
Proof. intros H ->. exact H. Qed.

Lemma launch_not_wait c h : launch_ok c -> c <> MPI_Wait h.
Proof. intros H ->. exact H. Qed.

(** *** The outline of thread 0 *)

(** Row 1 stays relaxed across the wait for the bottom halo unless it is
    also row [ROWS]. *)
Definition first_row_kept : list nat := if decide (ROWS = 1) then [] else [1].

Definition thread0_post : assertion := at_point [] [1; ROWS].

Definition thread0_outline : list (assertion * command) :=
  [ (at_point [] [], MPI_Wait TopSend);
    (at_point [TopSend] [], MPI_Wait TopRecv);
    (at_point [TopRecv; TopSend] [], Relax 1);
    (at_point [TopRecv; TopSend] first_row_kept, MPI_Wait BottomSend);
    (at_point [BottomSend; TopRecv; TopSend] first_row_kept, MPI_Wait BottomRecv);
    (at_point [BottomRecv; BottomSend; TopRecv; TopSend] first_row_kept, Relax ROWS) ] ++
  (pair thread0_post <$> launch_exchange ROWS my_rank comm_size).

Lemma pre_of_const (P : assertion) (l : list command) : pre_of (pair P <$> l) P = P.
Proof. now destruct l. Qed.

Lemma outline_const (P : assertion) (l : list command) :
  (forall c, c ∈ l -> hoare P c P) -> outline ROWS COLUMNS my_rank (pair P <$> l) P.
Proof.
  induction l as [|c l IH]; intros H; simpl; [exact I|]. split.
  - rewrite pre_of_const. apply H. apply elem_of_cons. now left.
  - apply IH. intros c' Hc'. apply H. apply elem_of_cons. now right.
Qed.

Lemma thread0_outline_commands : thread0_outline.*2 = thread0 ROWS my_rank comm_size.
Proof.
  unfold thread0_outline, thread0, boundary_rows. rewrite fmap_app. simpl. do 6 f_equal.
  rewrite <- list_fmap_compose. apply list_fmap_id.
Qed.

Lemma thread0_outline_ok :
  1 <= ROWS -> outline ROWS COLUMNS my_rank thread0_outline thread0_post.
Proof.
  intros Hrows. unfold thread0_outline. simpl.
  split; [apply hoare_wait; intros; set_solver|].
  split; [apply hoare_wait; intros; set_solver|].
  split.
  { eapply hoare_weaken; [apply hoare_relax; lia|]. intros s Hs.
    eapply at_point_weaken; [exact Hs|set_solver|].
    unfold first_row_kept. destruct (decide (ROWS = 1)); set_solver. }
  split; [apply hoare_wait; intros; discriminate|].
  split.
  { apply hoare_wait; [intros; discriminate|]. intros _ i Hi.
    unfold first_row_kept in Hi. destruct (decide (ROWS = 1)); [set_solver|].
    apply list_elem_of_singleton in Hi. lia. }
  split.
  { rewrite pre_of_const. eapply hoare_weaken; [apply hoare_relax; lia|]. intros s Hs.
    eapply at_point_weaken; [exact Hs|set_solver|].
    unfold first_row_kept. intros i Hi. rewrite !elem_of_cons, elem_of_nil in Hi.
    destruct (decide (ROWS = 1)) as [E|E]; rewrite !elem_of_cons; lia. }
  apply outline_const. intros c Hc. eapply hoare_weaken.
  - apply hoare_launch. eapply launch_exchange_ok, Hc.
  - auto.
Qed.

Lemma thread0_outline_point P c :
  (P, c) ∈ thread0_outline -> exists free rows, P = at_point free rows.
Proof.
  unfold thread0_outline. rewrite elem_of_app, !elem_of_cons, elem_of_nil.
  intros [H|H].
  - repeat (destruct H as [E|H]; [inversion E; eauto|]). destruct H.
  - apply list_elem_of_fmap in H as (c' & E & _). inversion E. unfold thread0_post. eauto.
Qed.

Lemma thread0_outline_stable :
  Forall (fun a => stable ROWS COLUMNS my_rank interior a.1) thread0_outline /\
  stable ROWS COLUMNS my_rank interior thread0_post.
Proof.
  assert (H : forall free rows, stable ROWS COLUMNS my_rank interior (at_point free rows)).
  { intros free rows b Hb. apply thread1_command in Hb as (i & -> & Hi).
    apply hoare_relax_keep. lia. }
  split; [|apply H]. apply Forall_forall. intros [P c] Hin.
  apply thread0_outline_point in Hin as (free & rows & ->). apply H.
Qed.

(** *** The outline of thread 1 *)

Fixpoint interior_outline (done rows : list nat) : list (assertion * command) :=
  match rows with
  | [] => []
  | i :: rows => (at_point [] done, Relax i) :: interior_outline (i :: done) rows
  end.

Definition interior_post (done rows : list nat) : assertion :=
  at_point [] (reverse rows ++ done).

Lemma interior_outline_commands done rows : (interior_outline done rows).*2 = Relax <$> rows.
Proof.
  revert done. induction rows as [|i rows IH]; intros done; simpl; [reflexivity|].
  now rewrite IH.
Qed.

Lemma interior_outline_pre done rows :
  pre_of (interior_outline done rows) (interior_post done rows) = at_point [] done.
Proof. destruct rows; reflexivity. Qed.

Lemma interior_post_cons done i rows :
  interior_post done (i :: rows) = interior_post (i :: done) rows.
Proof. unfold interior_post. now rewrite reverse_cons, <- app_assoc. Qed.

Lemma interior_outline_ok done rows :
  Forall (fun i => i < ROWS + 2) rows ->
  outline ROWS COLUMNS my_rank (interior_outline done rows) (interior_post done rows).
Proof.
  revert done. induction rows as [|i rows IH]; intros done Hrows; simpl; [exact I|].
  apply Forall_cons in Hrows as [Hi Hrows]. rewrite interior_post_cons. split.
  - rewrite interior_outline_pre. now apply hoare_relax.
  - now apply IH.
Qed.

Lemma interior_point_stable rows :
  (forall i, i ∈ rows -> 2 <= i /\ i + 1 <= ROWS) ->
  1 <= ROWS ->
  stable ROWS COLUMNS my_rank (thread0 ROWS my_rank comm_size) (at_point [] rows).
Proof.
  intros Hrows Hpos c Hc.
  destruct (thread0_command c Hc) as [[h ->]|[->|[->|Hl]]].
  - now apply hoare_wait_keep.
  - apply hoare_relax_keep. lia.
  - apply hoare_relax_keep. lia.
  - now apply hoare_launch.
Qed.

Lemma interior_outline_stable done rows :
  (forall i, i ∈ done ++ rows -> 2 <= i /\ i + 1 <= ROWS) ->
  1 <= ROWS ->
  Forall (fun a => stable ROWS COLUMNS my_rank (thread0 ROWS my_rank comm_size) a.1)
         (interior_outline done rows) /\
  stable ROWS COLUMNS my_rank (thread0 ROWS my_rank comm_size) (interior_post done rows).
Proof.
  revert done. induction rows as [|i rows IH]; intros done H Hpos.
  - split; [constructor|]. unfold interior_post. simpl.
    apply interior_point_stable; [|exact Hpos]. intros k Hk. apply H. now rewrite app_nil_r.
  - destruct (IH (i :: done)) as [IH1 IH2]; [|exact Hpos|].
    { intros k Hk. apply H. rewrite elem_of_app, !elem_of_cons in *. tauto. }
    split; [|now rewrite interior_post_cons].
    simpl. constructor; [|exact IH1]. simpl. apply interior_point_stable; [|exact Hpos].
    intros k Hk. apply H. apply elem_of_app. now left.
Qed.

(** Whatever the schedule of the two threads, when both are done every
    local row is relaxed. *)
Lemma compute_phase_relaxed sched s s' :
  1 <= ROWS ->
  interleaving (thread0 ROWS my_rank comm_size) interior sched ->
  well_formed s ->
  run ROWS COLUMNS my_rank sched s = Some s' ->
  well_formed s' /\ forall i, 1 <= i <= ROWS -> row_relaxed i s'.
Proof.
  intros Hpos Hi Hwf Hrun.
  assert (H0 : at_point [] [] s).
  { split; [exact Hwf|]. split; intros ? H; now apply elem_of_nil in H. }
  (* thread 0 *)
  destruct thread0_outline_stable as [St0 Sp0].
  pose proof Hi as Hi0. rewrite <- thread0_outline_commands in Hi0.
  destruct (outline_sound ROWS COLUMNS my_rank _ _ _ _ Hi0 (thread0_outline_ok Hpos) St0 Sp0 s H0)
    as [_ Hend0].
  specialize (Hend0 s' Hrun). destruct Hend0 as (Hwf' & _ & Hb).
  (* thread 1 *)
  assert (Hint : forall i, i ∈ [] ++ order -> 2 <= i /\ i + 1 <= ROWS).
  { intros i Hin. simpl in Hin. rewrite order_ok in Hin. apply elem_of_seq in Hin. lia. }
  destruct (interior_outline_stable [] order Hint Hpos) as [St1 Sp1].
  pose proof (interleaving_sym _ _ _ Hi) as Hi1.
  unfold interior_task in Hi1. rewrite <- (interior_outline_commands []) in Hi1.
  assert (Hout1 : outline ROWS COLUMNS my_rank (interior_outline [] order)
                    (interior_post [] order)).
  { apply interior_outline_ok. apply Forall_forall. intros i Hin.
    rewrite order_ok in Hin. apply elem_of_seq in Hin. lia. }
  assert (Hpre1 : pre_of (interior_outline [] order) (interior_post [] order) s).
  { rewrite interior_outline_pre. exact H0. }
  destruct (outline_sound ROWS COLUMNS my_rank _ _ _ _ Hi1 Hout1 St1 Sp1 s Hpre1) as [_ Hend1].
  specialize (Hend1 s' Hrun). destruct Hend1 as (_ & _ & Hin).
  split; [exact Hwf'|]. intros i Hrange.
  destruct (decide (i = 1)) as [->|N1]; [apply Hb, elem_of_cons; now left|].
  destruct (decide (i = ROWS)) as [->|N2]; [apply Hb; rewrite !elem_of_cons; tauto|].
  apply Hin. rewrite app_nil_r, elem_of_reverse, order_ok. apply elem_of_seq. lia.
Qed.

(** *** The closing phase *)

(** [d] is the largest of [0] and the differences
    [|temperature[i][j] - temperature_last[i][j]|] over the local cells: it
    bounds every difference that is a number, and it is [0] or one of them. *)
Definition local_maximum (temperature temperature_last : grid) (d : float) : Prop :=
  Double.ordered d /\
  (forall i j, 1 <= i <= ROWS -> 1 <= j <= COLUMNS ->
     Double.ordered (abs_delta temperature temperature_last (i, j)) ->
     Double.le (abs_delta temperature temperature_last (i, j)) d) /\
  (d = 0%float \/
   exists i j, 1 <= i <= ROWS /\ 1 <= j <= COLUMNS /\
               d = abs_delta temperature temperature_last (i, j)).

Lemma fold_max_local_maximum t last :
  local_maximum t last (fold_max 0 (abs_delta t last <$> local_cells ROWS COLUMNS)).
Proof.
  assert (H0 : Double.ordered 0%float) by reflexivity.
  split; [now apply fold_max_ordered|]. split.
  - intros i j Hi Hj Hord. apply fold_max_ge; [exact H0| |exact Hord].
    apply list_elem_of_fmap. exists (i, j). split; [reflexivity|].
    now apply elem_of_local_cells.
  - destruct (fold_max_attained 0 (abs_delta t last <$> local_cells ROWS COLUMNS)) as [E|Hin].
    + now left.
    + right. apply list_elem_of_fmap in Hin as ([i j] & E & Hin).
      apply elem_of_local_cells in Hin. exists i, j. tauto.
Qed.

(** Two values that both are the local maximum are equal as numbers: the
    result of the reduction does not depend on the order of the cells. *)
Lemma local_maximum_unique t last d1 d2 :
  local_maximum t last d1 -> local_maximum t last d2 -> Double.le d1 d2 /\ Double.le d2 d1.
Proof.
  assert (H : forall a b, local_maximum t last a -> local_maximum t last b -> Double.le a b).
  { intros a b (Ha & _ & Hat) (Hb & Hbound & Hbt).
    destruct Hat as [->|(i & j & Hi & Hj & ->)].
    - destruct Hbt as [->|(i & j & Hi & Hj & ->)]; [now apply Double.le_refl|].
      apply Double.fabs_nonneg. now apply Double.fabs_ordered_inv.
    - now apply Hbound. }
  intros H1 H2. split; now apply H.
Qed.

(** The delta loop nest, started with [dt = 0]. *)
Lemma delta_pass_spec t last :
  shape last ->
  let r := delta_pass ROWS COLUMNS t (last, 0%float) in
  shape r.1 /\
  (forall i j, cell r.1 i j = if decide (1 <= i <= ROWS /\ 1 <= j <= COLUMNS)
                              then cell t i j else cell last i j) /\
  r.2 = fold_max 0 (abs_delta t last <$> local_cells ROWS COLUMNS).
Proof.
  intros Hs. cbv zeta. rewrite delta_pass_cells.
  destruct (delta_cells_spec ROWS COLUMNS t (local_cells ROWS COLUMNS) last 0%float Hs
              (NoDup_local_cells ROWS COLUMNS)) as (H1 & H2 & H3).
  { apply Forall_forall. intros [i j] Hin. apply elem_of_local_cells in Hin. simpl. lia. }
  split; [exact H1|]. split; [|exact H3].
  intros i j. rewrite H2.
  destruct (decide ((i, j) ∈ local_cells ROWS COLUMNS)) as [Hin|Hin].
  - rewrite decide_True; [reflexivity|]. now apply elem_of_local_cells.
  - rewrite decide_False; [reflexivity|]. now rewrite <- elem_of_local_cells.
Qed.

(** The iterations of the delta loop nest are shared between the threads:
    in whatever order the cells are taken, the copy is the same and [dt]
    is a local maximum. *)
Lemma delta_pass_any_order t last cs :
  shape last -> cs ≡ₚ local_cells ROWS COLUMNS ->
  let r := foldl (fun acc c => delta_cell t c.1 c.2 acc) (last, 0%float) cs in
  (forall i j, cell r.1 i j = cell (delta_pass ROWS COLUMNS t (last, 0%float)).1 i j) /\
  local_maximum t last r.2.
Proof.
  intros Hs Hp. cbv zeta.
  assert (Hin : forall i j, (i, j) ∈ cs <-> 1 <= i <= ROWS /\ 1 <= j <= COLUMNS).
  { intros i j. rewrite Hp. apply elem_of_local_cells. }
  destruct (delta_cells_spec ROWS COLUMNS t cs last 0%float Hs) as (_ & H2 & H3).
  { rewrite Hp. apply NoDup_local_cells. }
  { apply Forall_forall. intros [i j] Hc. apply Hin in Hc. simpl. lia. }
  destruct (delta_pass_spec t last Hs) as (_ & H2' & _).
  split.
  - intros i j. rewrite H2, H2'.
    destruct (decide ((i, j) ∈ cs)) as [Hc|Hc].
    + rewrite decide_True; [reflexivity|]. now apply Hin.
    + rewrite decide_False; [reflexivity|]. now rewrite <- Hin.
  - rewrite H3. assert (H0 : Double.ordered 0%float) by reflexivity.
    split; [now apply fold_max_ordered|]. split.
    + intros i j Hi Hj Hord. apply fold_max_ge; [exact H0| |exact Hord].
      apply list_elem_of_fmap. exists (i, j). split; [reflexivity|]. now apply Hin.
    + destruct (fold_max_attained 0 (abs_delta t last <$> cs)) as [E|Hc].
      * now left.
      * right. apply list_elem_of_fmap in Hc as ([i j] & E & Hc).
        apply Hin in Hc. exists i, j. tauto.
Qed.

Lemma run_closing s :
  run ROWS COLUMNS my_rank closing s =
  Some (let r := delta_pass ROWS COLUMNS (temperature s.1) (temperature_last s.1, 0%float) in
        (Process (temperature s.1) r.1 (top_recv s.1) (top_send s.1)
                 (bottom_recv s.1) (bottom_send s.1) r.2, s.2)).
Proof. destruct s as [p net]. reflexivity. Qed.

Lemma well_formed_closing s s' :
  well_formed s -> run ROWS COLUMNS my_rank closing s = Some s' ->
  well_formed s' /\ temperature s'.1 = temperature s.1 /\ s'.2 = s.2 /\
  forall h, request_of h s'.1 = request_of h s.1.
Proof.
  intros (Ht & Hl & Hr) H. rewrite run_closing in H. inversion H; subst; clear H. simpl.
  destruct (delta_pass_spec (temperature s.1) (temperature_last s.1) Hl) as (Hs & _).
  split; [|split; [reflexivity|split; [reflexivity|now intros []]]].
  split; [exact Ht|]. split; [exact Hs|]. intros h. specialize (Hr h). now destruct h.
Qed.

(** *** Send buffers *)

(** Some handle holds a send whose buffer is row [i] of [temperature]. *)
Definition send_in_flight (i : nat) (p : process) : Prop :=
  exists h, request_of h p = Sending i.

Lemma well_formed_send_rows s i :
  well_formed s -> send_in_flight i s.1 -> i = 1 \/ i = ROWS.
Proof.
  intros (_ & _ & Hr) [h Hh]. specialize (Hr h). rewrite Hh in Hr.
  destruct h; simpl in Hr.
  - destruct Hr as [?|(? & ? & ?)]; discriminate.
  - destruct Hr as [?|E]; [discriminate|]. inversion E. now left.
  - destruct Hr as [?|(? & ? & ?)]; discriminate.
  - destruct Hr as [?|E]; [discriminate|]. inversion E. now right.
Qed.

Lemma thread0_outline_relax P i :
  (P, Relax i) ∈ thread0_outline ->
  (i = 1 /\ P = at_point [TopRecv; TopSend] []) \/
  (i = ROWS /\ P = at_point [BottomRecv; BottomSend; TopRecv; TopSend] first_row_kept).
Proof.
  unfold thread0_outline. rewrite elem_of_app, !elem_of_cons, elem_of_nil.
  intros [H|H].
  - repeat (destruct H as [E|H]; [inversion E; subst; auto|]). destruct H.
  - apply list_elem_of_fmap in H as (c & E & Hc). inversion E; subst.
    apply launch_exchange_ok in Hc. destruct Hc.
Qed.

(** What holds when [Relax i] starts, in any schedule: row 1 is relaxed
    with both top handles free, row ROWS with all four handles free, and
    every other row is an interior one. *)
Lemma relax_visit sched s i s' :
  1 <= ROWS ->
  interleaving (thread0 ROWS my_rank comm_size) interior sched ->
  well_formed s ->
  (Relax i, s') ∈ visits ROWS COLUMNS my_rank sched s ->
  well_formed s' /\
  ((i = 1 /\ top_send s'.1 = MPI_REQUEST_NULL /\ top_recv s'.1 = MPI_REQUEST_NULL) \/
   (i = ROWS /\ forall h, request_of h s'.1 = MPI_REQUEST_NULL) \/
   (2 <= i /\ i + 1 <= ROWS)).
Proof.
  intros Hpos Hi Hwf Hv.
  assert (H0 : at_point [] [] s).
  { split; [exact Hwf|]. split; intros ? H; now apply elem_of_nil in H. }
  destruct thread0_outline_stable as [St0 Sp0].
  rewrite <- thread0_outline_commands in Hi.
  destruct (outline_sound ROWS COLUMNS my_rank _ _ _ _ Hi (thread0_outline_ok Hpos) St0 Sp0 s H0)
    as [Hvis _].
  destruct (Hvis _ _ Hv) as [(P & Hin & HP)|(Hc & P & Hin & HP)].
  - apply thread0_outline_relax in Hin as [[-> ->]|[-> ->]]; destruct HP as (Hwf' & Hf & _);
      (split; [exact Hwf'|]).
    + left. split; [reflexivity|]. split; [apply (Hf TopSend)|apply (Hf TopRecv)];
        rewrite !elem_of_cons; tauto.
    + right; left. split; [reflexivity|]. intros h. apply Hf.
      destruct h; rewrite !elem_of_cons; tauto.
  - apply thread1_command in Hc as (i' & E & Hi2 & Hi3). inversion E; subst i'.
    split; [|right; right; lia].
    apply elem_of_cons in Hin as [->|Hin]; [apply HP|].
    apply list_elem_of_fmap in Hin as ([P' c'] & -> & Hin).
    apply thread0_outline_point in Hin as (free & rows & E'). simpl in HP.
    rewrite E' in HP. apply HP.
Qed.

(** Whenever a row of [temperature] is about to be rewritten, in any
    schedule, no send that reads this row is in flight. *)
Lemma relax_not_in_flight sched s i s' :
  2 <= ROWS ->
  interleaving (thread0 ROWS my_rank comm_size) interior sched ->
  well_formed s ->
  (Relax i, s') ∈ visits ROWS COLUMNS my_rank sched s ->
  (i = 1 -> top_send s'.1 = MPI_REQUEST_NULL) /\
  (i = ROWS -> bottom_send s'.1 = MPI_REQUEST_NULL) /\
  ~ send_in_flight i s'.1.
Proof.
  intros Hrows Hi Hwf Hv.
  destruct (relax_visit sched s i s') as (Hwf' & Hcases); [lia|assumption..|].
  destruct Hcases as [(-> & Hts & _)|[(-> & Hall)|Hint]].
  - split; [auto|]. split; [lia|].
    intros Hfl. destruct Hfl as [h Hh]. destruct Hwf' as (_ & _ & Hr).
    specialize (Hr h). rewrite Hh in Hr. destruct h; simpl in Hr, Hh.
    + destruct Hr as [?|(? & ? & ?)]; discriminate.
    + congruence.
    + destruct Hr as [?|(? & ? & ?)]; discriminate.
    + destruct Hr as [?|E]; [discriminate|]. inversion E. lia.
  - split; [intros _; apply (Hall TopSend)|]. split; [intros _; apply (Hall BottomSend)|].
    intros [h Hh]. rewrite Hall in Hh. discriminate.
  - split; [lia|]. split; [lia|].
    intros Hfl. destruct (well_formed_send_rows _ _ Hwf' Hfl); lia.
Qed.

(** Some handle holds a receive into row [i] of [temperature_last]. *)
Definition receive_in_flight (i : nat) (p : process) : Prop :=
  exists h source tag, request_of h p = Receiving source tag i.

(** Whenever a row is about to be relaxed, in any schedule, none of the
    three rows of [temperature_last] it reads is the buffer of a receive in
    flight: when the data of a receive arrives is not observable. *)
Lemma relax_reads_no_pending_halo sched s i s' k :
  2 <= ROWS ->
  interleaving (thread0 ROWS my_rank comm_size) interior sched ->
  well_formed s ->
  (Relax i, s') ∈ visits ROWS COLUMNS my_rank sched s ->
  i - 1 <= k <= i + 1 ->
  ~ receive_in_flight k s'.1.
Proof.
  intros Hrows Hi Hwf Hv Hk (h & source & tag & Hh).
  destruct (relax_visit sched s i s') as (Hwf' & Hcases); [lia|assumption..|].
  destruct Hwf' as (_ & _ & Hr). specialize (Hr h). rewrite Hh in Hr.
  destruct Hcases as [(-> & Hts & Htr)|[(-> & Hall)|Hint]].
  - destruct h; simpl in Hr, Hh.
    + congruence.
    + destruct Hr; discriminate.
    + destruct Hr as [?|(? & ? & E)]; [discriminate|]. inversion E. lia.
    + destruct Hr; discriminate.
  - rewrite Hall in Hh. discriminate.
  - destruct h; simpl in Hr.
    + destruct Hr as [?|(? & ? & E)]; [discriminate|]. inversion E. lia.
    + destruct Hr; discriminate.
    + destruct Hr as [?|(? & ? & E)]; [discriminate|]. inversion E. lia.
    + destruct Hr; discriminate.
Qed.

(** *** The first iteration *)










(** *** Where the transfers are launched *)

Definition is_launch (c : command) : bool :=
  match c with
  | MPI_Irecv _ _ _ _ | MPI_Isend _ _ _ _ => true
  | _ => false
  end.

(** The four transfers of lines 130-155, each with its guard, peer, tag,
    buffer row and handle. *)
Definition launch_exact (c : command) : Prop :=
  match c with
  | MPI_Irecv row source tag h =>
      ((my_rank <> 0)%Z /\ h = TopRecv /\ row = 0 /\ source = (my_rank - 1)%Z /\ tag = 0%Z) \/
      (my_rank <> (comm_size - 1)%Z /\ h = BottomRecv /\ row = ROWS + 1 /\
       source = (my_rank + 1)%Z /\ tag = 1%Z)
  | MPI_Isend row dest tag h =>
      ((my_rank <> 0)%Z /\ h = TopSend /\ row = 1 /\ dest = (my_rank - 1)%Z /\ tag = 1%Z) \/
      (my_rank <> (comm_size - 1)%Z /\ h = BottomSend /\ row = ROWS /\
       dest = (my_rank + 1)%Z /\ tag = 0%Z)
  | _ => False
  end.

Lemma launch_exchange_exact c :
  c ∈ launch_exchange ROWS my_rank comm_size -> launch_exact c.
Proof.
  unfold launch_exchange.
  destruct (Z.eqb_spec my_rank 0) as [E0|E0], (Z.eqb_spec my_rank (comm_size - 1)) as [E1|E1];
    simpl; rewrite ?elem_of_cons, elem_of_nil; intros H;
    repeat (destruct H as [->|H]; [simpl; tauto|]); destruct H.
Qed.

Lemma schedule_launch sched c :
  interleaving (thread0 ROWS my_rank comm_size) interior sched ->
  c ∈ sched ++ closing -> is_launch c = true ->
  c ∈ sched /\ c ∈ launch_exchange ROWS my_rank comm_size.
Proof.
  intros Hi Hc Hl. apply elem_of_app in Hc as [Hc|Hc].
  - split; [exact Hc|]. apply (interleaving_elem_of _ _ _ _ Hi) in Hc as [Hc|Hc].
    + unfold thread0 in Hc. apply elem_of_app in Hc as [Hc|Hc]; [|exact Hc].
      unfold boundary_rows in Hc. rewrite !elem_of_cons, elem_of_nil in Hc.
      repeat (destruct Hc as [->|Hc]; [discriminate|]). destruct Hc.
    + apply thread1_command in Hc as (i & -> & _). discriminate.
  - unfold closing in Hc. rewrite !elem_of_cons, elem_of_nil in Hc.
    repeat (destruct Hc as [->|Hc]; [discriminate|]). destruct Hc.
Qed.

Lemma precedes_skip {A : Type} (l k : list A) x y :
  x ∉ l -> precedes (l ++ k) x y -> precedes k x y.
Proof.
  induction l as [|z l IH]; intros Hx Hp; [exact Hp|].
  simpl in Hp. apply precedes_inv in Hp as [[-> _]|Hp].
  - exfalso. apply Hx. apply elem_of_cons. now left.
  - apply IH; [|exact Hp]. intros H. apply Hx. apply elem_of_cons. now right.
Qed.

Lemma delta_pass_not_scheduled sched :
  interleaving (thread0 ROWS my_rank comm_size) interior sched -> DeltaPass ∉ sched.
Proof.
  intros Hi Hc. apply (interleaving_elem_of _ _ _ _ Hi) in Hc as [Hc|Hc].
  - destruct (thread0_command _ Hc) as [[h E]|[E|[E|Hl]]]; try discriminate. destruct Hl.
  - apply thread1_command in Hc as (i & E & _). discriminate.
Qed.

(** In every schedule of an iteration each launch comes after both
    boundary rows have been written and before the delta pass, never after
    it. *)
Lemma launch_position sched c :
  interleaving (thread0 ROWS my_rank comm_size) interior sched ->
  c ∈ sched ++ closing -> is_launch c = true ->
  precedes (sched ++ closing) (Relax 1) c /\
  precedes (sched ++ closing) (Relax ROWS) c /\
  precedes (sched ++ closing) c Barrier /\
  precedes (sched ++ closing) c DeltaPass /\
  ~ precedes (sched ++ closing) DeltaPass c.
Proof.
  intros Hi Hc Hl. destruct (schedule_launch sched c Hi Hc Hl) as [Hs Hle].
  assert (Hb : forall b, b ∈ boundary_rows ROWS -> precedes (sched ++ closing) b c).
  { intros b Hb. apply precedes_app_l. apply (interleaving_precedes _ _ _ _ _ Hi).
    unfold thread0. now apply precedes_app_r. }
  split; [apply Hb; unfold boundary_rows; rewrite !elem_of_cons; tauto|].
  split; [apply Hb; unfold boundary_rows; rewrite !elem_of_cons; tauto|].
  split; [apply precedes_app_r; [exact Hs|unfold closing; rewrite !elem_of_cons; tauto]|].
  split; [apply precedes_app_r; [exact Hs|unfold closing; rewrite !elem_of_cons; tauto]|].
  intros Hp. apply precedes_skip in Hp; [|now apply delta_pass_not_scheduled].
  unfold closing in Hp.
  apply precedes_inv in Hp as [[E _]|Hp]; [discriminate|].
  apply precedes_inv in Hp as [[E _]|Hp]; [discriminate|].
  apply precedes_inv in Hp as [[_ Hin]|Hp]; [now apply elem_of_nil in Hin|].
  destruct Hp as (a & b & d & E). now destruct a.
Qed.

Lemma run_app l k x :
  run ROWS COLUMNS my_rank (l ++ k) x =
  run ROWS COLUMNS my_rank l x ≫= run ROWS COLUMNS my_rank k.
Proof.
  revert x. induction l as [|c l IH]; intros x; simpl; [reflexivity|].
  destruct (step c x); simpl; [apply IH|reflexivity].
Qed.

Lemma well_formed_wait h s s' :
  well_formed s -> step (MPI_Wait h) s = Some s' -> well_formed s'.
Proof.
  intros Hwf H.
  assert (H0 : at_point [] [] s).
  { split; [exact Hwf|]. split; intros ? Hin; now apply elem_of_nil in Hin. }
  assert (Ht : hoare (at_point [] []) (MPI_Wait h) (at_point [h] [])).
  { apply hoare_wait; intros _ i Hin; now apply elem_of_nil in Hin. }
  apply (Ht s s' H0 H).
Qed.

Lemma run_preserves (I : assertion) cs s s' :
  (forall c, c ∈ cs -> hoare I c I) -> I s ->
  run ROWS COLUMNS my_rank cs s = Some s' -> I s'.
Proof.
  revert s. induction cs as [|c cs IH]; intros s Hc Hs Hrun; simpl in Hrun.
  - now inversion Hrun; subst.
  - destruct (step c s) as [s1|] eqn:E; [|discriminate]. simpl in Hrun.
    apply (IH s1); [|eapply Hc; eauto; apply elem_of_cons; now left|exact Hrun].
    intros c' Hc'. apply Hc. apply elem_of_cons. now right.
Qed.

(** During the compute phase the local rows of [temperature_last] are
    not written: only cells [1..COLUMNS] of the two halo rows can change,
    by a completed receive. *)
Lemma compute_phase_last sched s s' :
  interleaving (thread0 ROWS my_rank comm_size) interior sched ->
  well_formed s ->
  run ROWS COLUMNS my_rank sched s = Some s' ->
  forall i j, 1 <= i <= ROWS ->
    cell (temperature_last s'.1) i j = cell (temperature_last s.1) i j.
Proof.
  intros Hi Hwf Hrun.
  pose (I := fun x : process * network =>
    well_formed x /\
    forall i j, 1 <= i <= ROWS ->
      cell (temperature_last x.1) i j = cell (temperature_last s.1) i j).
  assert (HI : I s') ; [|apply HI].
  apply (run_preserves I sched s s'); [|split; [exact Hwf|reflexivity]|exact Hrun].
  intros c Hc x x' [Hx Hcells] Hex.
  apply (interleaving_elem_of _ _ _ _ Hi) in Hc as [Hc|Hc].
  - destruct (thread0_command c Hc) as [[h ->]|[->|[->|Hl]]].
    + destruct (exec_wait h x x' Hx Hex) as (_ & _ & _ & _ & Hw & _).
      split; [now apply (well_formed_wait h x x')|].
      intros i j Hr. rewrite Hw by (intros _; lia). now apply Hcells.
    + destruct (exec_relax 1 x x' Hx) as (Hx' & Hl & _); [lia|exact Hex|].
      split; [exact Hx'|]. intros i j Hr. rewrite Hl. now apply Hcells.
    + destruct (exec_relax ROWS x x' Hx) as (Hx' & Hl & _); [lia|exact Hex|].
      split; [exact Hx'|]. intros i j Hr. rewrite Hl. now apply Hcells.
    + destruct (exec_launch c x x' Hx Hl Hex) as (Hx' & _ & Hl').
      split; [exact Hx'|]. intros i j Hr. rewrite Hl'. now apply Hcells.
  - apply thread1_command in Hc as (k & -> & Hk).
    destruct (exec_relax k x x' Hx) as (Hx' & Hl & _); [lia|exact Hex|].
    split; [exact Hx'|]. intros i j Hr. rewrite Hl. now apply Hcells.
Qed.





End Iteration.

(** One iteration, in any schedule, keeps the process well formed. *)
Lemma iteration_well_formed (ROWS COLUMNS : nat) (my_rank comm_size : Z) cs s s' :
  1 <= ROWS ->
  iteration_schedule ROWS my_rank comm_size cs ->
  well_formed ROWS COLUMNS s -> run ROWS COLUMNS my_rank cs s = Some s' ->
  well_formed ROWS COLUMNS s'.
Proof.
  intros Hpos (sched & (order & Hord & Hi) & ->) Hwf Hrun.
  rewrite run_app in Hrun.
  destruct (run ROWS COLUMNS my_rank sched s) as [s1|] eqn:E1; [|discriminate]. simpl in Hrun.
  destruct (compute_phase_relaxed ROWS COLUMNS my_rank comm_size order Hord sched s s1
              Hpos Hi Hwf E1) as [Hwf1 _].
  now apply (well_formed_closing ROWS COLUMNS my_rank s1 s' Hwf1 Hrun).
Qed.

(** ** The schedule does not matter

    The statements of thread 0 and the interior row updates commute: the
    rows written are distinct, the interior rows read rows 1..ROWS of
    [temperature_last] only, a completed receive writes a halo row and a
    send reads a boundary row. So every schedule of the compute phase ends
    in the state of the schedule in which thread 0 runs first and the
    interior rows follow in the order of the loop. *)

Section Determinism.

Variables ROWS COLUMNS : nat.
Variable my_rank : Z.

Local Abbreviation exec1 := (exec ROWS COLUMNS my_rank).
Local Abbreviation run1 := (run ROWS COLUMNS my_rank).

(** The row update as one update of row [i]. *)
Lemma relax_row_alter last i t :
  relax_row COLUMNS last i t =
  alter (fun row => foldl (fun r j => <[j := stencil last i j]> r) row (seq 1 COLUMNS)) i t.
Proof.
  unfold relax_row. generalize (seq 1 COLUMNS) as js. intros js. revert t.
  induction js as [|j js IH]; intros t; simpl.
  - symmetry. apply list_eq. intros k. destruct (decide (i = k)) as [<-|Hne].
    + rewrite list_lookup_alter_eq. now destruct (t !! i).
    + now rewrite list_lookup_alter_ne.
  - rewrite IH. unfold store. now rewrite list_alter_alter_eq.
Qed.

Lemma relax_row_commute last last' i k t :
  i <> k ->
  relax_row COLUMNS last i (relax_row COLUMNS last' k t) =
  relax_row COLUMNS last' k (relax_row COLUMNS last i t).
Proof. intros H. rewrite !relax_row_alter. now apply list_alter_alter_ne. Qed.

Lemma row_payload_relax last i t row :
  i <> row -> row_payload COLUMNS (relax_row COLUMNS last i t) row = row_payload COLUMNS t row.
Proof.
  intros H. unfold row_payload. apply map_ext. intros j.
  unfold cell. now rewrite relax_row_alter, list_lookup_alter_ne.
Qed.

(** A completed receive into a halo row does not change what the update
    of an interior row reads. *)
Lemma relax_row_halo last row payload i t :
  2 <= i -> i + 1 <= ROWS -> row = 0 \/ row = ROWS + 1 ->
  relax_row COLUMNS (store_payload last row payload) i t = relax_row COLUMNS last i t.
Proof.
  intros H2 Hi Hrow. apply relax_row_ext. intros j _. apply stencil_ext.
  intros i' j' Hi'. unfold store_payload. apply cell_store_from_other. lia.
Qed.

(** The statements of thread 0. *)
Definition boundary_command (c : command) : Prop :=
  (exists h, c = MPI_Wait h) \/ c = Relax 1 \/ c = Relax ROWS \/ launch_ok ROWS c.

Lemma boundary_command_well_formed c s s' :
  boundary_command c -> well_formed ROWS COLUMNS s -> exec1 c s = Some s' ->
  well_formed ROWS COLUMNS s'.
Proof.
  intros [[h ->]|[->|[->|Hl]]] Hwf H.
  - now apply (well_formed_wait ROWS COLUMNS my_rank h s).
  - apply (exec_relax ROWS COLUMNS my_rank 1 s s' Hwf); [lia|exact H].
  - apply (exec_relax ROWS COLUMNS my_rank ROWS s s' Hwf); [lia|exact H].
  - now apply (exec_launch ROWS COLUMNS my_rank c s s' Hwf Hl).
Qed.

(** An interior row update commutes with every statement of thread 0. *)
Lemma relax_commutes c i s :
  boundary_command c -> 2 <= i -> i + 1 <= ROWS -> well_formed ROWS COLUMNS s ->
  exec1 c s ≫= exec1 (Relax i) = exec1 (Relax i) s ≫= exec1 c.
Proof.
  intros Hc H2 Hi (_ & _ & Hreq). destruct s as [p net].
  destruct Hc as [[h ->]|[->|[->|Hl]]].
  - specialize (Hreq h). unfold exec. simpl in *.
    assert (E : request_of h (set_temperature
                  (relax_row COLUMNS (temperature_last p) i (temperature p)) p)
                = request_of h p) by now destruct h.
    rewrite E. destruct (request_of h p) as [|row|source tag row] eqn:Eh; simpl.
    + reflexivity.
    + now destruct h.
    + assert (Hrow : row = 0 \/ row = ROWS + 1).
      { destruct h; simpl in Hreq; destruct Hreq as [Hn|Hx]; try discriminate;
          try (destruct Hx as (? & ? & Hx); inversion Hx; subst; lia). }
      destruct (channel net (source, my_rank, tag)) as [|payload rest]; simpl; [reflexivity|].
      f_equal. f_equal.
      destruct h; simpl; now rewrite (relax_row_halo _ _ _ _ _ H2 Hi Hrow).
  - unfold exec. simpl. f_equal. f_equal. unfold set_temperature. simpl.
    f_equal. apply relax_row_commute. lia.
  - unfold exec. simpl. f_equal. f_equal. unfold set_temperature. simpl.
    f_equal. apply relax_row_commute. lia.
  - destruct c as [h|k|row source tag h|row dest tag h| | |]; simpl in Hl; try contradiction.
    + unfold exec. simpl. f_equal. f_equal. now destruct h.
    + unfold exec. simpl. f_equal.
      assert (Hne : i <> row) by (destruct Hl as [[_ ->]|[_ ->]]; lia).
      rewrite temperature_set_request. simpl.
      rewrite (row_payload_relax _ _ _ _ Hne). f_equal. now destruct h.
Qed.

(** Two row updates commute. *)
Lemma relax_relax_commutes i k s :
  exec1 (Relax i) s ≫= exec1 (Relax k) = exec1 (Relax k) s ≫= exec1 (Relax i).
Proof.
  destruct (decide (i = k)) as [->|Hne]; [reflexivity|].
  destruct s as [p net]. unfold exec. simpl. f_equal. f_equal.
  unfold set_temperature. simpl. f_equal. symmetry. now apply relax_row_commute.
Qed.

(** The interior rows can be taken in any order. *)
Lemma run_interior_order order order' s :
  order ≡ₚ order' -> run1 (interior_task order) s = run1 (interior_task order') s.
Proof.
  intros H. revert s. induction H as [|x l l' _ IH|x y l|l l' l'' _ IH1 _ IH2]; intros s.
  - reflexivity.
  - simpl. apply IH.
  - pose proof (relax_relax_commutes y x s) as E. unfold interior_task. simpl in *.
    congruence.
  - now rewrite IH1.
Qed.

(** An interior row update can be moved in front of statements of
    thread 0. *)
Lemma run_relax_first l0 l1 i s :
  Forall boundary_command l0 -> 2 <= i -> i + 1 <= ROWS -> well_formed ROWS COLUMNS s ->
  run1 (l0 ++ Relax i :: l1) s = exec1 (Relax i) s ≫= run1 (l0 ++ l1).
Proof.
  intros Hl0 H2 Hi. revert s. induction Hl0 as [|c l0 Hc _ IH]; intros s Hwf; [reflexivity|].
  pose proof (relax_commutes c i s Hc H2 Hi Hwf) as E.
  rewrite <- !app_comm_cons.
  change (run1 (c :: l0 ++ Relax i :: l1) s) with (exec1 c s ≫= run1 (l0 ++ Relax i :: l1)).
  destruct (exec1 (Relax i) s) as [s2|] eqn:E2; [|discriminate E2].
  cbn [mbind option_bind] in E |- *.
  change (run1 (c :: l0 ++ l1) s2) with (exec1 c s2 ≫= run1 (l0 ++ l1)).
  destruct (exec1 c s) as [s1|] eqn:E1; cbn [mbind option_bind] in E |- *.
  - rewrite IH by (now apply (boundary_command_well_formed c s s1)). now rewrite E.
  - now rewrite <- E.
Qed.

Lemma run_interleaving l0 l1 sched s :
  interleaving l0 l1 sched ->
  Forall boundary_command l0 ->
  Forall (fun c => exists i, c = Relax i /\ 2 <= i /\ i + 1 <= ROWS) l1 ->
  well_formed ROWS COLUMNS s ->
  run1 sched s = run1 (l0 ++ l1) s.
Proof.
  intros H. revert s. induction H as [|a l0 l1 l _ IH|b l0 l1 l _ IH]; intros s H0 H1 Hwf.
  - reflexivity.
  - apply Forall_cons in H0 as [Ha H0]. simpl.
    destruct (exec1 a s) as [s1|] eqn:E; simpl; [|reflexivity].
    apply IH; [exact H0|exact H1|]. now apply (boundary_command_well_formed a s s1).
  - apply Forall_cons in H1 as [(i & -> & H2 & Hi) H1].
    rewrite (run_relax_first l0 l1 i s H0 H2 Hi Hwf).
    change (run1 (Relax i :: l) s) with (exec1 (Relax i) s ≫= run1 l).
    destruct (exec1 (Relax i) s) as [s1|] eqn:E; cbn [mbind option_bind]; [|reflexivity].
    apply IH; [exact H0|exact H1|].
    apply (exec_relax ROWS COLUMNS my_rank i s s1 Hwf); [lia|exact E].
Qed.

(** Every schedule of the two branches, from a well-formed state, gives
    the result of thread 0 followed by the interior rows in the order of the
    loop, and blocks if and only if that one does. *)
Lemma compute_schedule_deterministic (comm_size : Z) sched s :
  compute_schedule ROWS my_rank comm_size sched ->
  well_formed ROWS COLUMNS s ->
  run1 sched s = run1 (thread0 ROWS my_rank comm_size ++ thread1 ROWS) s.
Proof.
  intros (order & Hord & Hi) Hwf.
  rewrite (run_interleaving _ _ _ s Hi); [| | |exact Hwf].
  - rewrite !run_app. destruct (run1 (thread0 ROWS my_rank comm_size) s); simpl; [|reflexivity].
    now apply run_interior_order.
  - apply Forall_forall. intros c Hc. now apply (thread0_command ROWS my_rank comm_size).
  - apply Forall_forall. intros c Hc.
    now apply (thread1_command ROWS order Hord).
Qed.

(** So does every schedule of a whole iteration. *)
Lemma iteration_schedule_deterministic (comm_size : Z) cs s :
  iteration_schedule ROWS my_rank comm_size cs ->
  well_formed ROWS COLUMNS s ->
  run1 cs s = run1 (sequential_schedule ROWS my_rank comm_size) s.
Proof.
  intros (sched & Hs & ->) Hwf. unfold sequential_schedule.
  rewrite app_assoc, !(run_app ROWS COLUMNS my_rank _ closing).
  now rewrite (compute_schedule_deterministic comm_size sched s Hs Hwf).
Qed.

(** [dt = 0.0] is under [omp single nowait]: the thread that reaches it
    first runs it, possibly while the other one is still in its branch. No
    statement of the branches reads or writes [dt], so wherever it falls
    among them the iteration is the one of [closing], where it is placed
    right before the barrier. *)
Definition compute_command (c : command) : Prop :=
  match c with
  | MPI_Wait _ | Relax _ | MPI_Irecv _ _ _ _ | MPI_Isend _ _ _ _ => True
  | _ => False
  end.

Lemma reset_dt_commutes c s :
  compute_command c ->
  exec1 ResetDt s ≫= exec1 c = exec1 c s ≫= exec1 ResetDt.
Proof.
  destruct s as [p net].
  destruct c as [h|i|row source tag h|row dest tag h| | |]; intros Hc; try contradiction;
    unfold exec; simpl.
  - assert (E : request_of h (set_dt 0 p) = request_of h p) by now destruct h.
    rewrite E. destruct (request_of h p) as [|row|source tag row]; simpl.
    + reflexivity.
    + now destruct h.
    + destruct (channel net (source, my_rank, tag)); simpl; [reflexivity|]. now destruct h.
  - reflexivity.
  - now destruct h.
  - now destruct h.
Qed.

Lemma run_reset_dt_later l k s :
  Forall compute_command l ->
  run1 (ResetDt :: l ++ k) s = run1 (l ++ ResetDt :: k) s.
Proof.
  intros Hl. revert s. induction Hl as [|c l Hc _ IH]; intros s; [reflexivity|].
  rewrite <- !app_comm_cons.
  change (run1 (ResetDt :: c :: l ++ k) s)
    with (exec1 ResetDt s ≫= (fun s1 => exec1 c s1 ≫= run1 (l ++ k))).
  change (run1 (c :: l ++ ResetDt :: k) s) with (exec1 c s ≫= run1 (l ++ ResetDt :: k)).
  pose proof (reset_dt_commutes c s Hc) as E.
  destruct (exec1 ResetDt s) as [s0|] eqn:E0; [|discriminate E0].
  cbn [mbind option_bind] in E |- *.
  destruct (exec1 c s) as [s1|] eqn:E1; cbn [mbind option_bind] in E |- *.
  - rewrite <- IH.
    change (run1 (ResetDt :: l ++ k) s1) with (exec1 ResetDt s1 ≫= run1 (l ++ k)).
    now rewrite <- E.
  - now rewrite E.
Qed.

Lemma compute_schedule_commands (comm_size : Z) sched :
  compute_schedule ROWS my_rank comm_size sched -> Forall compute_command sched.
Proof.
  intros (order & Hord & Hi). apply Forall_forall. intros c Hc.
  apply (interleaving_elem_of _ _ _ c Hi) in Hc as [Hc|Hc].
  - apply (thread0_command ROWS my_rank comm_size) in Hc as [[h ->]|[->|[->|Hl]]];
      try exact I. now destruct c.
  - apply (thread1_command ROWS order Hord) in Hc as (i & -> & _). exact I.
Qed.

(** Wherever [dt = 0.0] falls in a schedule of the two branches, the
    iteration ends as with [dt = 0.0] right before the barrier. *)
Lemma reset_dt_anywhere (comm_size : Z) before after s :
  compute_schedule ROWS my_rank comm_size (before ++ after) ->
  run1 (before ++ ResetDt :: after ++ [Barrier; DeltaPass]) s =
  run1 ((before ++ after) ++ closing) s.
Proof.
  intros Hs. apply compute_schedule_commands, Forall_app in Hs as [_ Ha].
  rewrite <- app_assoc, !(run_app ROWS COLUMNS my_rank before).
  destruct (run1 before s) as [s1|]; cbn [mbind option_bind]; [|reflexivity].
  apply (run_reset_dt_later after [Barrier; DeltaPass] s1 Ha).
Qed.

End Determinism.

(** ** The send buffers between the launch and the wait

    [exec] hands the row to the network at [MPI_Isend]; MPI is free to read
    the buffer at any time until the wait on the send returns. With at
    least two rows per rank this makes no difference: when the wait on a
    send starts, in any schedule, the row it sends is still what it was at
    the start of the iteration. *)

Section SendBuffer.

Variables ROWS COLUMNS : nat.
Variables my_rank comm_size : Z.
Variable order : list nat.
Hypothesis order_ok : order ≡ₚ interior_rows ROWS.

Lemma wait_temperature h s s' :
  exec ROWS COLUMNS my_rank (MPI_Wait h) s = Some s' -> temperature s'.1 = temperature s.1.
Proof.
  destruct s as [p net]. unfold exec. simpl.
  destruct (request_of h p) as [|row|source tag row].
  - intros H. now inversion H.
  - intros H. inversion H; subst. apply temperature_set_request.
  - destruct (channel net (source, my_rank, tag)); [discriminate|].
    intros H. inversion H; subst. simpl. now rewrite temperature_set_request.
Qed.

Lemma relax_other_row i s s' i' j :
  exec ROWS COLUMNS my_rank (Relax i) s = Some s' -> i' <> i ->
  cell (temperature s'.1) i' j = cell (temperature s.1) i' j.
Proof.
  destruct s as [p net]. unfold exec. simpl. intros H Hne. inversion H; subst. simpl.
  unfold cell. now rewrite relax_row_alter, list_lookup_alter_ne by congruence.
Qed.

(** The rows of [rows] of [temperature] are those of [s0]. *)
Definition rows_kept (s0 : process * network) (rows : list nat) : assertion :=
  fun s => forall i j, i ∈ rows -> cell (temperature s.1) i j = cell (temperature s0.1) i j.

Definition buffer_outline (s0 : process * network) : list (assertion * command) :=
  [ (rows_kept s0 [1; ROWS], MPI_Wait TopSend);
    (rows_kept s0 [1; ROWS], MPI_Wait TopRecv);
    (rows_kept s0 [1; ROWS], Relax 1);
    (rows_kept s0 [ROWS], MPI_Wait BottomSend);
    (rows_kept s0 [ROWS], MPI_Wait BottomRecv);
    (rows_kept s0 [ROWS], Relax ROWS) ] ++
  (pair (fun _ => True) <$> launch_exchange ROWS my_rank comm_size).

Lemma buffer_outline_commands s0 : (buffer_outline s0).*2 = thread0 ROWS my_rank comm_size.
Proof.
  unfold buffer_outline, thread0, boundary_rows. rewrite fmap_app. simpl. do 6 f_equal.
  rewrite <- list_fmap_compose. apply list_fmap_id.
Qed.

Lemma triple_wait_kept s0 rows h :
  triple ROWS COLUMNS my_rank (rows_kept s0 rows) (MPI_Wait h) (rows_kept s0 rows).
Proof.
  intros s s' Hs H i j Hi. rewrite (wait_temperature h s s' H). now apply Hs.
Qed.

Lemma triple_relax_kept s0 rows rows' i :
  (forall k, k ∈ rows' -> k ∈ rows /\ k <> i) ->
  triple ROWS COLUMNS my_rank (rows_kept s0 rows) (Relax i) (rows_kept s0 rows').
Proof.
  intros Hsub s s' Hs H k j Hk. destruct (Hsub k Hk) as [Hin Hne].
  rewrite (relax_other_row i s s' k j H Hne). now apply Hs.
Qed.

Lemma buffer_outline_ok s0 :
  2 <= ROWS -> outline ROWS COLUMNS my_rank (buffer_outline s0) (fun _ => True).
Proof.
  intros Hrows. unfold buffer_outline. simpl.
  split; [apply triple_wait_kept|]. split; [apply triple_wait_kept|].
  split.
  { apply triple_relax_kept. intros k Hk. apply list_elem_of_singleton in Hk. subst k.
    split; [rewrite !elem_of_cons; tauto|lia]. }
  split; [apply triple_wait_kept|]. split; [apply triple_wait_kept|].
  split; [intros s s' _ _; now destruct (launch_exchange ROWS my_rank comm_size)|].
  apply outline_const. intros c _ s s' _ _. exact I.
Qed.

Lemma buffer_outline_stable s0 :
  Forall (fun a => stable ROWS COLUMNS my_rank (interior_task order) a.1) (buffer_outline s0).
Proof.
  assert (H : forall rows, (forall k, k ∈ rows -> k = 1 \/ k = ROWS) ->
            stable ROWS COLUMNS my_rank (interior_task order) (rows_kept s0 rows)).
  { intros rows Hr b Hb. apply (thread1_command ROWS order order_ok) in Hb as (i & -> & Hi).
    apply triple_relax_kept. intros k Hk. split; [exact Hk|]. destruct (Hr k Hk); lia. }
  unfold buffer_outline.
  repeat (apply Forall_cons; split;
          [apply H; intros k Hk; rewrite !elem_of_cons, elem_of_nil in Hk; tauto|]).
  apply Forall_forall. intros [P c] Hin. apply list_elem_of_fmap in Hin as (c' & E & _).
  inversion E; subst. intros b _ s s' _ _. exact I.
Qed.

(** When the wait on a pending send starts, the row it sends has not been
    written since the start of the iteration. *)
Lemma send_buffer_kept sched s h row s' :
  2 <= ROWS ->
  interleaving (thread0 ROWS my_rank comm_size) (interior_task order) sched ->
  well_formed ROWS COLUMNS s ->
  request_of h s.1 = Sending row ->
  (MPI_Wait h, s') ∈ visits ROWS COLUMNS my_rank sched s ->
  forall j, cell (temperature s'.1) row j = cell (temperature s.1) row j.
Proof.
  intros Hrows Hi (_ & _ & Hreq) Hh Hv.
  rewrite <- (buffer_outline_commands s) in Hi.
  assert (Hpre : pre_of (buffer_outline s) (fun _ => True) s) by (intros i j _; reflexivity).
  assert (HQ : stable ROWS COLUMNS my_rank (interior_task order) (fun _ => True)).
  { intros b _ x x' _ _. exact I. }
  destruct (outline_sound ROWS COLUMNS my_rank _ _ _ _ Hi (buffer_outline_ok s Hrows)
              (buffer_outline_stable s) HQ s Hpre) as [Hvis _].
  specialize (Hreq h). rewrite Hh in Hreq.
  destruct (Hvis _ _ Hv) as [(P & Hin & HP)|(Hc & _)].
  - unfold buffer_outline in Hin. apply elem_of_app in Hin as [Hin|Hin].
    + rewrite !elem_of_cons, elem_of_nil in Hin. intros j.
      destruct Hin as [E|[E|[E|[E|[E|[E|[]]]]]]]; inversion E; subst; simpl in Hreq.
      * destruct Hreq as [?|E']; [discriminate|]. inversion E'; subst. apply HP.
        rewrite !elem_of_cons. tauto.
      * destruct Hreq as [?|(? & ? & ?)]; discriminate.
      * destruct Hreq as [?|E']; [discriminate|]. inversion E'; subst. apply HP.
        rewrite !elem_of_cons. tauto.
      * destruct Hreq as [?|(? & ? & ?)]; discriminate.
    + apply list_elem_of_fmap in Hin as (c' & E & Hc'). inversion E; subst.
      apply launch_exchange_ok in Hc'. destruct Hc'.
  - apply (thread1_command ROWS order order_ok) in Hc as (i & E & _). discriminate.
Qed.

End SendBuffer.

(** ** A team of one thread

    What the compute phase does when the parallel region gets a single
    thread. *)

Section Team.

Variables ROWS COLUMNS : nat.
Variables my_rank comm_size : Z.

(** Thread 0 alone relaxes rows 1 and ROWS, keeps the local rows of
    [temperature_last] and leaves every other row of [temperature] as it
    was. *)
Lemma thread0_alone s s' :
  1 <= ROWS ->
  well_formed ROWS COLUMNS s ->
  run ROWS COLUMNS my_rank (thread0 ROWS my_rank comm_size) s = Some s' ->
  row_relaxed COLUMNS 1 s' /\ row_relaxed COLUMNS ROWS s' /\
  (forall i j, 1 <= i <= ROWS ->
     cell (temperature_last s'.1) i j = cell (temperature_last s.1) i j) /\
  (forall i j, i <> 1 -> i <> ROWS ->
     cell (temperature s'.1) i j = cell (temperature s.1) i j).
Proof.
  intros Hpos Hwf Hrun.
  assert (Hi : interleaving (thread0_outline ROWS COLUMNS my_rank comm_size).*2 []
                 (thread0 ROWS my_rank comm_size)).
  { rewrite thread0_outline_commands.
    rewrite <- (app_nil_r (thread0 ROWS my_rank comm_size)) at 2.
    apply interleaving_sequential. }
  assert (H0 : at_point ROWS COLUMNS [] [] s).
  { split; [exact Hwf|]. split; intros ? H; now apply elem_of_nil in H. }
  assert (Hst : forall P : assertion, stable ROWS COLUMNS my_rank [] P).
  { intros P b Hb. now apply elem_of_nil in Hb. }
  destruct (outline_sound ROWS COLUMNS my_rank _ _ _ _ Hi
              (thread0_outline_ok ROWS COLUMNS my_rank comm_size (interior_rows ROWS)
                 (Permutation_refl _) Hpos)
              (proj2 (Forall_forall _ _) (fun a _ => Hst a.1)) (Hst _) s H0) as [_ Hend].
  destruct (Hend s' Hrun) as (_ & _ & Hb).
  split; [apply Hb; rewrite !elem_of_cons; tauto|].
  split; [apply Hb; rewrite !elem_of_cons; tauto|].
  pose (I := fun x : process * network =>
    well_formed ROWS COLUMNS x /\
    (forall i j, 1 <= i <= ROWS ->
       cell (temperature_last x.1) i j = cell (temperature_last s.1) i j) /\
    (forall i j, i <> 1 -> i <> ROWS ->
       cell (temperature x.1) i j = cell (temperature s.1) i j)).
  assert (HI : I s'); [|destruct HI as (_ & ? & ?); now split].
  apply (run_preserves ROWS COLUMNS my_rank I (thread0 ROWS my_rank comm_size) s s');
    [|split; [exact Hwf|split; reflexivity]|exact Hrun].
  intros c Hc x x' (Hx & Hlast & Hcur) Hex.
  destruct (thread0_command ROWS my_rank comm_size c Hc) as [[h ->]|[->|[->|Hl]]].
  - destruct (exec_wait ROWS COLUMNS my_rank h x x' Hx Hex) as (Ht & _ & _ & _ & Hw & _).
    split; [now apply (well_formed_wait ROWS COLUMNS my_rank h x x')|]. split.
    + intros i j Hr. rewrite Hw by (intros _; lia). now apply Hlast.
    + intros i j H1 H2. rewrite Ht. now apply Hcur.
  - destruct (exec_relax ROWS COLUMNS my_rank 1 x x' Hx) as (Hx' & Hl & _ & _ & Ho);
      [lia|exact Hex|].
    split; [exact Hx'|]. split.
    + intros i j Hr. rewrite Hl. now apply Hlast.
    + intros i j H1 H2. rewrite (Ho i j H1). now apply Hcur.
  - destruct (exec_relax ROWS COLUMNS my_rank ROWS x x' Hx) as (Hx' & Hl & _ & _ & Ho);
      [lia|exact Hex|].
    split; [exact Hx'|]. split.
    + intros i j Hr. rewrite Hl. now apply Hlast.
    + intros i j H1 H2. rewrite (Ho i j H2). now apply Hcur.
  - destruct (exec_launch ROWS COLUMNS my_rank c x x' Hx Hl Hex) as (Hx' & Ht' & Hl').
    split; [exact Hx'|]. split.
    + intros i j Hr. rewrite Hl'. now apply Hlast.
    + intros i j H1 H2. rewrite Ht'. now apply Hcur.
Qed.

End Team.

(** ** All ranks together

    The world is the list of the processes, rank [r] at position [r], and
    the network between them. Ranks proceed in lock step: every iteration
    ends in an all-reduce, which no rank leaves before every rank has
    entered it, so all transfers of an iteration are launched before any
    rank waits for them in the next one. Within a phase the ranks run one
    after the other, rank 0 first, which gives the world of every other
    order of the ranks ([asynchronous_iteration] below); each rank runs
    thread 0 before thread 1, which gives the state of every other schedule
    of its two threads ([iteration_schedule_deterministic]). *)

Section World.

Variables ROWS COLUMNS : nat.

Definition world : Type := list process * network.

(** Rank [r] executes [prog r]. *)
Definition on_rank (prog : Z -> list command) (r : nat) (w : world) : option world :=
  p ← w.1 !! r;
  s ← run ROWS COLUMNS (Z.of_nat r) (prog (Z.of_nat r)) (p, w.2);
  Some (<[r := s.1]> w.1, s.2).

(** Every rank executes its program. *)
Definition on_all (prog : Z -> list command) (w : world) : option world :=
  foldl (fun ow r => ow ≫= on_rank prog r) (Some w) (seq 0 (length w.1)).

(** First half of the iteration of every rank: the waits and the boundary
    rows. *)
Definition wait_phase (w : world) : option world :=
  on_all (fun _ => boundary_rows ROWS) w.

(** Second half: the launches, the interior rows, the closing phase. *)
Definition launch_phase (w : world) : option world :=
  on_all (fun r => launch_exchange ROWS r (Z.of_nat (length w.1)) ++ thread1 ROWS ++ closing) w.

(** The body of the parallel region on every rank. *)
Definition world_iteration (w : world) : option world :=
  wait_phase w ≫= launch_phase.

(** [MPI_Iallreduce(&dt, &dt_global, 1, MPI_DOUBLE, MPI_MAX, ...)] followed
    by its [MPI_Wait]: the maximum of the local [dt] of all ranks. *)
Definition allreduce_max (ds : list float) : float :=
  match ds with
  | [] => 0%float
  | d :: ds => fold_max d ds
  end.

Lemma on_all_invariant (prog : Z -> list command) (J : nat -> world -> Prop) (n : nat) :
  (forall k w, k < n -> J k w -> exists w', on_rank prog k w = Some w' /\ J (S k) w') ->
  forall w, length w.1 = n -> J 0 w ->
  exists w', on_all prog w = Some w' /\ J n w'.
Proof.
  intros Hstep w Hlen H0. unfold on_all. rewrite Hlen.
  assert (G : forall m a w, a + m = n -> J a w ->
            exists w', foldl (fun ow r => ow ≫= on_rank prog r) (Some w) (seq a m) = Some w' /\
                       J n w').
  { induction m as [|m IH]; intros a w1 Ha HJ.
    - exists w1. simpl. split; [reflexivity|]. now replace n with a by lia.
    - simpl. destruct (Hstep a w1) as (w2 & E & HJ2); [lia|exact HJ|].
      rewrite E. apply IH; [lia|exact HJ2]. }
  apply (G n 0 w); [lia|exact H0].
Qed.

(** *** What one rank does in each phase *)

Definition has_top (r : Z) : bool := negb (r =? 0)%Z.
Definition has_bottom (r n : Z) : bool := negb (r =? n - 1)%Z.

(** Every handle is [MPI_REQUEST_NULL]. *)
Definition idle (p : process) : Prop :=
  top_recv p = MPI_REQUEST_NULL /\ top_send p = MPI_REQUEST_NULL /\
  bottom_recv p = MPI_REQUEST_NULL /\ bottom_send p = MPI_REQUEST_NULL.

(** The handles hold exactly the transfers [launch_exchange] starts on rank
    [r] of [n]. *)
Definition engaged (r n : Z) (p : process) : Prop :=
  top_recv p = (if has_top r then Receiving (r - 1) 0 0 else MPI_REQUEST_NULL) /\
  top_send p = (if has_top r then Sending 1 else MPI_REQUEST_NULL) /\
  bottom_recv p = (if has_bottom r n then Receiving (r + 1) 1 (ROWS + 1) else MPI_REQUEST_NULL) /\
  bottom_send p = (if has_bottom r n then Sending ROWS else MPI_REQUEST_NULL).

Definition shapes (p : process) : Prop :=
  local_shape ROWS COLUMNS (temperature p) /\ local_shape ROWS COLUMNS (temperature_last p).

(** The two boundary rows relaxed, with the halo rows as they are. *)
Definition relax_boundary (p : process) : process :=
  set_temperature
    (relax_row COLUMNS (temperature_last p) ROWS
       (relax_row COLUMNS (temperature_last p) 1 (temperature p))) p.

(** The halo rows as received, then the two boundary rows relaxed. *)
Definition receive_and_relax (top bottom : option (list float)) (p : process) : process :=
  let last1 := match top with
               | Some m => store_payload (temperature_last p) 0 m
               | None => temperature_last p
               end in
  let t1 := relax_row COLUMNS last1 1 (temperature p) in
  let last2 := match bottom with
               | Some m => store_payload last1 (ROWS + 1) m
               | None => last1
               end in
  Process (relax_row COLUMNS last2 ROWS t1) last2
          MPI_REQUEST_NULL MPI_REQUEST_NULL MPI_REQUEST_NULL MPI_REQUEST_NULL (dt p).

Lemma channel_insert_eq (net : network) key q : channel (<[key := q]> net) key = q.
Proof. unfold channel. now rewrite lookup_insert_eq. Qed.

Lemma channel_insert_ne (net : network) key key' q :
  key <> key' -> channel (<[key := q]> net) key' = channel net key'.
Proof. intros H. unfold channel. now rewrite lookup_insert_ne. Qed.

Lemma channel_post_eq (net : network) key m : channel (post key m net) key = channel net key ++ [m].
Proof. unfold post. apply channel_insert_eq. Qed.

Lemma channel_post_ne (net : network) key key' m :
  key <> key' -> channel (post key m net) key' = channel net key'.
Proof. unfold post. apply channel_insert_ne. Qed.

Lemma run_boundary_idle r p net :
  idle p ->
  run ROWS COLUMNS r (boundary_rows ROWS) (p, net) = Some (relax_boundary p, net).
Proof.
  intros (H1 & H2 & H3 & H4). unfold boundary_rows, relax_boundary.
  destruct p as [t last tr ts br bs d]. simpl in *. subst tr ts br bs. reflexivity.
Qed.

Lemma run_boundary_engaged r n p net top bottom qt qb :
  engaged r n p ->
  (if has_top r
   then exists m, top = Some m /\ channel net (r - 1, r, 0)%Z = m :: qt
   else top = None) ->
  (if has_bottom r n
   then exists m, bottom = Some m /\ channel net (r + 1, r, 1)%Z = m :: qb
   else bottom = None) ->
  run ROWS COLUMNS r (boundary_rows ROWS) (p, net) =
  Some (receive_and_relax top bottom p,
        (if has_bottom r n then <[(r + 1, r, 1)%Z := qb]> else id)
          ((if has_top r then <[(r - 1, r, 0)%Z := qt]> else id) net)).
Proof.
  intros (H1 & H2 & H3 & H4) Ht Hb. unfold boundary_rows, receive_and_relax.
  destruct p as [t last tr ts br bs d]. simpl in *. subst tr ts br bs.
  destruct (has_top r), (has_bottom r n).
  - destruct Ht as (mt & -> & Ct), Hb as (mb & -> & Cb).
    unfold exec; simpl. rewrite Ct. simpl.
    rewrite channel_insert_ne by congruence. rewrite Cb. reflexivity.
  - destruct Ht as (mt & -> & Ct). subst bottom.
    unfold exec; simpl. rewrite Ct. reflexivity.
  - destruct Hb as (mb & -> & Cb). subst top.
    unfold exec; simpl. rewrite Cb. reflexivity.
  - subst top bottom. reflexivity.
Qed.

(** The interior rows, in the order of the loop. *)
Definition relax_interior (p : process) : process :=
  set_temperature
    (foldl (fun t i => relax_row COLUMNS (temperature_last p) i t)
           (temperature p) (seq 2 (ROWS - 2))) p.

Lemma run_relax_rows r rows p net :
  run ROWS COLUMNS r (Relax <$> rows) (p, net) =
  Some (set_temperature
          (foldl (fun t i => relax_row COLUMNS (temperature_last p) i t) (temperature p) rows) p,
        net).
Proof.
  revert p. induction rows as [|i rows IH]; intros p; simpl.
  - now destruct p.
  - unfold exec. simpl. rewrite IH. reflexivity.
Qed.

(** The local delta pass of a process. *)
Definition local_delta (p : process) : process :=
  let r := delta_pass ROWS COLUMNS (temperature p) (temperature_last p, 0%float) in
  Process (temperature p) r.1 (top_recv p) (top_send p) (bottom_recv p) (bottom_send p) r.2.

(** The transfers rank [r] of [n] starts. *)
Definition launch (r n : Z) (p : process) : process :=
  Process (temperature p) (temperature_last p)
    (if has_top r then Receiving (r - 1) 0 0 else top_recv p)
    (if has_top r then Sending 1 else top_send p)
    (if has_bottom r n then Receiving (r + 1) 1 (ROWS + 1) else bottom_recv p)
    (if has_bottom r n then Sending ROWS else bottom_send p)
    (dt p).

Definition launch_posts (r n : Z) (p : process) (net : network) : network :=
  (if has_bottom r n then post (r, r + 1, 0)%Z (row_payload COLUMNS (temperature p) ROWS) else id)
    ((if has_top r then post (r, r - 1, 1)%Z (row_payload COLUMNS (temperature p) 1) else id) net).

Lemma run_launch_exchange r n p net :
  run ROWS COLUMNS r (launch_exchange ROWS r n) (p, net) =
  Some (launch r n p, launch_posts r n p net).
Proof.
  unfold launch_exchange, launch, launch_posts. fold (has_top r) (has_bottom r n).
  destruct p as [t last tr ts br bs d].
  destruct (has_top r), (has_bottom r n); reflexivity.
Qed.

Lemma run_second_half r n p net :
  run ROWS COLUMNS r (launch_exchange ROWS r n ++ thread1 ROWS ++ closing) (p, net) =
  Some (local_delta (relax_interior (launch r n p)), launch_posts r n p net).
Proof.
  rewrite run_app, run_launch_exchange. cbn [mbind option_bind].
  rewrite run_app. unfold thread1, interior_task, interior_rows.
  rewrite run_relax_rows. cbn [mbind option_bind].
  rewrite run_closing. reflexivity.
Qed.

(** *** The two states of the world at a phase boundary *)

(** Cells [1..COLUMNS] of row [row] of [temperature] on rank [r]. *)
Definition row_of (w : world) (r row : nat) : list float :=
  match w.1 !! r with
  | Some p => row_payload COLUMNS (temperature p) row
  | None => []
  end.

(** Cells [1..COLUMNS] of row [row] of [temperature_last] on rank [r]. *)
Definition halo_of (w : world) (r row : nat) : list float :=
  match w.1 !! r with
  | Some p => row_payload COLUMNS (temperature_last p) row
  | None => []
  end.

(** The channel of the rows flowing downward from rank [r] (tag 0) and
    the channel of the rows flowing upward to rank [r] (tag 1). *)
Definition link_down (r : nat) : Z * Z * Z := (Z.of_nat r, Z.of_nat r + 1, 0)%Z.
Definition link_up (r : nat) : Z * Z * Z := (Z.of_nat r + 1, Z.of_nat r, 1)%Z.

(** Nothing is in flight. *)
Definition quiet (w : world) : Prop :=
  (forall r p, w.1 !! r = Some p -> shapes p /\ idle p) /\
  (forall r, r + 1 < length w.1 ->
     channel w.2 (link_down r) = [] /\ channel w.2 (link_up r) = []).

(** Every rank has launched its transfers and nobody has waited yet: each
    link holds one row in each direction. *)
Definition exchanging (w : world) : Prop :=
  (forall r p, w.1 !! r = Some p ->
     shapes p /\ engaged (Z.of_nat r) (Z.of_nat (length w.1)) p /\ Double.ordered (dt p)) /\
  (forall r, r + 1 < length w.1 ->
     channel w.2 (link_down r) = [row_of w r ROWS] /\
     channel w.2 (link_up r) = [row_of w (r + 1) 1]).

Lemma has_top_spec (r : nat) : has_top (Z.of_nat r) = negb (Nat.eqb r 0).
Proof.
  unfold has_top. f_equal. destruct (Z.eqb_spec (Z.of_nat r) 0), (Nat.eqb_spec r 0); lia.
Qed.

Lemma has_bottom_spec (r n : nat) :
  r < n -> has_bottom (Z.of_nat r) (Z.of_nat n) = negb (Nat.eqb (r + 1) n).
Proof.
  intros H. unfold has_bottom. f_equal.
  destruct (Z.eqb_spec (Z.of_nat r) (Z.of_nat n - 1)), (Nat.eqb_spec (r + 1) n); lia.
Qed.

Lemma link_down_pred (k : nat) :
  k <> 0 -> (Z.of_nat k - 1, Z.of_nat k, 0)%Z = link_down (k - 1).
Proof.
  intros H. unfold link_down. replace (Z.of_nat (k - 1)) with (Z.of_nat k - 1)%Z by lia.
  now replace (Z.of_nat k - 1 + 1)%Z with (Z.of_nat k) by lia.
Qed.

Lemma link_up_pred (k : nat) :
  k <> 0 -> (Z.of_nat k, Z.of_nat k - 1, 1)%Z = link_up (k - 1).
Proof.
  intros H. unfold link_up. replace (Z.of_nat (k - 1)) with (Z.of_nat k - 1)%Z by lia.
  now replace (Z.of_nat k - 1 + 1)%Z with (Z.of_nat k) by lia.
Qed.

Lemma link_down_inj r r' : link_down r = link_down r' -> r = r'.
Proof. unfold link_down. intros E. inversion E. lia. Qed.

Lemma link_up_inj r r' : link_up r = link_up r' -> r = r'.
Proof. unfold link_up. intros E. inversion E. lia. Qed.

Lemma link_down_up r r' : link_down r <> link_up r'.
Proof. unfold link_down, link_up. intros E. inversion E. Qed.

(** Ranks below [k] have been through [f], the others are untouched. *)
Definition done_below (f : nat -> process -> process) (l0 l : list process) (k : nat) : Prop :=
  length l = length l0 /\
  forall r p, l !! r = Some p ->
    exists p0, l0 !! r = Some p0 /\ p = if decide (r < k) then f r p0 else p0.

Lemma done_below_start f l0 : done_below f l0 l0 0.
Proof.
  split; [reflexivity|]. intros r p H. exists p. split; [exact H|].
  destruct (decide (r < 0)); [lia|reflexivity].
Qed.

Lemma done_below_current f l0 l k :
  done_below f l0 l k -> k < length l0 -> exists p0, l0 !! k = Some p0 /\ l !! k = Some p0.
Proof.
  intros [Hlen H] Hk. destruct (lookup_lt_is_Some_2 l k) as [p Hp]; [lia|].
  destruct (H k p Hp) as (p0 & Hp0 & E). exists p0. split; [exact Hp0|].
  destruct (decide (k < k)); [lia|]. now subst.
Qed.

Lemma done_below_step f l0 l k p0 :
  done_below f l0 l k -> l0 !! k = Some p0 ->
  done_below f l0 (<[k := f k p0]> l) (S k).
Proof.
  intros [Hlen H] Hk. split; [now rewrite length_insert|].
  intros r p Hp. destruct (decide (r = k)) as [->|Hne].
  - rewrite list_lookup_insert_eq in Hp.
    + inversion Hp; subst. exists p0. split; [exact Hk|].
      destruct (decide (k < S k)); [reflexivity|lia].
    + rewrite Hlen. eapply lookup_lt_Some; eauto.
  - rewrite list_lookup_insert_ne in Hp by congruence.
    destruct (H r p Hp) as (q & Hq & E). exists q. split; [exact Hq|].
    destruct (decide (r < k)), (decide (r < S k)); try lia; exact E.
Qed.

Lemma done_below_all f l0 l :
  done_below f l0 l (length l0) ->
  forall r p0, l0 !! r = Some p0 -> l !! r = Some (f r p0).
Proof.
  intros [Hlen H] r p0 Hp0.
  assert (Hr : r < length l0) by (eapply lookup_lt_Some; eauto).
  destruct (lookup_lt_is_Some_2 l r) as [p Hp]; [lia|].
  destruct (H r p Hp) as (q & Hq & E). rewrite Hp0 in Hq. inversion Hq; subst q.
  destruct (decide (r < length l0)); [|lia]. now subst.
Qed.

(** *** The launch phase *)

Lemma relax_rows_shape last rows t :
  local_shape ROWS COLUMNS t ->
  local_shape ROWS COLUMNS (foldl (fun t i => relax_row COLUMNS last i t) t rows).
Proof.
  revert t. induction rows as [|i rows IH]; intros t Ht; simpl; [exact Ht|].
  apply IH. now apply relax_row_shape.
Qed.

Lemma relax_rows_cell_other last rows t i' j :
  local_shape ROWS COLUMNS t -> Forall (fun i => i < ROWS + 2) rows -> i' ∉ rows ->
  cell (foldl (fun t i => relax_row COLUMNS last i t) t rows) i' j = cell t i' j.
Proof.
  revert t. induction rows as [|i rows IH]; intros t Ht Hrows Hni; simpl; [reflexivity|].
  apply Forall_cons in Hrows as [Hi Hrows]. apply not_elem_of_cons in Hni as [Hne Hni].
  rewrite IH by (try apply relax_row_shape; assumption).
  rewrite (relax_row_cell ROWS) by assumption.
  rewrite decide_False; [reflexivity|]. intros [E _]. congruence.
Qed.

(** What the second half of the iteration leaves on rank [r] of [n]. *)
Definition launched (n r : nat) (p : process) : process :=
  local_delta (relax_interior (launch (Z.of_nat r) (Z.of_nat n) p)).

Lemma temperature_launched n r p :
  temperature (launched n r p) =
  foldl (fun t i => relax_row COLUMNS (temperature_last p) i t) (temperature p) (seq 2 (ROWS - 2)).
Proof. reflexivity. Qed.

Lemma launched_boundary_row n r p row :
  shapes p -> row = 1 \/ row = ROWS ->
  row_payload COLUMNS (temperature (launched n r p)) row = row_payload COLUMNS (temperature p) row.
Proof.
  intros [Ht _] Hrow. rewrite temperature_launched. unfold row_payload.
  apply map_ext. intros j. apply relax_rows_cell_other; [exact Ht| |].
  - apply Forall_forall. intros i Hi. apply elem_of_seq in Hi. lia.
  - intros Hi. apply elem_of_seq in Hi. lia.
Qed.

Lemma launched_shapes n r p : shapes p -> shapes (launched n r p).
Proof.
  intros [Ht Hl]. split.
  - rewrite temperature_launched. now apply relax_rows_shape.
  - unfold launched, local_delta. simpl.
    now destruct (delta_pass_spec ROWS COLUMNS
                    (foldl (fun t i => relax_row COLUMNS (temperature_last p) i t)
                           (temperature p) (seq 2 (ROWS - 2)))
                    (temperature_last p) Hl) as [H _].
Qed.

Lemma launched_engaged n r p :
  idle p -> engaged (Z.of_nat r) (Z.of_nat n) (launched n r p).
Proof.
  intros (H1 & H2 & H3 & H4). unfold engaged, launched, local_delta, relax_interior, launch. simpl.
  rewrite H1, H2, H3, H4.
  destruct (has_top (Z.of_nat r)), (has_bottom (Z.of_nat r) (Z.of_nat n)); auto.
Qed.

Lemma launched_dt n r p :
  shapes p ->
  dt (launched n r p) =
  fold_max 0 (abs_delta (temperature (launched n r p)) (temperature_last p)
                <$> local_cells ROWS COLUMNS).
Proof.
  intros [_ Hl]. unfold launched at 1, local_delta. simpl.
  now destruct (delta_pass_spec ROWS COLUMNS
                  (foldl (fun t i => relax_row COLUMNS (temperature_last p) i t)
                         (temperature p) (seq 2 (ROWS - 2)))
                  (temperature_last p) Hl) as (_ & _ & H).
Qed.

Lemma launched_dt_ordered n r p : shapes p -> Double.ordered (dt (launched n r p)).
Proof. intros H. rewrite launched_dt by exact H. now apply fold_max_ordered. Qed.

Lemma channel_launch_posts_down (k n : nat) p net r :
  k < n ->
  channel (launch_posts (Z.of_nat k) (Z.of_nat n) p net) (link_down r) =
  channel net (link_down r) ++
  (if decide (r = k /\ k + 1 < n) then [row_payload COLUMNS (temperature p) ROWS] else []).
Proof.
  intros Hk. unfold launch_posts. rewrite has_top_spec, (has_bottom_spec k n Hk).
  change (Z.of_nat k, Z.of_nat k + 1, 0)%Z with (link_down k).
  assert (Hin : channel ((if negb (k =? 0)
                          then post (Z.of_nat k, Z.of_nat k - 1, 1)%Z
                                 (row_payload COLUMNS (temperature p) 1)
                          else id) net) (link_down r) = channel net (link_down r)).
  { destruct (Nat.eqb_spec k 0); simpl; [reflexivity|].
    rewrite link_up_pred by assumption.
    apply channel_post_ne. intros E. symmetry in E. now apply link_down_up in E. }
  destruct (Nat.eqb_spec (k + 1) n) as [E|E]; simpl.
  - rewrite Hin. rewrite decide_False by lia. now rewrite app_nil_r.
  - destruct (decide (r = k)) as [->|Hne].
    + rewrite channel_post_eq, Hin. rewrite decide_True by lia. reflexivity.
    + rewrite channel_post_ne by (intros E'; apply link_down_inj in E'; congruence).
      rewrite Hin. rewrite decide_False by lia. now rewrite app_nil_r.
Qed.

Lemma channel_launch_posts_up (k n : nat) p net r :
  k < n ->
  channel (launch_posts (Z.of_nat k) (Z.of_nat n) p net) (link_up r) =
  channel net (link_up r) ++
  (if decide (r + 1 = k) then [row_payload COLUMNS (temperature p) 1] else []).
Proof.
  intros Hk. unfold launch_posts. rewrite has_top_spec, (has_bottom_spec k n Hk).
  change (Z.of_nat k, Z.of_nat k + 1, 0)%Z with (link_down k).
  assert (Hout : forall net', channel ((if negb (k + 1 =? n)
                          then post (link_down k) (row_payload COLUMNS (temperature p) ROWS)
                          else id) net') (link_up r) = channel net' (link_up r)).
  { intros net'. destruct (Nat.eqb_spec (k + 1) n); simpl; [reflexivity|].
    apply channel_post_ne. apply link_down_up. }
  rewrite Hout. destruct (Nat.eqb_spec k 0) as [E|E]; simpl.
  - rewrite decide_False by lia. now rewrite app_nil_r.
  - rewrite link_up_pred by assumption. destruct (decide (r + 1 = k)) as [Er|Er].
    + replace (k - 1) with r by lia. now rewrite channel_post_eq.
    + rewrite channel_post_ne by (intros E'; apply link_up_inj in E'; lia).
      now rewrite app_nil_r.
Qed.

Lemma launch_phase_spec w0 :
  (forall r, r + 1 < length w0.1 ->
     channel w0.2 (link_down r) = [] /\ channel w0.2 (link_up r) = []) ->
  exists w', launch_phase w0 = Some w' /\
    done_below (launched (length w0.1)) w0.1 w'.1 (length w0.1) /\
    forall r, r + 1 < length w0.1 ->
      channel w'.2 (link_down r) = [row_of w0 r ROWS] /\
      channel w'.2 (link_up r) = [row_of w0 (r + 1) 1].
Proof.
  intros Hq. set (n := length w0.1).
  pose (J := fun (k : nat) (w : world) =>
    done_below (launched n) w0.1 w.1 k /\
    forall r, r + 1 < n ->
      channel w.2 (link_down r) = (if decide (r < k) then [row_of w0 r ROWS] else []) /\
      channel w.2 (link_up r) = (if decide (r + 1 < k) then [row_of w0 (r + 1) 1] else [])).
  destruct (on_all_invariant
              (fun r => launch_exchange ROWS r (Z.of_nat n) ++ thread1 ROWS ++ closing) J n)
    with (w := w0) as (w' & Hrun & Hdone & Hch).
  - intros k w Hk [Hdone Hch].
    destruct (done_below_current _ _ _ _ Hdone Hk) as (p0 & Hp0 & Hp).
    unfold on_rank. rewrite Hp. cbn [mbind option_bind]. rewrite run_second_half.
    cbn [mbind option_bind fst snd].
    eexists. split; [reflexivity|].
    split; [exact (done_below_step (launched n) _ _ _ _ Hdone Hp0)|].
    intros r Hr. cbn [snd]. destruct (Hch r Hr) as [Hd Hu].
    rewrite channel_launch_posts_down, channel_launch_posts_up by exact Hk.
    rewrite Hd, Hu. unfold row_of. split.
    + destruct (decide (r = k /\ k + 1 < n)) as [[-> _]|Hn].
      * rewrite decide_False by lia. rewrite decide_True by lia. now rewrite Hp0.
      * destruct (decide (r < k)), (decide (r < S k)); try lia; now rewrite app_nil_r.
    + destruct (decide (r + 1 = k)) as [E|E].
      * rewrite decide_False by lia. rewrite decide_True by lia. rewrite E. now rewrite Hp0.
      * destruct (decide (r + 1 < k)), (decide (r + 1 < S k)); try lia; now rewrite app_nil_r.
  - reflexivity.
  - split; [apply done_below_start|]. intros r Hr. destruct (Hq r Hr) as [-> ->].
    destruct (decide (r < 0)), (decide (r + 1 < 0)); try lia. auto.
  - exists w'. split; [exact Hrun|]. split; [exact Hdone|].
    intros r Hr. destruct (Hch r Hr) as [Hd Hu].
    rewrite decide_True in Hd by lia. rewrite decide_True in Hu by lia. auto.
Qed.

(** *** The wait phase *)

Lemma wait_phase_quiet w0 :
  (forall r p, w0.1 !! r = Some p -> idle p) ->
  exists w', wait_phase w0 = Some w' /\
    done_below (fun _ => relax_boundary) w0.1 w'.1 (length w0.1) /\ w'.2 = w0.2.
Proof.
  intros Hidle. set (n := length w0.1).
  pose (J := fun (k : nat) (w : world) =>
    done_below (fun _ => relax_boundary) w0.1 w.1 k /\ w.2 = w0.2).
  destruct (on_all_invariant (fun _ => boundary_rows ROWS) J n) with (w := w0)
    as (w' & Hrun & Hdone & Hnet).
  - intros k w Hk [Hdone Hnet].
    destruct (done_below_current _ _ _ _ Hdone Hk) as (p0 & Hp0 & Hp).
    unfold on_rank. rewrite Hp. cbn [mbind option_bind].
    rewrite run_boundary_idle by (eapply Hidle; eauto). cbn [mbind option_bind fst snd].
    eexists. split; [reflexivity|].
    split; [exact (done_below_step (fun _ => relax_boundary) _ _ _ _ Hdone Hp0)|exact Hnet].
  - reflexivity.
  - split; [apply done_below_start|reflexivity].
  - exists w'. auto.
Qed.

(** The messages rank [r] finds: the bottom row of the rank above and the
    top row of the rank below, as they were when sent. *)
Definition top_message (w0 : world) (r : nat) : option (list float) :=
  if Nat.eqb r 0 then None else Some (row_of w0 (r - 1) ROWS).

Definition bottom_message (w0 : world) (r : nat) : option (list float) :=
  if Nat.eqb (r + 1) (length w0.1) then None else Some (row_of w0 (r + 1) 1).

Definition received (w0 : world) (r : nat) (p : process) : process :=
  receive_and_relax (top_message w0 r) (bottom_message w0 r) p.

(** The network after rank [k] of [n] has taken its two messages. *)
Definition delivered (k n : nat) (net : network) : network :=
  (if has_bottom (Z.of_nat k) (Z.of_nat n)
   then <[(Z.of_nat k + 1, Z.of_nat k, 1)%Z := []]> else id)
    ((if has_top (Z.of_nat k)
      then <[(Z.of_nat k - 1, Z.of_nat k, 0)%Z := []]> else id) net).

Lemma channel_delivered_down k n net r :
  k < n ->
  channel (delivered k n net) (link_down r) =
  if decide (r + 1 = k) then [] else channel net (link_down r).
Proof.
  intros Hk. unfold delivered. rewrite has_top_spec, (has_bottom_spec k n Hk).
  change (Z.of_nat k + 1, Z.of_nat k, 1)%Z with (link_up k).
  assert (Hout : forall net', channel ((if negb (k + 1 =? n) then <[link_up k := []]> else id) net')
                                (link_down r) = channel net' (link_down r)).
  { intros net'. destruct (Nat.eqb_spec (k + 1) n); simpl; [reflexivity|].
    apply channel_insert_ne. intros E. symmetry in E. now apply link_down_up in E. }
  rewrite Hout. destruct (Nat.eqb_spec k 0) as [E|E]; simpl.
  - rewrite decide_False by lia. reflexivity.
  - rewrite link_down_pred by assumption. destruct (decide (r + 1 = k)) as [Er|Er].
    + replace (k - 1) with r by lia. apply channel_insert_eq.
    + apply channel_insert_ne. intros E'. apply link_down_inj in E'. lia.
Qed.

Lemma channel_delivered_up k n net r :
  k < n ->
  channel (delivered k n net) (link_up r) =
  if decide (r = k /\ k + 1 < n) then [] else channel net (link_up r).
Proof.
  intros Hk. unfold delivered. rewrite has_top_spec, (has_bottom_spec k n Hk).
  change (Z.of_nat k + 1, Z.of_nat k, 1)%Z with (link_up k).
  assert (Hin : channel ((if negb (k =? 0)
                          then <[(Z.of_nat k - 1, Z.of_nat k, 0)%Z := []]> else id) net)
                        (link_up r) = channel net (link_up r)).
  { destruct (Nat.eqb_spec k 0); simpl; [reflexivity|].
    rewrite link_down_pred by assumption. apply channel_insert_ne. apply link_down_up. }
  destruct (Nat.eqb_spec (k + 1) n) as [E|E]; simpl.
  - rewrite Hin. rewrite decide_False by lia. reflexivity.
  - destruct (decide (r = k)) as [->|Hne].
    + rewrite decide_True by lia. apply channel_insert_eq.
    + rewrite channel_insert_ne by (intros E'; apply link_up_inj in E'; congruence).
      rewrite decide_False by lia. exact Hin.
Qed.

Lemma wait_phase_exchanging w0 :
  exchanging w0 ->
  exists w', wait_phase w0 = Some w' /\
    done_below (received w0) w0.1 w'.1 (length w0.1) /\
    forall r, r + 1 < length w0.1 ->
      channel w'.2 (link_down r) = [] /\ channel w'.2 (link_up r) = [].
Proof.
  intros [Hranks Hlinks]. set (n := length w0.1) in *.
  pose (J := fun (k : nat) (w : world) =>
    done_below (received w0) w0.1 w.1 k /\
    forall r, r + 1 < n ->
      channel w.2 (link_down r) = (if decide (r + 1 < k) then [] else [row_of w0 r ROWS]) /\
      channel w.2 (link_up r) = (if decide (r < k) then [] else [row_of w0 (r + 1) 1])).
  destruct (on_all_invariant (fun _ => boundary_rows ROWS) J n) with (w := w0)
    as (w' & Hrun & Hdone & Hch).
  - intros k w Hk [Hdone Hch].
    destruct (done_below_current _ _ _ _ Hdone Hk) as (p0 & Hp0 & Hp).
    destruct (Hranks k p0 Hp0) as (_ & Heng & _).
    unfold on_rank. rewrite Hp. cbn [mbind option_bind].
    rewrite (run_boundary_engaged (Z.of_nat k) (Z.of_nat n) p0 w.2
               (top_message w0 k) (bottom_message w0 k) [] [] Heng).
    + cbn [mbind option_bind fst snd]. eexists. split; [reflexivity|].
      split; [exact (done_below_step (received w0) _ _ _ _ Hdone Hp0)|].
      intros r Hr. cbn [snd]. fold (delivered k n w.2).
      rewrite channel_delivered_down, channel_delivered_up by exact Hk.
      destruct (Hch r Hr) as [-> ->]. split.
      * destruct (decide (r + 1 = k)), (decide (r + 1 < k)), (decide (r + 1 < S k));
          try lia; reflexivity.
      * destruct (decide (r = k /\ k + 1 < n)) as [[-> _]|Hn].
        -- rewrite decide_True by lia. reflexivity.
        -- destruct (decide (r < k)), (decide (r < S k)); try lia; reflexivity.
    + rewrite has_top_spec. unfold top_message. destruct (Nat.eqb_spec k 0) as [E|E]; simpl.
      * reflexivity.
      * eexists. split; [reflexivity|]. rewrite link_down_pred by assumption.
        destruct (Hch (k - 1)) as [-> _]; [lia|]. rewrite decide_False by lia.
        reflexivity.
    + rewrite (has_bottom_spec k n Hk). unfold bottom_message. fold n.
      destruct (Nat.eqb_spec (k + 1) n) as [E|E]; simpl.
      * reflexivity.
      * eexists. split; [reflexivity|].
        change (Z.of_nat k + 1, Z.of_nat k, 1)%Z with (link_up k).
        destruct (Hch k) as [_ ->]; [lia|]. rewrite decide_False by lia. reflexivity.
  - reflexivity.
  - split; [apply done_below_start|]. intros r Hr. destruct (Hlinks r Hr) as [-> ->].
    rewrite !decide_False by lia. auto.
  - exists w'. split; [exact Hrun|]. split; [exact Hdone|].
    intros r Hr. destruct (Hch r Hr) as [-> ->]. rewrite !decide_True by lia. auto.
Qed.

(** *** From one phase boundary to the next *)

Lemma done_below_inv f l0 l r p :
  done_below f l0 l (length l0) -> l !! r = Some p ->
  exists p0, l0 !! r = Some p0 /\ p = f r p0.
Proof.
  intros [Hlen H] Hp. destruct (H r p Hp) as (p0 & Hp0 & E). exists p0. split; [exact Hp0|].
  rewrite decide_True in E; [exact E|]. eapply lookup_lt_Some; eauto.
Qed.

Lemma relax_boundary_shapes p : shapes p -> shapes (relax_boundary p).
Proof.
  intros [Ht Hl]. split; [|exact Hl]. unfold relax_boundary. simpl.
  now do 2 apply relax_row_shape.
Qed.

Lemma relax_boundary_idle p : idle p -> idle (relax_boundary p).
Proof. intros H. exact H. Qed.

Lemma length_row_payload g i : length (row_payload COLUMNS g i) = COLUMNS.
Proof. unfold row_payload. now rewrite length_map, length_seq. Qed.

Lemma received_shapes w0 r p : shapes p -> shapes (received w0 r p).
Proof.
  intros [Ht Hl]. unfold received, receive_and_relax.
  assert (H1 : local_shape ROWS COLUMNS
                 match top_message w0 r with
                 | Some m => store_payload (temperature_last p) 0 m
                 | None => temperature_last p
                 end).
  { destruct (top_message w0 r); [now apply shaped_store_from|exact Hl]. }
  split; simpl.
  - now do 2 apply relax_row_shape.
  - destruct (bottom_message w0 r); [now apply shaped_store_from|exact H1].
Qed.

Lemma received_idle w0 r p : idle (received w0 r p).
Proof. repeat split. Qed.

(** The halo rows of a rank after the wait phase are the messages it
    found. *)
Lemma received_top w0 r p m :
  shapes p -> top_message w0 r = Some m -> length m = COLUMNS ->
  row_payload COLUMNS (temperature_last (received w0 r p)) 0 = m.
Proof.
  intros [_ Hl] Ht Hm. unfold received, receive_and_relax. rewrite Ht. simpl.
  transitivity (row_payload COLUMNS (store_payload (temperature_last p) 0 m) 0).
  - destruct (bottom_message w0 r) as [mb|]; [|reflexivity].
    unfold row_payload. apply map_ext. intros j. apply cell_store_from_other. left. lia.
  - apply (row_payload_store_payload (ROWS + 2)); [exact Hl|lia|exact Hm].
Qed.

Lemma received_bottom w0 r p m :
  shapes p -> bottom_message w0 r = Some m -> length m = COLUMNS ->
  row_payload COLUMNS (temperature_last (received w0 r p)) (ROWS + 1) = m.
Proof.
  intros [_ Hl] Hb Hm. unfold received, receive_and_relax. rewrite Hb. simpl.
  apply (row_payload_store_payload (ROWS + 2)); [|lia|exact Hm].
  destruct (top_message w0 r); [now apply shaped_store_from|exact Hl].
Qed.

Lemma wait_quiet w :
  quiet w ->
  exists w', wait_phase w = Some w' /\ quiet w' /\ length w'.1 = length w.1.
Proof.
  intros [Hranks Hlinks].
  destruct (wait_phase_quiet w) as (w' & Hrun & Hdone & Hnet).
  { intros r p Hp. now apply (Hranks r p). }
  exists w'. split; [exact Hrun|]. pose proof Hdone as [Hlen _]. split; [|exact Hlen].
  split.
  - intros r p Hp. destruct (done_below_inv _ _ _ _ _ Hdone Hp) as (p0 & Hp0 & ->).
    destruct (Hranks r p0 Hp0) as [Hs Hi].
    split; [now apply relax_boundary_shapes|now apply relax_boundary_idle].
  - rewrite Hlen, Hnet. exact Hlinks.
Qed.

Lemma row_of_length w r row p : w.1 !! r = Some p -> length (row_of w r row) = COLUMNS.
Proof. intros H. unfold row_of. rewrite H. apply length_row_payload. Qed.

Lemma wait_exchanging w :
  exchanging w ->
  exists w', wait_phase w = Some w' /\ quiet w' /\ length w'.1 = length w.1 /\
    forall r, r + 1 < length w.1 ->
      halo_of w' (r + 1) 0 = row_of w r ROWS /\
      halo_of w' r (ROWS + 1) = row_of w (r + 1) 1.
Proof.
  intros Hex. pose proof Hex as [Hranks Hlinks].
  destruct (wait_phase_exchanging w Hex) as (w' & Hrun & Hdone & Hch).
  exists w'. split; [exact Hrun|]. pose proof Hdone as [Hlen _].
  split; [|split; [exact Hlen|]].
  - split.
    + intros r p Hp. destruct (done_below_inv _ _ _ _ _ Hdone Hp) as (p0 & Hp0 & ->).
      destruct (Hranks r p0 Hp0) as (Hs & _).
      split; [now apply received_shapes|apply received_idle].
    + rewrite Hlen. exact Hch.
  - intros r Hr.
    destruct (lookup_lt_is_Some_2 w.1 r) as [pu Hpu]; [lia|].
    destruct (lookup_lt_is_Some_2 w.1 (r + 1)) as [pl Hpl]; [lia|].
    unfold halo_of.
    rewrite (done_below_all _ _ _ Hdone _ _ Hpu), (done_below_all _ _ _ Hdone _ _ Hpl).
    destruct (Hranks r pu Hpu) as (Hsu & _), (Hranks (r + 1) pl Hpl) as (Hsl & _).
    split.
    + apply received_top; [exact Hsl| |now apply (row_of_length w r ROWS pu)].
      unfold top_message. destruct (Nat.eqb_spec (r + 1) 0); [lia|].
      now replace (r + 1 - 1) with r by lia.
    + apply received_bottom; [exact Hsu| |now apply (row_of_length w (r + 1) 1 pl)].
      unfold bottom_message. destruct (Nat.eqb_spec (r + 1) (length w.1)); [lia|reflexivity].
Qed.

Lemma launch_quiet w :
  quiet w ->
  exists w', launch_phase w = Some w' /\ exchanging w' /\ length w'.1 = length w.1 /\
    forall r, row_of w' r 1 = row_of w r 1 /\ row_of w' r ROWS = row_of w r ROWS.
Proof.
  intros [Hranks Hlinks].
  destruct (launch_phase_spec w Hlinks) as (w' & Hrun & Hdone & Hch).
  exists w'. split; [exact Hrun|]. pose proof Hdone as [Hlen _].
  assert (Hrows : forall r, row_of w' r 1 = row_of w r 1 /\ row_of w' r ROWS = row_of w r ROWS).
  { intros r. unfold row_of. destruct (w.1 !! r) as [p0|] eqn:Hp0.
    - rewrite (done_below_all _ _ _ Hdone _ _ Hp0).
      destruct (Hranks r p0 Hp0) as [Hs _].
      split; apply launched_boundary_row; auto.
    - rewrite (lookup_ge_None_2 w'.1 r); [auto|]. apply lookup_ge_None_1 in Hp0. lia. }
  split; [|split; [exact Hlen|exact Hrows]].
  split.
  - intros r p Hp. destruct (done_below_inv _ _ _ _ _ Hdone Hp) as (p0 & Hp0 & ->).
    destruct (Hranks r p0 Hp0) as [Hs Hi]. rewrite Hlen.
    split; [now apply launched_shapes|].
    split; [now apply launched_engaged|now apply launched_dt_ordered].
  - rewrite Hlen. intros r Hr. destruct (Hch r Hr) as [-> ->].
    destruct (Hrows r) as [_ ->], (Hrows (r + 1)) as [-> _]. auto.
Qed.

(** One iteration of all ranks never blocks, whether it is the first one
    or a later one, and leaves every link with one row in each direction. *)
Lemma world_iteration_spec w :
  quiet w \/ exchanging w ->
  exists w', world_iteration w = Some w' /\ exchanging w' /\ length w'.1 = length w.1.
Proof.
  intros H. unfold world_iteration.
  assert (Hw : exists w1, wait_phase w = Some w1 /\ quiet w1 /\ length w1.1 = length w.1).
  { destruct H as [H|H].
    - now apply wait_quiet.
    - destruct (wait_exchanging w H) as (w1 & ? & ? & ? & _). eauto. }
  destruct Hw as (w1 & -> & Hq & Hlen). cbn [mbind option_bind].
  destruct (launch_quiet w1 Hq) as (w' & Hrun & Hex & Hlen' & _).
  exists w'. split; [exact Hrun|]. split; [exact Hex|]. congruence.
Qed.

(** *** The relaxation loop, lines 94-210 *)

(** [MAX_NUMBER_OF_ITERATIONS] and [MAX_TEMP_ERROR] of [util.h]. *)
Variable MAX_NUMBER_OF_ITERATIONS : Z.
Variable MAX_TEMP_ERROR : float.

Definition INT_MAX : Z := 2147483647.

(** [iteration++] on a 32-bit [int], wrapping at [INT_MAX]. *)
Definition int_incr (i : Z) : Z :=
  if (i =? INT_MAX)%Z then (- INT_MAX - 1)%Z else (i + 1)%Z.

(** The variables of the loop, the same on every rank: the grids and
    handles of all ranks, [iteration], [dt_global], and the number of times
    the body has run. *)
Record loop_state := LoopState {
  ranks : world;
  iteration : Z;
  dt_global : float;
  executions : nat
}.

(** [dt_global > MAX_TEMP_ERROR && iteration <= MAX_NUMBER_OF_ITERATIONS] *)
Definition loop_condition (st : loop_state) : bool :=
  Double.gt (dt_global st) MAX_TEMP_ERROR && (iteration st <=? MAX_NUMBER_OF_ITERATIONS)%Z.

(** The loop body: [iteration++], the parallel region on every rank, the
    all-reduce of [dt] and the wait for it. The progress report writes to
    the terminal only. *)
Definition loop_body (st : loop_state) : option loop_state :=
  w ← world_iteration (ranks st);
  Some (LoopState w (int_incr (iteration st)) (allreduce_max (dt <$> w.1))
                  (S (executions st))).

Inductive outcome :=
| Finished (st : loop_state)
| Blocked
| OutOfFuel.

Fixpoint relaxation_loop (fuel : nat) (st : loop_state) : outcome :=
  if loop_condition st then
    match fuel with
    | 0 => OutOfFuel
    | S fuel =>
        match loop_body st with
        | Some st' => relaxation_loop fuel st'
        | None => Blocked
        end
    end
  else Finished st.

(** The states in which the loop condition is evaluated, in order. *)
Fixpoint loop_tests (fuel : nat) (st : loop_state) : list loop_state :=
  st :: (if loop_condition st then
           match fuel with
           | 0 => []
           | S fuel =>
               match loop_body st with
               | Some st' => loop_tests fuel st'
               | None => []
               end
           end
         else []).

(** Lines 28 and 32: [iteration = 0], [dt_global = 100]. *)
Definition loop_start (w : world) : loop_state := LoopState w 0 100%float 0.

Definition loop_invariant (st : loop_state) : Prop :=
  (quiet (ranks st) \/ exchanging (ranks st)) /\
  iteration st = Z.of_nat (executions st) /\
  (iteration st <= MAX_NUMBER_OF_ITERATIONS + 1)%Z /\
  Double.ordered (dt_global st).

Lemma allreduce_max_ordered ds : Forall Double.ordered ds -> Double.ordered (allreduce_max ds).
Proof.
  destruct ds as [|d ds]; [reflexivity|]. intros H. apply Forall_cons in H as [Hd _].
  simpl. now apply fold_max_ordered.
Qed.

Lemma loop_start_invariant w :
  quiet w -> (0 <= MAX_NUMBER_OF_ITERATIONS)%Z -> loop_invariant (loop_start w).
Proof. intros Hq Hmax. repeat split; simpl; auto; lia. Qed.

Lemma loop_body_invariant st :
  (MAX_NUMBER_OF_ITERATIONS < INT_MAX)%Z ->
  loop_invariant st -> loop_condition st = true ->
  exists st', loop_body st = Some st' /\ loop_invariant st' /\
              executions st' = S (executions st) /\
              iteration st' = (iteration st + 1)%Z.
Proof.
  intros Hmax (Hw & Hit & Hle & Hord) Hc. unfold loop_condition in Hc.
  apply andb_true_iff in Hc as [_ Hc]. apply Z.leb_le in Hc.
  destruct (world_iteration_spec (ranks st) Hw) as (w & Hrun & Hex & Hlen).
  unfold loop_body. rewrite Hrun. cbn [mbind option_bind].
  assert (Hincr : int_incr (iteration st) = (iteration st + 1)%Z).
  { unfold int_incr. destruct (Z.eqb_spec (iteration st) INT_MAX); [lia|reflexivity]. }
  eexists. split; [reflexivity|]. unfold loop_invariant.
  cbn [ranks iteration dt_global executions]. rewrite Hincr.
  split; [|split; reflexivity].
  split; [now right|]. split; [lia|]. split; [lia|].
  apply allreduce_max_ordered. apply Forall_fmap. apply Forall_forall. intros p Hp.
  apply list_elem_of_lookup in Hp as [r Hp]. destruct Hex as [Hranks _].
  now destruct (Hranks r p Hp) as (_ & _ & H).
Qed.

(** With fuel for the iterations that remain under the cap, the loop
    finishes: no wait blocks, and the fuel is not used up. *)
Lemma relaxation_loop_from fuel st :
  (MAX_NUMBER_OF_ITERATIONS < INT_MAX)%Z ->
  loop_invariant st ->
  Z.to_nat (MAX_NUMBER_OF_ITERATIONS + 1 - iteration st) <= fuel ->
  exists st', relaxation_loop fuel st = Finished st' /\
              loop_invariant st' /\ loop_condition st' = false /\
              executions st <= executions st' /\
              (loop_condition st = true -> executions st < executions st').
Proof.
  intros Hmax. revert st. induction fuel as [|fuel IH]; intros st Hinv Hfuel.
  - destruct (loop_condition st) eqn:Hc.
    + exfalso. unfold loop_condition in Hc. apply andb_true_iff in Hc as [_ Hc].
      apply Z.leb_le in Hc. lia.
    + exists st. simpl. rewrite Hc.
      split; [reflexivity|]. split; [exact Hinv|]. split; [reflexivity|].
      split; [lia|discriminate].
  - simpl. destruct (loop_condition st) eqn:Hc.
    + destruct (loop_body_invariant st Hmax Hinv Hc) as (st1 & -> & Hinv1 & Hex1 & Hit1).
      destruct (IH st1 Hinv1) as (st' & Hrun & Hinv' & Hc' & Hle & _); [lia|].
      exists st'. split; [exact Hrun|]. split; [exact Hinv'|]. split; [exact Hc'|].
      split; [lia|intros _; lia].
    + exists st. split; [reflexivity|]. split; [exact Hinv|]. split; [exact Hc|].
      split; [lia|discriminate].
Qed.

Lemma loop_tests_invariant fuel st :
  (MAX_NUMBER_OF_ITERATIONS < INT_MAX)%Z ->
  loop_invariant st -> Forall loop_invariant (loop_tests fuel st).
Proof.
  intros Hmax. revert st. induction fuel as [|fuel IH]; intros st Hinv; simpl.
  - constructor; [exact Hinv|]. destruct (loop_condition st); constructor.
  - constructor; [exact Hinv|]. destruct (loop_condition st) eqn:Hc; [|constructor].
    destruct (loop_body_invariant st Hmax Hinv Hc) as (st1 & -> & Hinv1 & _).
    now apply IH.
Qed.

(** The loop returns the first tested state whose condition is false. *)
Lemma loop_tests_finished fuel st st' :
  relaxation_loop fuel st = Finished st' ->
  exists before, loop_tests fuel st = before ++ [st'] /\
                 Forall (fun s => loop_condition s = true) before /\
                 length before + executions st = executions st'.
Proof.
  revert st. induction fuel as [|fuel IH]; intros st H; simpl in *.
  - destruct (loop_condition st) eqn:Hc; [discriminate|]. inversion H; subst.
    exists []. simpl. auto.
  - destruct (loop_condition st) eqn:Hc.
    + destruct (loop_body st) as [st1|] eqn:Hb; [|discriminate].
      destruct (IH st1 H) as (before & -> & Hall & Hlen).
      exists (st :: before). split; [reflexivity|]. split; [now constructor|].
      unfold loop_body in Hb. destruct (world_iteration (ranks st)); [|discriminate].
      simpl in Hb. inversion Hb; subst. simpl in *. lia.
    + inversion H; subst. exists []. simpl. auto.
Qed.

(** For numbers, the loop condition is false exactly when the global
    delta is at or below the threshold or the counter is above the cap. *)
Lemma loop_condition_false st :
  Double.ordered (dt_global st) -> Double.ordered MAX_TEMP_ERROR ->
  loop_condition st = false <->
  Double.le (dt_global st) MAX_TEMP_ERROR \/ (MAX_NUMBER_OF_ITERATIONS < iteration st)%Z.
Proof.
  intros Hd Ht. unfold loop_condition. rewrite andb_false_iff, Z.leb_gt. split.
  - intros [H|H]; [left; now apply Double.gt_false_le|now right].
  - intros [H|H]; [left; now apply Double.le_gt_false|now right].
Qed.



End World.

(** All ranks when the loop is reached: nothing has been sent. *)
Definition initial_world (grids : list (grid * grid * float)) : world :=
  ((fun g => initial_process g.1.1 g.1.2 g.2) <$> grids, ∅).

Lemma initial_process_idle t last d : idle (initial_process t last d).
Proof. repeat split. Qed.

Lemma initial_world_quiet (ROWS COLUMNS : nat) grids :
  Forall (fun g => local_shape ROWS COLUMNS g.1.1 /\ local_shape ROWS COLUMNS g.1.2) grids ->
  quiet ROWS COLUMNS (initial_world grids).
Proof.
  intros H. split.
  - intros r p Hp. unfold initial_world in Hp. simpl in Hp.
    apply list_lookup_fmap_Some in Hp as (g & -> & Hg).
    split; [|apply initial_process_idle].
    rewrite Forall_forall in H. apply (H g). eapply list_elem_of_lookup_2, Hg.
  - intros r _. split; reflexivity.
Qed.

(** ** Every iteration of the run starts well formed *)

Lemma idle_well_formed (ROWS COLUMNS : nat) (p : process) (net : network) :
  shapes ROWS COLUMNS p -> idle p -> well_formed ROWS COLUMNS (p, net).
Proof.
  intros [Ht Hl] (H1 & H2 & H3 & H4). split; [exact Ht|]. split; [exact Hl|].
  intros h. destruct h; simpl; [rewrite H1|rewrite H2|rewrite H3|rewrite H4]; now left.
Qed.

Lemma engaged_well_formed (ROWS COLUMNS : nat) (r n : Z) (p : process) (net : network) :
  shapes ROWS COLUMNS p -> engaged ROWS r n p -> well_formed ROWS COLUMNS (p, net).
Proof.
  intros [Ht Hl] (H1 & H2 & H3 & H4). split; [exact Ht|]. split; [exact Hl|].
  intros h. destruct h; simpl; [rewrite H1|rewrite H2|rewrite H3|rewrite H4].
  - destruct (has_top r); [right; eauto|now left].
  - destruct (has_top r); [now right|now left].
  - destruct (has_bottom r n); [right; eauto|now left].
  - destruct (has_bottom r n); [now right|now left].
Qed.

(** Each state in which the loop condition is evaluated has every rank
    well formed: the per-rank results hold in every iteration of the run. *)
Lemma loop_rank_well_formed (ROWS COLUMNS : nat) (MAX_NUMBER_OF_ITERATIONS : Z)
    (st : loop_state) (r : nat) (p : process) :
  loop_invariant ROWS COLUMNS MAX_NUMBER_OF_ITERATIONS st ->
  (ranks st).1 !! r = Some p ->
  well_formed ROWS COLUMNS (p, (ranks st).2).
Proof.
  intros ([[Hq _]|[Hex _]] & _) Hp.
  - destruct (Hq r p Hp). now apply idle_well_formed.
  - destruct (Hex r p Hp) as (Hs & He & _). eapply engaged_well_formed; eauto.
Qed.

(** ** A send that is read late

    MPI may read the buffer of a non-blocking send at any time between the
    call of [MPI_Isend] and the return of the wait on its request. [exec]
    reads it at the call; [exec_late] is the other extreme and reads it when
    the wait returns. *)

(** The channel of the send a handle stands for: [top_send] is the send of
    line 140 (to [my_rank - 1], tag 1), [bottom_send] the send of line 147
    (to [my_rank + 1], tag 0). *)
Definition send_link (my_rank : Z) (h : handle) : Z * Z * Z :=
  match h with
  | TopSend => (my_rank, my_rank - 1, 1)%Z
  | _ => (my_rank, my_rank + 1, 0)%Z
  end.

(** One statement, with the buffer of a send read when the wait on it
    returns: [MPI_Isend] only records the request, and the wait hands the
    row, as it is then, to the network. Every other statement is as in
    [exec]. *)
Definition exec_late (ROWS COLUMNS : nat) (my_rank : Z) (c : command)
    (s : process * network) : option (process * network) :=
  match c with
  | MPI_Isend row dest tag h => Some (set_request h (Sending row) s.1, s.2)
  | MPI_Wait h =>
      match request_of h s.1 with
      | Sending row =>
          Some (set_request h MPI_REQUEST_NULL s.1,
                post (send_link my_rank h) (row_payload COLUMNS (temperature s.1) row) s.2)
      | _ => exec ROWS COLUMNS my_rank c s
      end
  | _ => exec ROWS COLUMNS my_rank c s
  end.

(** The statements [cs] executed by [step]. *)
Fixpoint run_with (step : command -> process * network -> option (process * network))
    (cs : list command) (s : process * network) : option (process * network) :=
  match cs with
  | [] => Some s
  | c :: cs => step c s ≫= run_with step cs
  end.

Lemma run_with_exec (ROWS COLUMNS : nat) (my_rank : Z) cs s :
  run_with (exec ROWS COLUMNS my_rank) cs s = run ROWS COLUMNS my_rank cs s.
Proof.
  revert s. induction cs as [|c cs IH]; intros s; simpl; [reflexivity|].
  destruct (exec ROWS COLUMNS my_rank c s); simpl; [apply IH|reflexivity].
Qed.

(** The link between ranks 0 and 1 of two. Both ranks launch their
    exchange and finish the iteration (lines 130-192); in the next iteration
    rank 0 goes up to the return of its wait on the bottom send (lines
    104-116) and rank 1 up to the return of its wait on the top receive
    (lines 104-105). The result is the top halo row of rank 1. *)
Definition halo_received (step : Z -> command -> process * network -> option (process * network))
    (ROWS COLUMNS : nat) (upper lower : process) : option (list float) :=
  s1 ← run_with (step 0%Z) (launch_exchange ROWS 0 2 ++ thread1 ROWS ++ closing) (upper, ∅);
  s2 ← run_with (step 1%Z) (launch_exchange ROWS 1 2 ++ thread1 ROWS ++ closing) (lower, s1.2);
  s3 ← run_with (step 0%Z)
         [MPI_Wait TopSend; MPI_Wait TopRecv; Relax 1; MPI_Wait BottomSend] (s1.1, s2.2);
  s4 ← run_with (step 1%Z) [MPI_Wait TopSend; MPI_Wait TopRecv] (s2.1, s3.2);
  Some (row_payload COLUMNS (temperature_last s4.1) 0).

(** The round trip as C4 words it, on that link: after the launch and the
    wait the top halo row of rank 1 is the row ROWS rank 0 had when it
    called [MPI_Isend]. *)
Definition halo_as_sent (step : Z -> command -> process * network -> option (process * network))
    (ROWS COLUMNS : nat) (upper lower : process) : Prop :=
  halo_received step ROWS COLUMNS upper lower =
  Some (row_payload COLUMNS (temperature upper) ROWS).

(** Statements other than waits do the same to the process whenever the
    send is read; read late, they leave the network alone. *)
Lemma exec_late_no_wait (ROWS COLUMNS : nat) (my_rank : Z) c p net p' net' net2 :
  (forall h, c <> MPI_Wait h) ->
  exec ROWS COLUMNS my_rank c (p, net) = Some (p', net') ->
  exec_late ROWS COLUMNS my_rank c (p, net2) = Some (p', net2).
Proof.
  intros Hc H.
  destruct c as [h|i|row source tag h|row dest tag h| | |];
    try (now destruct (Hc h)); unfold exec_late, exec in *; simpl in *;
    inversion H; subst; reflexivity.
Qed.

Lemma run_late_no_wait (ROWS COLUMNS : nat) (my_rank : Z) cs p net p' net' net2 :
  (forall c h, c ∈ cs -> c <> MPI_Wait h) ->
  run ROWS COLUMNS my_rank cs (p, net) = Some (p', net') ->
  run_with (exec_late ROWS COLUMNS my_rank) cs (p, net2) = Some (p', net2).
Proof.
  revert p net. induction cs as [|c cs IH]; intros p net Hcs H; simpl in *.
  - now inversion H.
  - destruct (exec ROWS COLUMNS my_rank c (p, net)) as [[p1 net1]|] eqn:E; [|discriminate].
    simpl in H.
    rewrite (exec_late_no_wait ROWS COLUMNS my_rank c p net p1 net1 net2); [|
      intros h; apply Hcs; apply elem_of_cons; now left|exact E].
    simpl. apply (IH p1 net1); [|exact H].
    intros c' h Hc'. apply Hcs. apply elem_of_cons. now right.
Qed.

Lemma second_half_no_wait (ROWS : nat) (r n : Z) c h :
  c ∈ launch_exchange ROWS r n ++ thread1 ROWS ++ closing -> c <> MPI_Wait h.
Proof.
  rewrite !elem_of_app. intros [H|[H|H]] ->.
  - now apply launch_exchange_ok in H.
  - apply list_elem_of_fmap in H as (i & E & _). discriminate.
  - unfold closing in H. rewrite !elem_of_cons, elem_of_nil in H.
    destruct H as [?|[?|[?|[]]]]; discriminate.
Qed.

(** With at least two rows per rank the round trip delivers the row as
    sent also when the send is read late. *)
Lemma late_read_as_sent (ROWS COLUMNS : nat) (upper lower : process) :
  2 <= ROWS ->
  shapes ROWS COLUMNS upper -> shapes ROWS COLUMNS lower ->
  idle upper -> idle lower ->
  halo_as_sent (exec_late ROWS COLUMNS) ROWS COLUMNS upper lower.
Proof.
  intros Hrows Hsu Hsl Hiu Hil. unfold halo_as_sent, halo_received.
  rewrite (run_late_no_wait ROWS COLUMNS 0 _ upper ∅ _ _ ∅
             (fun c h => second_half_no_wait ROWS 0 2 c h)
             (run_second_half ROWS COLUMNS 0 2 upper ∅)).
  cbn [mbind option_bind fst snd].
  rewrite (run_late_no_wait ROWS COLUMNS 1 _ lower ∅ _ _ ∅
             (fun c h => second_half_no_wait ROWS 1 2 c h)
             (run_second_half ROWS COLUMNS 1 2 lower ∅)).
  cbn [mbind option_bind fst snd].
  change (local_delta ROWS COLUMNS (relax_interior ROWS COLUMNS (launch ROWS 0 2 upper)))
    with (launched ROWS COLUMNS 2 0 upper).
  change (local_delta ROWS COLUMNS (relax_interior ROWS COLUMNS (launch ROWS 1 2 lower)))
    with (launched ROWS COLUMNS 2 1 lower).
  pose proof (launched_engaged ROWS COLUMNS 2 0 upper Hiu) as Heu.
  pose proof (launched_engaged ROWS COLUMNS 2 1 lower Hil) as Hel.
  pose proof (launched_shapes ROWS COLUMNS 2 0 upper Hsu) as [_ _].
  pose proof (launched_shapes ROWS COLUMNS 2 1 lower Hsl) as [_ Hll].
  pose proof (launched_boundary_row ROWS COLUMNS 2 0 upper ROWS Hsu (or_intror eq_refl)) as Hrow.
  destruct (launched ROWS COLUMNS 2 0 upper) as [tu lu tru tsu bru bsu du].
  destruct (launched ROWS COLUMNS 2 1 lower) as [tl ll trl tsl brl bsl dl].
  destruct Heu as (E1 & E2 & E3 & E4), Hel as (F1 & F2 & F3 & F4). simpl in *.
  subst tru tsu bru bsu trl tsl brl bsl.
  unfold exec_late, exec. simpl.
  rewrite channel_post_ne by discriminate. rewrite channel_post_eq.
  unfold channel at 1. rewrite lookup_empty. simpl.
  rewrite (row_payload_store_payload (ROWS + 2) COLUMNS) by
    (first [exact Hll|lia|apply length_row_payload]).
  rewrite row_payload_relax by lia. now rewrite Hrow.
Qed.

(** ** Ranks that do not run in lock step

    Between two all-reduces the ranks run independently of each other. A
    statement of a rank changes its own process and at most one channel: a
    completed receive takes the oldest message of a channel into the rank, a
    send appends a message to a channel out of it. So two statements of
    different ranks that can both execute can execute in either order, with
    the same result, and every order in which the ranks get through the
    iteration ends in the world of [world_iteration]. *)

(** What a statement does to the network. *)
Inductive effect :=
| Silent
| Take (key : Z * Z * Z)
| Put (key : Z * Z * Z) (payload : list float).

(** The rank that can have this effect: the destination of the channel
    it takes from, the source of the channel it puts into. *)
Definition owner (e : effect) (r : Z) : Prop :=
  match e with
  | Silent => True
  | Take key => key.1.2 = r
  | Put key _ => key.1.1 = r
  end.

(** The message handed over, if any, and the network left. *)
Definition effect_net (e : effect) (net : network) : option (option (list float) * network) :=
  match e with
  | Silent => Some (None, net)
  | Take key =>
      match channel net key with
      | payload :: rest => Some (Some payload, <[key := rest]> net)
      | [] => None
      end
  | Put key payload => Some (None, post key payload net)
  end.

Lemma effect_commute e e' (r r' : Z) net g n1 g' n2 :
  r <> r' -> owner e r -> owner e' r' ->
  effect_net e net = Some (g, n1) -> effect_net e' net = Some (g', n2) ->
  exists n12, effect_net e' n1 = Some (g', n12) /\ effect_net e n2 = Some (g, n12).
Proof.
  intros Hne Ho Ho' H H'.
  destruct e as [|k|k m]; simpl in H.
  { inversion H; subst. exists n2. split; [exact H'|reflexivity]. }
  - destruct (channel net k) as [|x rest] eqn:Ek; [discriminate|]. inversion H; subst.
    destruct e' as [|k'|k' m']; simpl in H'.
    + inversion H'; subst. exists (<[k := rest]> n2). simpl. now rewrite Ek.
    + destruct (channel net k') as [|x' rest'] eqn:Ek'; [discriminate|]. inversion H'; subst.
      assert (Hk : k <> k') by (simpl in Ho, Ho'; congruence).
      exists (<[k' := rest']> (<[k := rest]> net)). simpl.
      rewrite channel_insert_ne by exact Hk. rewrite Ek'.
      rewrite channel_insert_ne by congruence. rewrite Ek.
      split; [reflexivity|]. now rewrite insert_insert_ne by congruence.
    + inversion H'; subst. simpl. unfold post.
      destruct (decide (k = k')) as [<-|Hk].
      * exists (<[k := rest ++ [m']]> net).
        rewrite !channel_insert_eq, Ek, !insert_insert_eq. simpl. now rewrite insert_insert_eq.
      * exists (<[k' := channel net k' ++ [m']]> (<[k := rest]> net)).
        rewrite (channel_insert_ne net k k') by exact Hk.
        rewrite (channel_insert_ne net k' k) by congruence. rewrite Ek.
        split; [reflexivity|]. now rewrite insert_insert_ne by congruence.
  - inversion H; subst.
    destruct e' as [|k'|k' m']; simpl in H'.
    + inversion H'; subst. exists (post k m n2). split; reflexivity.
    + destruct (channel net k') as [|x' rest'] eqn:Ek'; [discriminate|]. inversion H'; subst.
      simpl. unfold post. destruct (decide (k = k')) as [<-|Hk].
      * exists (<[k := rest' ++ [m]]> net).
        rewrite !channel_insert_eq, Ek', !insert_insert_eq. simpl. now rewrite insert_insert_eq.
      * exists (<[k := channel net k ++ [m]]> (<[k' := rest']> net)).
        rewrite (channel_insert_ne net k k') by exact Hk. rewrite Ek'.
        rewrite (channel_insert_ne net k' k) by congruence.
        split; [now rewrite insert_insert_ne by congruence|reflexivity].
    + inversion H'; subst. simpl. unfold post.
      assert (Hk : k <> k') by (simpl in Ho, Ho'; congruence).
      exists (<[k' := channel net k' ++ [m']]> (<[k := channel net k ++ [m]]> net)).
      rewrite (channel_insert_ne net k k') by exact Hk.
      rewrite (channel_insert_ne net k' k) by congruence.
      split; [reflexivity|]. now rewrite insert_insert_ne by congruence.
Qed.

Section Asynchrony.

Variables ROWS COLUMNS : nat.

(** Every statement has one effect on the network, known from the process
    alone, and what it leaves in the process depends on the network through
    the message handed over only. *)
Lemma exec_effect (r : Z) (c : command) (p : process) :
  exists e f, owner e r /\
    forall net, exec ROWS COLUMNS r c (p, net) =
                x ← effect_net e net; Some (f x.1, x.2).
Proof.
  destruct c as [h|i|row source tag h|row dest tag h| | |].
  - destruct (request_of h p) as [|row|source tag row] eqn:E.
    + exists Silent, (fun _ => p). split; [exact I|]. intros net.
      unfold exec. simpl. now rewrite E.
    + exists Silent, (fun _ => set_request h MPI_REQUEST_NULL p). split; [exact I|].
      intros net. unfold exec. simpl. now rewrite E.
    + exists (Take (source, r, tag)),
        (fun g => match g with
                  | Some payload =>
                      set_request h MPI_REQUEST_NULL
                        (set_temperature_last
                           (store_payload (temperature_last p) row payload) p)
                  | None => p
                  end).
      split; [reflexivity|]. intros net. unfold exec. simpl. rewrite E.
      now destruct (channel net (source, r, tag)).
  - eexists Silent, (fun _ => _). split; [exact I|]. intros net. unfold exec. simpl. reflexivity.
  - eexists Silent, (fun _ => _). split; [exact I|]. intros net. unfold exec. simpl. reflexivity.
  - eexists (Put (r, dest, tag) _), (fun _ => _). split; [reflexivity|]. intros net. unfold exec. simpl. reflexivity.
  - eexists Silent, (fun _ => _). split; [exact I|]. intros net. unfold exec. simpl. reflexivity.
  - eexists Silent, (fun _ => _). split; [exact I|]. intros net. unfold exec. simpl. reflexivity.
  - eexists Silent, (fun _ => _). split; [exact I|]. intros net. unfold exec. simpl. reflexivity.
Qed.

(** Two statements of different ranks that can both execute can execute
    one after the other, in either order, with the same result. *)
Lemma exec_commute (r r' : Z) c c' p p' net q n1 q' n2 :
  r <> r' ->
  exec ROWS COLUMNS r c (p, net) = Some (q, n1) ->
  exec ROWS COLUMNS r' c' (p', net) = Some (q', n2) ->
  exists n12, exec ROWS COLUMNS r' c' (p', n1) = Some (q', n12) /\
              exec ROWS COLUMNS r c (p, n2) = Some (q, n12).
Proof.
  intros Hne H H'.
  destruct (exec_effect r c p) as (e & f & Ho & He).
  destruct (exec_effect r' c' p') as (e' & f' & Ho' & He').
  rewrite He in H. rewrite He' in H'.
  destruct (effect_net e net) as [[g m1]|] eqn:E; [|discriminate].
  destruct (effect_net e' net) as [[g' m2]|] eqn:E'; [|discriminate].
  simpl in H, H'. inversion H; subst. inversion H'; subst.
  destruct (effect_commute e e' r r' net g n1 g' n2 Hne Ho Ho' E E') as (n12 & E1 & E2).
  exists n12. rewrite He, He', E1, E2. split; reflexivity.
Qed.

(** The ranks in the middle of an iteration: every process with the
    statements it has still to execute, and the network. *)
Definition round : Type := list (process * list command) * network.

(** Rank [r] executes its next statement. *)
Definition rank_step (r : nat) (st : round) : option round :=
  x ← st.1 !! r;
  match x.2 with
  | [] => None
  | c :: cs =>
      s ← exec ROWS COLUMNS (Z.of_nat r) c (x.1, st.2);
      Some (<[r := (s.1, cs)]> st.1, s.2)
  end.

(** The ranks move in the order [rs]. *)
Fixpoint run_ranks (rs : list nat) (st : round) : option round :=
  match rs with
  | [] => Some st
  | r :: rs => rank_step r st ≫= run_ranks rs
  end.

(** Every rank is through. *)
Definition finished (st : round) : Prop := Forall (fun x => x.2 = []) st.1.

Lemma rank_step_inv r st st' :
  rank_step r st = Some st' ->
  exists p c cs q net',
    st.1 !! r = Some (p, c :: cs) /\
    exec ROWS COLUMNS (Z.of_nat r) c (p, st.2) = Some (q, net') /\
    st' = (<[r := (q, cs)]> st.1, net').
Proof.
  unfold rank_step. intros H.
  destruct (st.1 !! r) as [[p cs]|] eqn:E; [|discriminate]. simpl in H.
  destruct cs as [|c cs]; [discriminate|].
  destruct (exec ROWS COLUMNS (Z.of_nat r) c (p, st.2)) as [[q net']|] eqn:Ex; [|discriminate].
  simpl in H. inversion H; subst. now exists p, c, cs, q, net'.
Qed.

Lemma rank_step_intro r st p c cs q net' :
  st.1 !! r = Some (p, c :: cs) ->
  exec ROWS COLUMNS (Z.of_nat r) c (p, st.2) = Some (q, net') ->
  rank_step r st = Some (<[r := (q, cs)]> st.1, net').
Proof. intros E Ex. unfold rank_step. rewrite E. simpl. now rewrite Ex. Qed.

Lemma rank_step_diamond r r' st s1 s2 :
  r <> r' -> rank_step r st = Some s1 -> rank_step r' st = Some s2 ->
  exists s12, rank_step r' s1 = Some s12 /\ rank_step r s2 = Some s12.
Proof.
  intros Hne H H'.
  apply rank_step_inv in H as (p & c & cs & q & n1 & E & Ex & ->).
  apply rank_step_inv in H' as (p' & c' & cs' & q' & n2 & E' & Ex' & ->).
  destruct (exec_commute (Z.of_nat r) (Z.of_nat r') c c' p p' st.2 q n1 q' n2)
    as (n12 & X1 & X2); [lia|exact Ex|exact Ex'|].
  exists (<[r' := (q', cs')]> (<[r := (q, cs)]> st.1), n12). split.
  - apply (rank_step_intro r' (<[r := (q, cs)]> st.1, n1) p' c' cs' q' n12); simpl; [|exact X1].
    now rewrite list_lookup_insert_ne by exact Hne.
  - rewrite list_insert_insert_ne by congruence.
    apply (rank_step_intro r (<[r' := (q', cs')]> st.1, n2) p c cs q n12); simpl; [|exact X2].
    now rewrite list_lookup_insert_ne by congruence.
Qed.

Lemma rank_step_other r r' st st' :
  rank_step r st = Some st' -> r <> r' -> st'.1 !! r' = st.1 !! r'.
Proof.
  intros H Hne. apply rank_step_inv in H as (p & c & cs & q & n1 & _ & _ & ->). simpl.
  now apply list_lookup_insert_ne.
Qed.

Lemma run_ranks_other rs r st st' :
  run_ranks rs st = Some st' -> r ∉ rs -> st'.1 !! r = st.1 !! r.
Proof.
  revert st. induction rs as [|r0 rs IH]; intros st H Hr; simpl in H.
  - now inversion H.
  - destruct (rank_step r0 st) as [st1|] eqn:E; [|discriminate]. simpl in H.
    rewrite (IH st1 H) by (intros Hin; apply Hr; now apply elem_of_cons; right).
    apply (rank_step_other r0 r st st1 E). intros ->. apply Hr. apply elem_of_cons. now left.
Qed.

Lemma finished_no_step r st : finished st -> rank_step r st = None.
Proof.
  intros Hf. destruct (rank_step r st) as [st'|] eqn:E; [|reflexivity].
  apply rank_step_inv in E as (p & c & cs & q & n1 & E & _).
  unfold finished in Hf. rewrite Forall_forall in Hf.
  specialize (Hf (p, c :: cs) (list_elem_of_lookup_2 _ _ _ E)). discriminate.
Qed.

(** A step that can be taken now can be taken first in a run that takes
    it later. *)
Lemma run_ranks_move r E st st' F :
  rank_step r st = Some st' -> run_ranks E st = Some F -> r ∈ E ->
  exists E', run_ranks E' st' = Some F /\ length E = S (length E').
Proof.
  revert st st'. induction E as [|e E IH]; intros st st' Hr HE Hin.
  - now apply elem_of_nil in Hin.
  - simpl in HE. destruct (rank_step e st) as [s2|] eqn:He; [|discriminate]. simpl in HE.
    destruct (decide (e = r)) as [->|Hne].
    + exists E. split; [congruence|reflexivity].
    + assert (Hin' : r ∈ E) by (apply elem_of_cons in Hin as [->|?]; [contradiction|assumption]).
      destruct (rank_step_diamond r e st st' s2) as (s12 & H1 & H2); [congruence|exact Hr|exact He|].
      destruct (IH s2 s12 H2 HE Hin') as (E' & HE' & Hlen).
      exists (e :: E'). split; [simpl; rewrite H1; exact HE'|simpl; lia].
Qed.

(** From every state the ranks have reached, a run that gets every rank
    through can be completed to the same end. *)
Lemma run_ranks_confluent rs E st st' F :
  run_ranks rs st = Some st' -> run_ranks E st = Some F -> finished F ->
  exists E', run_ranks E' st' = Some F /\ length E = length rs + length E'.
Proof.
  revert st E. induction rs as [|r rs IH]; intros st E Hrs HE HF; simpl in Hrs.
  - inversion Hrs; subst. now exists E.
  - destruct (rank_step r st) as [s1|] eqn:Hr; [|discriminate]. simpl in Hrs.
    assert (Hin : r ∈ E).
    { destruct (decide (r ∈ E)) as [Hin|Hn]; [exact Hin|exfalso].
      pose proof (run_ranks_other E r st F HE Hn) as Eq.
      apply rank_step_inv in Hr as (p & c & cs & q & n1 & Ep & _).
      rewrite Ep in Eq. unfold finished in HF. rewrite Forall_forall in HF.
      specialize (HF _ (list_elem_of_lookup_2 _ _ _ Eq)). discriminate. }
    destruct (run_ranks_move r E st s1 F Hr HE Hin) as (E1 & HE1 & Hlen).
    destruct (IH s1 E1 Hrs HE1 HF) as (E' & HE' & Hlen').
    exists E'. split; [exact HE'|simpl; lia].
Qed.

(** So all the orders end in the same state after the same number of
    steps, and no order leads to a state in which nobody can move before
    every rank is through. *)
Lemma run_ranks_unique rs E st st' F :
  run_ranks rs st = Some st' -> run_ranks E st = Some F -> finished F ->
  (finished st' -> st' = F /\ length rs = length E) /\
  (~ finished st' -> exists r, is_Some (rank_step r st')).
Proof.
  intros Hrs HE HF.
  destruct (run_ranks_confluent rs E st st' F Hrs HE HF) as (E' & HE' & Hlen).
  destruct E' as [|r E'].
  - simpl in HE'. inversion HE'; subst. split; [intros _; split; [reflexivity|simpl in Hlen; lia]|].
    intros Hn. contradiction.
  - simpl in HE'. destruct (rank_step r st') as [s1|] eqn:Hr; [|discriminate]. split.
    + intros Hf. rewrite (finished_no_step r st' Hf) in Hr. discriminate.
    + intros _. exists r. rewrite Hr. eauto.
Qed.

(** *** The lock-step order is one of these orders *)

Definition world_of (st : round) : world := (fst <$> st.1, st.2).

(** Every rank at the start of an iteration, with the statements of its
    iteration, thread 0 first. *)
Definition round_start (w : world) : round :=
  (imap (fun r p => (p, sequential_schedule ROWS (Z.of_nat r) (Z.of_nat (length w.1)))) w.1,
   w.2).

(** Every rank through. *)
Definition round_end (w : world) : round := ((fun p => (p, [])) <$> w.1, w.2).

Lemma run_ranks_app rs rs' st :
  run_ranks (rs ++ rs') st = run_ranks rs st ≫= run_ranks rs'.
Proof.
  revert st. induction rs as [|r rs IH]; intros st; simpl; [reflexivity|].
  destruct (rank_step r st); simpl; [apply IH|reflexivity].
Qed.

Lemma run_ranks_length rs st st' :
  run_ranks rs st = Some st' -> length st'.1 = length st.1.
Proof.
  revert st. induction rs as [|r rs IH]; intros st H; simpl in H.
  - now inversion H.
  - destruct (rank_step r st) as [s1|] eqn:E; [|discriminate]. simpl in H.
    rewrite (IH s1 H). apply rank_step_inv in E as (p & c & cs & q & n1 & _ & _ & ->).
    simpl. apply length_insert.
Qed.

(** A rank that runs some of its statements in a row. *)
Lemma run_ranks_statements r cs rest st p s :
  st.1 !! r = Some (p, cs ++ rest) ->
  run ROWS COLUMNS (Z.of_nat r) cs (p, st.2) = Some s ->
  run_ranks (replicate (length cs) r) st = Some (<[r := (s.1, rest)]> st.1, s.2).
Proof.
  revert st p. induction cs as [|c cs IH]; intros st p Hp Hrun; simpl in Hrun.
  - inversion Hrun; subst. simpl. rewrite list_insert_id by exact Hp. now destruct st.
  - destruct (exec ROWS COLUMNS (Z.of_nat r) c (p, st.2)) as [[q n1]|] eqn:Ex; [|discriminate].
    simpl in Hrun. cbn [length replicate run_ranks].
    rewrite (rank_step_intro r st p c (cs ++ rest) q n1 Hp Ex). cbn [mbind option_bind].
    rewrite (IH (<[r := (q, cs ++ rest)]> st.1, n1) q); simpl.
    + now rewrite list_insert_insert_eq.
    + apply list_lookup_insert_eq. now apply lookup_lt_Some in Hp.
    + exact Hrun.
Qed.

Lemma on_rank_run_ranks (prog : Z -> list command) rest r st w' :
  (exists p, st.1 !! r = Some (p, prog (Z.of_nat r) ++ rest)) ->
  on_rank ROWS COLUMNS prog r (world_of st) = Some w' ->
  exists st', run_ranks (replicate (length (prog (Z.of_nat r))) r) st = Some st' /\
    world_of st' = w' /\
    (exists p', st'.1 !! r = Some (p', rest)) /\
    (forall r', r' <> r -> st'.1 !! r' = st.1 !! r').
Proof.
  intros [p Hp] H. unfold on_rank, world_of in H. simpl in H.
  rewrite list_lookup_fmap, Hp in H. simpl in H.
  destruct (run ROWS COLUMNS (Z.of_nat r) (prog (Z.of_nat r)) (p, st.2)) as [s|] eqn:Er;
    [|discriminate].
  simpl in H. inversion H; subst.
  exists (<[r := (s.1, rest)]> st.1, s.2).
  split; [now apply (run_ranks_statements r _ rest st p s)|].
  split; [unfold world_of; simpl; now rewrite list_fmap_insert|].
  split.
  - exists s.1. simpl. apply list_lookup_insert_eq. now apply lookup_lt_Some in Hp.
  - intros r' Hne. simpl. now apply list_lookup_insert_ne.
Qed.

Lemma foldl_on_rank_none (prog : Z -> list command) rs :
  foldl (fun ow r => ow ≫= on_rank ROWS COLUMNS prog r) None rs = None.
Proof. induction rs as [|r rs IH]; [reflexivity|exact IH]. Qed.

Lemma on_all_run_ranks (prog : Z -> list command) (rest : nat -> list command) rs st w' :
  NoDup rs ->
  (forall r, r ∈ rs -> exists p, st.1 !! r = Some (p, prog (Z.of_nat r) ++ rest r)) ->
  foldl (fun ow r => ow ≫= on_rank ROWS COLUMNS prog r) (Some (world_of st)) rs = Some w' ->
  exists E st', run_ranks E st = Some st' /\
    world_of st' = w' /\
    (forall r, r ∈ rs -> exists p', st'.1 !! r = Some (p', rest r)) /\
    (forall r, r ∉ rs -> st'.1 !! r = st.1 !! r).
Proof.
  intros Hnd. revert st. induction Hnd as [|r rs Hr Hnd IH]; intros st Hst H.
  - simpl in H. inversion H; subst. exists [], st. split; [reflexivity|].
    split; [reflexivity|]. split; [|reflexivity]. intros r Hin. now apply elem_of_nil in Hin.
  - simpl in H.
    destruct (on_rank ROWS COLUMNS prog r (world_of st)) as [w1|] eqn:E1;
      [|simpl in H; rewrite foldl_on_rank_none in H; discriminate].
    simpl in H.
    destruct (on_rank_run_ranks prog (rest r) r st w1) as (st1 & R1 & W1 & P1 & O1);
      [apply Hst; apply elem_of_cons; now left|exact E1|].
    subst w1.
    destruct (IH st1) as (E & st' & R & W & P & O); [|exact H|].
    { intros r0 Hin. rewrite O1 by (intros ->; contradiction).
      apply Hst. apply elem_of_cons. now right. }
    exists (replicate (length (prog (Z.of_nat r))) r ++ E), st'.
    split; [rewrite run_ranks_app, R1; exact R|]. split; [exact W|]. split.
    + intros r0 Hin. apply elem_of_cons in Hin as [->|Hin]; [|now apply P].
      rewrite (O r Hr). exact P1.
    + intros r0 Hn. rewrite O by (intros Hin; apply Hn; apply elem_of_cons; now right).
      apply O1. intros ->. apply Hn. apply elem_of_cons. now left.
Qed.

Lemma world_of_round_start w : world_of (round_start w) = w.
Proof.
  destruct w as [l net]. unfold world_of, round_start. simpl. f_equal.
  apply list_eq. intros i. rewrite list_lookup_fmap, list_lookup_imap.
  now destruct (l !! i).
Qed.

(** The iteration of [world_iteration] is the run of one order. *)
Lemma lockstep_run w w' :
  world_iteration ROWS COLUMNS w = Some w' ->
  exists E, run_ranks E (round_start w) = Some (round_end w').
Proof.
  unfold world_iteration. intros H.
  destruct (wait_phase ROWS COLUMNS w) as [w1|] eqn:Hw; [|discriminate]. simpl in H.
  unfold wait_phase, on_all in Hw. unfold launch_phase, on_all in H.
  set (n := length w.1) in *.
  rewrite <- (world_of_round_start w) in Hw.
  destruct (on_all_run_ranks (fun _ => boundary_rows ROWS)
              (fun r => launch_exchange ROWS (Z.of_nat r) (Z.of_nat n) ++ thread1 ROWS ++ closing)
              (seq 0 n) (round_start w) w1) as (E1 & st1 & R1 & W1 & P1 & _);
    [apply NoDup_seq| |exact Hw|].
  { intros r Hr. apply elem_of_seq in Hr.
    destruct (lookup_lt_is_Some_2 w.1 r) as [p Hp]; [fold n; lia|].
    exists p. unfold round_start. simpl. rewrite list_lookup_imap, Hp. simpl.
    unfold sequential_schedule, thread0. fold n. now rewrite <- app_assoc. }
  assert (Hlen1 : length st1.1 = n).
  { rewrite (run_ranks_length E1 _ _ R1). unfold round_start. simpl. now rewrite length_imap. }
  assert (Hn1 : length w1.1 = n).
  { rewrite <- W1. unfold world_of. simpl. now rewrite length_fmap. }
  rewrite Hn1 in H. rewrite <- W1 in H.
  destruct (on_all_run_ranks
              (fun r => launch_exchange ROWS r (Z.of_nat n) ++ thread1 ROWS ++ closing)
              (fun _ => []) (seq 0 n) st1 w') as (E2 & st2 & R2 & W2 & P2 & _);
    [apply NoDup_seq| |exact H|].
  { intros r Hr. destruct (P1 r Hr) as [p Hp]. exists p. now rewrite app_nil_r. }
  exists (E1 ++ E2). rewrite run_ranks_app, R1. cbn [mbind option_bind]. rewrite R2. f_equal.
  assert (Hlen2 : length st2.1 = n) by (rewrite (run_ranks_length E2 _ _ R2); exact Hlen1).
  destruct st2 as [l net]. unfold world_of in W2. simpl in *. subst w'.
  unfold round_end. simpl. f_equal. apply list_eq. intros i.
  rewrite !list_lookup_fmap. destruct (decide (i < n)) as [Hi|Hi].
  - destruct (P2 i) as [p Hp]; [apply elem_of_seq; lia|]. now rewrite Hp.
  - rewrite (lookup_ge_None_2 l i) by lia. reflexivity.
Qed.

(** In whatever order the ranks execute the statements of an iteration
    that [world_iteration] gets through: when every rank is through, the
    world is the one of [world_iteration]; before that, some rank can
    move. *)
Lemma asynchronous_iteration w w' rs st :
  world_iteration ROWS COLUMNS w = Some w' ->
  run_ranks rs (round_start w) = Some st ->
  (finished st -> st = round_end w') /\
  (~ finished st -> exists r, is_Some (rank_step r st)).
Proof.
  intros Hw Hrs. destruct (lockstep_run w w' Hw) as (E & HE).
  assert (HF : finished (round_end w')).
  { unfold finished, round_end. simpl. apply Forall_fmap, Forall_forall. now intros. }
  destruct (run_ranks_unique rs E (round_start w) st (round_end w') Hrs HE HF) as [H1 H2].
  split; [|exact H2]. intros Hf. now apply H1.
Qed.

(** This holds in the first iteration and in every later one. *)
Lemma asynchronous_iteration_spec w rs st :
  quiet ROWS COLUMNS w \/ exchanging ROWS COLUMNS w ->
  run_ranks rs (round_start w) = Some st ->
  exists w', world_iteration ROWS COLUMNS w = Some w' /\ exchanging ROWS COLUMNS w' /\
    (finished st -> st = round_end w') /\
    (~ finished st -> exists r, is_Some (rank_step r st)).
Proof.
  intros Hw Hrs. destruct (world_iteration_spec ROWS COLUMNS w Hw) as (w' & Hit & Hex & _).
  exists w'. split; [exact Hit|]. split; [exact Hex|].
  now apply (asynchronous_iteration w w' rs st).
Qed.

End Asynchrony.

(** ** Start-up checks, lines 46-66

    [provided] is the threading level [MPI_Init_thread] grants, [comm_size]
    what [MPI_Comm_size] returns, [VERSION_RUN] the macro of the makefile.
    [MPI_Abort] ends the run of every process with the given status and
    does not return. *)

(** The value of [MPI_THREAD_MULTIPLE] in <mpi.h> (the four levels are
    0 to 3 in MPICH and Open MPI). *)
Definition MPI_THREAD_MULTIPLE : Z := 3.

(** [EXIT_FAILURE] of <stdlib.h>. *)
Definition EXIT_FAILURE : Z := 1.

Definition newline : string := String (Ascii.ascii_of_nat 10) EmptyString.

(** [%d] *)
Definition show_int (z : Z) : string := NilZero.string_of_int (Z.to_int z).

Definition threading_diagnostic : string :=
  String.append "The threading support level is lesser than that demanded." newline.

Definition small_diagnostic (comm_size : Z) : string :=
  String.append "The small version is meant to be run with 2 MPI processes, not "
    (String.append (show_int comm_size) (String.append "." newline)).

Definition big_diagnostic (comm_size : Z) : string :=
  String.append "The big version is meant to be run with 8 MPI processes, not "
    (String.append (show_int comm_size) (String.append "." newline)).

Inductive startup_result :=
| Abort (status : Z)
| Proceed.

(** What the process prints and whether it goes on, lines 49-66. *)
Definition startup (VERSION_RUN : string) (provided comm_size : Z)
  : list string * startup_result :=
  if (provided <? MPI_THREAD_MULTIPLE)%Z then
    ([threading_diagnostic], Abort EXIT_FAILURE)
  else if String.eqb VERSION_RUN "hybrid_small" && negb (comm_size =? 2)%Z then
    ([small_diagnostic comm_size], Abort EXIT_FAILURE)
  else if String.eqb VERSION_RUN "hybrid_big" && negb (comm_size =? 8)%Z then
    ([big_diagnostic comm_size], Abort EXIT_FAILURE)
  else ([], Proceed).



(** ** A small configuration: four rows and two columns per rank *)

(** A local grid with a hot bottom halo. *)
Definition example_grid : grid :=
  [ [0; 0; 0; 0]; [0; 1; 2; 0]; [0; 3; 4; 0]; [0; 5; 6; 0]; [0; 7; 8; 0];
    [100; 100; 100; 100] ]%float.

(** A rank as left by [initialise_temperatures]: no transfer started. *)
Definition example_process : process :=
  Process example_grid example_grid
          MPI_REQUEST_NULL MPI_REQUEST_NULL MPI_REQUEST_NULL MPI_REQUEST_NULL 0%float.

(** Rank 0 of two at the start of a later iteration: its bottom row is
    being sent and its bottom halo is expected. *)
Definition example_sending : process :=
  Process example_grid example_grid
          MPI_REQUEST_NULL MPI_REQUEST_NULL (Receiving 1 1 5) (Sending 4) 0%float.

(** Two ranks before the first iteration. *)
Definition example_world : world := ([example_process; example_process], ∅).

(** A schedule of the two branches on rank 1 of two: the interior rows in
    the order 3, 2, merged into the statements of thread 0. *)
Definition example_schedule : list command :=
  [ Relax 3; MPI_Wait TopSend; MPI_Wait TopRecv; Relax 1;
    MPI_Wait BottomSend; MPI_Wait BottomRecv; Relax 4;
    MPI_Irecv 0 0 0 TopRecv; Relax 2; MPI_Isend 1 0 1 TopSend ].

(** The same on rank 0 of two. *)
Definition example_schedule_top : list command :=
  [ Relax 3; MPI_Wait TopSend; MPI_Wait TopRecv; Relax 1;
    MPI_Wait BottomSend; MPI_Wait BottomRecv; Relax 4;
    MPI_Isend 4 1 0 BottomSend; Relax 2; MPI_Irecv 5 1 1 BottomRecv ].

Lemma example_schedule_ok : compute_schedule 4 1 2 example_schedule.
Proof.
  exists [3; 2]. split; [apply perm_swap|].
  unfold example_schedule, thread0, boundary_rows, launch_exchange, interior_task. simpl.
  repeat first [apply interleaving_nil|apply interleaving_left|apply interleaving_right].
Qed.

Lemma example_schedule_top_ok : compute_schedule 4 0 2 example_schedule_top.
Proof.
  exists [3; 2]. split; [apply perm_swap|].
  unfold example_schedule_top, thread0, boundary_rows, launch_exchange, interior_task. simpl.
  repeat first [apply interleaving_nil|apply interleaving_left|apply interleaving_right].
Qed.

(** Rank 0 ahead of rank 1 in the second iteration: it sends its bottom
    row again before rank 1 has taken the one of the first iteration, and
    the channel holds both, the older one first. *)
Example rank_ahead :
  exists w1 st,
    world_iteration 4 2 example_world = Some w1 /\
    run_ranks 4 2 (replicate 7 0) (round_start 4 w1) = Some st /\
    length (channel w1.2 (0, 1, 0)%Z) = 1 /\
    exists sent, channel st.2 (0, 1, 0)%Z = channel w1.2 (0, 1, 0)%Z ++ [sent].
Proof.
  eexists. eexists. split; [vm_compute; reflexivity|].
  split; [vm_compute; reflexivity|]. split; [reflexivity|].
  eexists. vm_compute. reflexivity.
Qed.

(** A local grid of a rank with a single row, and rank 0 of two at the
    start of a later iteration: its only row is being sent downward. *)
Definition single_row_grid : grid :=
  [ [0; 0; 0; 0]; [0; 1; 2; 0]; [100; 100; 100; 100] ]%float.

Definition single_row_sending : process :=
  Process single_row_grid single_row_grid
          MPI_REQUEST_NULL MPI_REQUEST_NULL MPI_REQUEST_NULL (Sending 1) 0%float.

Lemma single_row_sending_well_formed : well_formed 1 2 (single_row_sending, ∅).
Proof.
  split; [|split].
  - split; [reflexivity|]. repeat constructor.
  - split; [reflexivity|]. repeat constructor.
  - intros h. destruct h; simpl; try (now left); now right.
Qed.

(** Modelled from the spec: a threshold for the examples, the binary64
    value nearest to the 0.01 of the spec's scenarios. The macro
    [MAX_TEMP_ERROR] of [util.h] is not in the source tree: it is a
    parameter of every theorem. *)
Definition spec_MAX_TEMP_ERROR : float := 0x1.47ae147ae147bp-7%float.

(** ** The properties of the specification *)

Lemma example_process_well_formed : well_formed 4 2 (example_process, ∅).
Proof.
  split; [|split].
  - split; [reflexivity|]. repeat constructor.
  - split; [reflexivity|]. repeat constructor.
  - intros h. destruct h; simpl; now left.
Qed.

(** The update as C1 words it: in every iteration, whatever team the
    parallel region gets, after the compute phase every local cell of
    [temperature] holds the stencil of [temperature_last]. *)
Definition stencil_update_holds (ROWS COLUMNS : nat) (my_rank comm_size : Z) : Prop :=
  forall team sched s s',
    team_schedule ROWS my_rank comm_size team sched ->
    well_formed ROWS COLUMNS s ->
    run ROWS COLUMNS my_rank sched s = Some s' ->
    forall i j, 1 <= i <= ROWS -> 1 <= j <= COLUMNS ->
      cell (temperature s'.1) i j =
        (0.25 * (cell (temperature_last s'.1) (i + 1) j +
                 cell (temperature_last s'.1) (i - 1) j +
                 cell (temperature_last s'.1) i (j + 1) +
                 cell (temperature_last s'.1) i (j - 1)))%float.

(** C1, as stated, fails on rank 1 of two ranks (four rows per rank) when
    the parallel region gets one thread: nobody runs the second branch, and
    cell (2, 1) keeps its 3 where the stencil is 2.5. *)
Lemma C1_counterexample : ~ stencil_update_holds 4 2 1 2.
Proof.
  intros H.
  destruct (run 4 2 1 (thread0 4 1 2) (example_process, ∅)) as [s'|] eqn:E;
    [|vm_compute in E; discriminate].
  specialize (H 1 (thread0 4 1 2) (example_process, ∅) s' eq_refl
                example_process_well_formed E 2 1 ltac:(lia) ltac:(lia)).
  vm_compute in E. injection E as <-.
  apply (f_equal (fun x => PrimFloat.eqb x 3)) in H. vm_compute in H. discriminate.
Qed.

(** C1, amended. In an iteration that starts in any well-formed state of a
    rank: when the parallel region runs with its two threads, under any
    schedule of them, once both are done every cell (i, j) with
    1 <= i <= ROWS and 1 <= j <= COLUMNS of [temperature] holds
    0.25 * (last[i+1][j] + last[i-1][j] + last[i][j+1] + last[i][j-1]) where
    last is [temperature_last], halo rows included; when the region gets a
    single thread this holds of rows 1 and ROWS, and rows 2 .. ROWS-1 of
    [temperature] are left as they were. In both cases the local rows of
    [temperature_last] are still those of the start of the iteration. *)
Theorem C1_stencil_update (ROWS COLUMNS : nat) (my_rank comm_size : Z) (team : nat)
    (sched : list command) (s s' : process * network) :
  team_schedule ROWS my_rank comm_size team sched ->
  well_formed ROWS COLUMNS s ->
  run ROWS COLUMNS my_rank sched s = Some s' ->
  forall i j, 1 <= i <= ROWS -> 1 <= j <= COLUMNS ->
    (team = 2 \/ i = 1 \/ i = ROWS ->
     cell (temperature s'.1) i j =
       (0.25 * (cell (temperature_last s'.1) (i + 1) j +
                cell (temperature_last s'.1) (i - 1) j +
                cell (temperature_last s'.1) i (j + 1) +
                cell (temperature_last s'.1) i (j - 1)))%float) /\
    (team = 1 -> i <> 1 -> i <> ROWS ->
     cell (temperature s'.1) i j = cell (temperature s.1) i j) /\
    (forall j', cell (temperature_last s'.1) i j' = cell (temperature_last s.1) i j').
Proof.
  intros Hteam Hwf Hrun i j Hr Hc.
  assert (Hpos : 1 <= ROWS) by lia.
  destruct team as [|[|[|team]]]; simpl in Hteam; try contradiction.
  - subst sched.
    destruct (thread0_alone ROWS COLUMNS my_rank comm_size s s' Hpos Hwf Hrun)
      as (H1 & HR & Hlast & Hkept).
    split; [|split].
    + intros [E|[->| ->]]; [discriminate|exact (H1 j Hc)|exact (HR j Hc)].
    + intros _ N1 NR. now apply Hkept.
    + intros j'. now apply Hlast.
  - destruct Hteam as (order & Hord & Hi).
    destruct (compute_phase_relaxed ROWS COLUMNS my_rank comm_size order Hord sched s s'
                Hpos Hi Hwf Hrun) as [_ Hrel].
    split; [|split].
    + intros _. exact (Hrel i Hr j Hc).
    + discriminate.
    + intros j'.
      exact (compute_phase_last ROWS COLUMNS my_rank comm_size order Hord sched s s'
               Hi Hwf Hrun i j' Hr).
Qed.

Lemma C1_witness :
  exists s', run 4 2 1 example_schedule (example_process, ∅) = Some s' /\
    cell (temperature s'.1) 4 1 =
      (0.25 * (cell (temperature_last s'.1) 5 1 + cell (temperature_last s'.1) 3 1 +
               cell (temperature_last s'.1) 4 2 + cell (temperature_last s'.1) 4 0))%float.
Proof.
  eexists. split; [vm_compute; reflexivity|].
  refine (proj1 (C1_stencil_update 4 2 1 2 2 example_schedule (example_process, ∅) _
                   _ _ _ 4 1 _ _) _).
  - exact example_schedule_ok.
  - exact example_process_well_formed.
  - vm_compute; reflexivity.
  - lia.
  - lia.
  - now left.
Defined.

(** C2. The closing phase of an iteration always returns. The delta pass
    leaves in [dt] the largest of 0 and the differences
    |temperature[i][j] - temperature_last[i][j]| over the cells with
    1 <= i <= ROWS and 1 <= j <= COLUMNS (it bounds every difference that is
    a number and is 0 or one of them), computed in the order of the loops;
    in the same pass every such cell of [temperature_last] takes the value
    of [temperature], every other cell of [temperature_last] is kept, and
    [temperature] is not changed. *)
Theorem C2_local_delta_and_copy (ROWS COLUMNS : nat) (my_rank : Z) (s : process * network) :
  local_shape ROWS COLUMNS (temperature_last s.1) ->
  exists s',
    run ROWS COLUMNS my_rank closing s = Some s' /\
    local_maximum ROWS COLUMNS (temperature s.1) (temperature_last s.1) (dt s'.1) /\
    dt s'.1 = fold_max 0 (abs_delta (temperature s.1) (temperature_last s.1)
                            <$> local_cells ROWS COLUMNS) /\
    (forall i j, 1 <= i <= ROWS -> 1 <= j <= COLUMNS ->
       cell (temperature_last s'.1) i j = cell (temperature s'.1) i j) /\
    (forall i j, ~ (1 <= i <= ROWS /\ 1 <= j <= COLUMNS) ->
       cell (temperature_last s'.1) i j = cell (temperature_last s.1) i j) /\
    temperature s'.1 = temperature s.1.
Proof.
  intros Hl. rewrite run_closing. eexists. split; [reflexivity|]. simpl.
  destruct (delta_pass_spec ROWS COLUMNS (temperature s.1) (temperature_last s.1) Hl)
    as (_ & Hcells & Hdt).
  rewrite Hdt. split; [apply fold_max_local_maximum|]. split; [reflexivity|].
  split; [|split; [|reflexivity]].
  - intros i j Hi Hj. rewrite Hcells. now rewrite decide_True.
  - intros i j Hn. rewrite Hcells. now rewrite decide_False.
Qed.

Lemma C2_witness :
  exists s', run 4 2 0 closing (example_process, ∅) = Some s' /\
    cell (temperature_last s'.1) 1 1 = cell (temperature s'.1) 1 1.
Proof.
  destruct (C2_local_delta_and_copy 4 2 0 (example_process, ∅)) as (s' & Hrun & _ & _ & Hc & _).
  - split; [reflexivity|]. repeat constructor.
  - exists s'. split; [exact Hrun|]. apply Hc; lia.
Defined.

Lemma example_world_quiet : quiet 4 2 example_world.
Proof.
  split.
  - intros r p Hp. destruct r as [|[|r]]; simpl in Hp; inversion Hp; subst.
    + split; [|repeat split]. split; (split; [reflexivity|repeat constructor]).
    + split; [|repeat split]. split; (split; [reflexivity|repeat constructor]).
  - intros r Hr. simpl in Hr. assert (r = 0) as -> by lia. split; reflexivity.
Qed.

(** The loop is left at once when its condition is false. *)
Lemma relaxation_loop_exit (ROWS COLUMNS : nat) (MAX_NUMBER_OF_ITERATIONS : Z)
    (MAX_TEMP_ERROR : float) (fuel : nat) (st : loop_state) :
  loop_condition MAX_NUMBER_OF_ITERATIONS MAX_TEMP_ERROR st = false ->
  relaxation_loop ROWS COLUMNS MAX_NUMBER_OF_ITERATIONS MAX_TEMP_ERROR fuel st = Finished st.
Proof. intros H. destruct fuel; simpl; now rewrite H. Qed.

(** The exit of the loop as C3 words it, for every configuration: the loop
    finishes after at most MAX_NUMBER_OF_ITERATIONS + 1 executions of its
    body, with the global delta at or below the threshold or the counter
    above the cap, and the counter at most MAX_NUMBER_OF_ITERATIONS + 1. *)
Definition loop_exits_as_claimed (ROWS COLUMNS : nat) (MAX_NUMBER_OF_ITERATIONS : Z)
    (MAX_TEMP_ERROR : float) (initial : world) : Prop :=
  exists fuel st,
    relaxation_loop ROWS COLUMNS MAX_NUMBER_OF_ITERATIONS MAX_TEMP_ERROR fuel
      (loop_start initial) = Finished st /\
    (Z.of_nat (executions st) <= MAX_NUMBER_OF_ITERATIONS + 1)%Z /\
    (Double.le (dt_global st) MAX_TEMP_ERROR \/ (MAX_NUMBER_OF_ITERATIONS < iteration st)%Z) /\
    (iteration st <= MAX_NUMBER_OF_ITERATIONS + 1)%Z.

(** After an iteration the local delta of every rank is a number that is
    not negative. *)
Lemma world_iteration_dt (ROWS COLUMNS : nat) (w : world) :
  quiet ROWS COLUMNS w \/ exchanging ROWS COLUMNS w ->
  exists w', world_iteration ROWS COLUMNS w = Some w' /\ exchanging ROWS COLUMNS w' /\
    forall r p, w'.1 !! r = Some p -> Double.le 0 (dt p).
Proof.
  intros H. unfold world_iteration.
  assert (Hw : exists w1, wait_phase ROWS COLUMNS w = Some w1 /\ quiet ROWS COLUMNS w1).
  { destruct H as [H|H].
    - destruct (wait_quiet ROWS COLUMNS w H) as (w1 & ? & ? & _). eauto.
    - destruct (wait_exchanging ROWS COLUMNS w H) as (w1 & ? & ? & _). eauto. }
  destruct Hw as (w1 & -> & Hq). cbn [mbind option_bind].
  destruct (launch_quiet ROWS COLUMNS w1 Hq) as (w' & Hrun & Hex & _).
  destruct Hq as [Hranks Hlinks].
  destruct (launch_phase_spec ROWS COLUMNS w1 Hlinks) as (w'' & Hrun' & Hdone & _).
  rewrite Hrun in Hrun'. inversion Hrun'; subst w''.
  exists w'. split; [exact Hrun|]. split; [exact Hex|].
  intros r p Hp. destruct (done_below_inv _ _ _ r p Hdone Hp) as (p0 & Hp0 & ->).
  rewrite launched_dt by (apply (Hranks r p0 Hp0)). now apply fold_max_ge_init.
Qed.

Lemma allreduce_max_nonneg ds : Forall (Double.le 0) ds -> Double.le 0 (allreduce_max ds).
Proof.
  destruct ds as [|d ds]; [reflexivity|]. intros H. apply Forall_cons in H as [Hd _].
  simpl. apply (Double.le_trans _ d); [exact Hd|].
  apply fold_max_ge_init. now destruct (Double.le_ordered _ _ Hd).
Qed.

(** A delta that is not negative is above a negative threshold. *)
Lemma gt_negative d t : Double.le 0 d -> Double.gt 0 t = true -> Double.gt d t = true.
Proof.
  intros Hd Ht. destruct (Double.gt d t) eqn:E; [reflexivity|]. exfalso.
  apply (Double.gt_true_not_le 0 t Ht). apply (Double.le_trans _ d); [exact Hd|].
  apply Double.gt_false_le; [now destruct (Double.le_ordered _ _ Hd)| |exact E].
  assert (Hle : Double.le t 0).
  { apply Double.le_sf, Double.sf_ltb_le. unfold Double.gt in Ht.
    now rewrite <- FloatAxioms.ltb_spec. }
  now destruct (Double.le_ordered _ _ Hle).
Qed.

(** With the cap at INT_MAX no [int] exceeds the cap: under a negative
    threshold the loop is never left. *)
Lemma cap_never_exceeded (ROWS COLUMNS : nat) (MAX_TEMP_ERROR : float) (fuel : nat)
    (st : loop_state) :
  Double.gt 0 MAX_TEMP_ERROR = true ->
  quiet ROWS COLUMNS (ranks st) \/ exchanging ROWS COLUMNS (ranks st) ->
  Double.le 0 (dt_global st) ->
  (iteration st <= INT_MAX)%Z ->
  relaxation_loop ROWS COLUMNS INT_MAX MAX_TEMP_ERROR fuel st = OutOfFuel.
Proof.
  intros Ht. revert st. induction fuel as [|fuel IH]; intros st Hw Hd Hit.
  - simpl. unfold loop_condition. rewrite (gt_negative _ _ Hd Ht). simpl.
    now rewrite (proj2 (Z.leb_le _ _) Hit).
  - simpl. unfold loop_condition. rewrite (gt_negative _ _ Hd Ht). simpl.
    rewrite (proj2 (Z.leb_le _ _) Hit).
    destruct (world_iteration_dt ROWS COLUMNS (ranks st) Hw) as (w' & Hrun & Hex & Hdt).
    unfold loop_body. rewrite Hrun. cbn [mbind option_bind].
    apply IH; simpl.
    + now right.
    + apply allreduce_max_nonneg. apply Forall_fmap, Forall_forall. intros p Hp.
      apply list_elem_of_lookup in Hp as [r Hp]. now apply (Hdt r).
    + unfold int_incr, INT_MAX in *. destruct (Z.eqb_spec (iteration st) 2147483647); lia.
Qed.

(** C3, as stated, fails for a threshold that is no number (the loop is
    left at the first test with the delta not at or below the threshold and
    the counter not above the cap), for a cap below -1 (the counter, 0 at
    the exit, is above the cap plus one) and for the cap INT_MAX under a
    negative threshold (the delta stays above the threshold, no [int] is
    above the cap, and the loop is never left). *)
Lemma C3_counterexample :
  ~ loop_exits_as_claimed 4 2 3 nan example_world /\
  ~ loop_exits_as_claimed 4 2 (-2) 1 example_world /\
  ~ loop_exits_as_claimed 4 2 INT_MAX (-1) example_world.
Proof.
  split; [|split]; intros (fuel & st & Hrun & Hex & Hexit & Hit).
  - rewrite relaxation_loop_exit in Hrun by reflexivity. inversion Hrun; subst st.
    simpl in *. destruct Hexit as [H|H]; [discriminate H|lia].
  - rewrite relaxation_loop_exit in Hrun by reflexivity. inversion Hrun; subst st.
    simpl in *. lia.
  - rewrite cap_never_exceeded in Hrun; [discriminate|reflexivity| |reflexivity|].
    + left. exact example_world_quiet.
    + simpl. unfold INT_MAX. lia.
Qed.

(** C3, amended. With a cap of at least -1 and below INT_MAX and a
    threshold that is a number: from grids as initialised, with no transfer
    started, the loop finishes whatever the grids and the number of ranks:
    no wait blocks, and any fuel of at least
    MAX_NUMBER_OF_ITERATIONS + 1 suffices. The body runs at most
    MAX_NUMBER_OF_ITERATIONS + 1 times, the counter equals the number of
    body executions and is at most MAX_NUMBER_OF_ITERATIONS + 1 at exit. The
    loop is left at the first evaluation of its condition at which the
    global delta is at or below MAX_TEMP_ERROR or the counter exceeds the
    cap: at no earlier evaluation did either hold. *)
Theorem C3_loop_terminates (ROWS COLUMNS : nat) (MAX_NUMBER_OF_ITERATIONS : Z)
    (MAX_TEMP_ERROR : float) (initial : world) (fuel : nat) :
  quiet ROWS COLUMNS initial ->
  (-1 <= MAX_NUMBER_OF_ITERATIONS < INT_MAX)%Z ->
  Double.ordered MAX_TEMP_ERROR ->
  Z.to_nat MAX_NUMBER_OF_ITERATIONS + 1 <= fuel ->
  exists st before,
    relaxation_loop ROWS COLUMNS MAX_NUMBER_OF_ITERATIONS MAX_TEMP_ERROR fuel
      (loop_start initial) = Finished st /\
    loop_tests ROWS COLUMNS MAX_NUMBER_OF_ITERATIONS MAX_TEMP_ERROR fuel
      (loop_start initial) = before ++ [st] /\
    length before = executions st /\
    executions st <= Z.to_nat MAX_NUMBER_OF_ITERATIONS + 1 /\
    iteration st = Z.of_nat (executions st) /\
    (iteration st <= MAX_NUMBER_OF_ITERATIONS + 1)%Z /\
    Forall (fun s => ~ (Double.le (dt_global s) MAX_TEMP_ERROR \/
                        (MAX_NUMBER_OF_ITERATIONS < iteration s)%Z)) before /\
    (Double.le (dt_global st) MAX_TEMP_ERROR \/ (MAX_NUMBER_OF_ITERATIONS < iteration st)%Z).
Proof.
  intros Hq [Hmax0 Hmax] Ht Hfuel.
  assert (Hinv : loop_invariant ROWS COLUMNS MAX_NUMBER_OF_ITERATIONS (loop_start initial)).
  { repeat split; simpl; auto; lia. }
  destruct (relaxation_loop_from ROWS COLUMNS MAX_NUMBER_OF_ITERATIONS MAX_TEMP_ERROR fuel
              (loop_start initial) Hmax Hinv) as (st & Hrun & Hinv' & Hc & _).
  { simpl. lia. }
  destruct (loop_tests_finished ROWS COLUMNS MAX_NUMBER_OF_ITERATIONS MAX_TEMP_ERROR fuel
              _ _ Hrun) as (before & Htests & Hcont & Hlen).
  pose proof (loop_tests_invariant ROWS COLUMNS MAX_NUMBER_OF_ITERATIONS MAX_TEMP_ERROR fuel
                (loop_start initial) Hmax Hinv) as Hall.
  rewrite Htests in Hall. apply Forall_app in Hall as [Hbefore _].
  destruct Hinv' as (_ & Hit & Hle & Hord).
  exists st, before. split; [exact Hrun|]. split; [exact Htests|].
  split; [simpl in Hlen; lia|]. split; [lia|]. split; [exact Hit|]. split; [exact Hle|].
  split.
  - apply Forall_forall. intros s Hs.
    rewrite Forall_forall in Hcont, Hbefore.
    specialize (Hcont s Hs). destruct (Hbefore s Hs) as (_ & _ & _ & Hords).
    rewrite <- (loop_condition_false MAX_NUMBER_OF_ITERATIONS MAX_TEMP_ERROR s Hords Ht).
    congruence.
  - now apply (loop_condition_false MAX_NUMBER_OF_ITERATIONS MAX_TEMP_ERROR st Hord Ht).
Qed.

Lemma C3_witness :
  exists st before,
    relaxation_loop 4 2 3 spec_MAX_TEMP_ERROR 4 (loop_start example_world) = Finished st /\
    loop_tests 4 2 3 spec_MAX_TEMP_ERROR 4 (loop_start example_world) = before ++ [st] /\
    length before = executions st /\
    executions st <= Z.to_nat 3 + 1 /\
    iteration st = Z.of_nat (executions st) /\
    (iteration st <= 3 + 1)%Z /\
    Forall (fun s => ~ (Double.le (dt_global s) spec_MAX_TEMP_ERROR \/
                        (3 < iteration s)%Z)) before /\
    (Double.le (dt_global st) spec_MAX_TEMP_ERROR \/ (3 < iteration st)%Z).
Proof.
  apply (C3_loop_terminates 4 2 3 spec_MAX_TEMP_ERROR example_world 4).
  - exact example_world_quiet.
  - unfold INT_MAX. lia.
  - reflexivity.
  - simpl. lia.
Defined.

(** The loop is entered whenever the threshold is below the seed of
    [dt_global] and the cap is not negative. *)
Lemma loop_entered (ROWS COLUMNS : nat) (MAX_NUMBER_OF_ITERATIONS : Z)
    (MAX_TEMP_ERROR : float) (initial : world) (fuel : nat) :
  quiet ROWS COLUMNS initial ->
  (0 <= MAX_NUMBER_OF_ITERATIONS < INT_MAX)%Z ->
  Double.gt 100 MAX_TEMP_ERROR = true ->
  Z.to_nat MAX_NUMBER_OF_ITERATIONS + 1 <= fuel ->
  loop_condition MAX_NUMBER_OF_ITERATIONS MAX_TEMP_ERROR (loop_start initial) = true /\
  exists st,
    relaxation_loop ROWS COLUMNS MAX_NUMBER_OF_ITERATIONS MAX_TEMP_ERROR fuel
      (loop_start initial) = Finished st /\
    1 <= executions st.
Proof.
  intros Hq [Hmax0 Hmax] Hgt Hfuel.
  assert (Hc : loop_condition MAX_NUMBER_OF_ITERATIONS MAX_TEMP_ERROR (loop_start initial) = true).
  { unfold loop_condition. simpl. rewrite Hgt. simpl. apply Z.leb_le. exact Hmax0. }
  split; [exact Hc|].
  pose proof (loop_start_invariant ROWS COLUMNS MAX_NUMBER_OF_ITERATIONS initial Hq Hmax0) as Hinv.
  destruct (relaxation_loop_from ROWS COLUMNS MAX_NUMBER_OF_ITERATIONS MAX_TEMP_ERROR fuel
              (loop_start initial) Hmax Hinv) as (st & Hrun & _ & _ & _ & Hlt).
  { simpl. lia. }
  exists st. split; [exact Hrun|]. specialize (Hlt Hc). simpl in Hlt. lia.
Qed.

(** The claim of C9 for a cap and a threshold: the seed of [dt_global] is
    above the threshold and the loop body runs at least once. *)
Definition body_runs_once (ROWS COLUMNS : nat) (MAX_NUMBER_OF_ITERATIONS : Z)
    (MAX_TEMP_ERROR : float) (initial : world) : Prop :=
  Double.gt (dt_global (loop_start initial)) MAX_TEMP_ERROR = true /\
  exists fuel st,
    relaxation_loop ROWS COLUMNS MAX_NUMBER_OF_ITERATIONS MAX_TEMP_ERROR fuel
      (loop_start initial) = Finished st /\
    1 <= executions st.

(** C9, as stated, fails for a threshold of 100 and for one that is no
    number (the seed is not above it) and for a negative cap (the seed is
    above the threshold, yet the body never runs). *)
Lemma C9_counterexample :
  ~ body_runs_once 4 2 3 100 example_world /\
  ~ body_runs_once 4 2 3 nan example_world /\
  ~ body_runs_once 4 2 (-1) 1 example_world.
Proof.
  split; [|split].
  - intros [H _]. discriminate H.
  - intros [H _]. discriminate H.
  - intros (_ & fuel & st & Hrun & Hex).
    rewrite relaxation_loop_exit in Hrun by reflexivity. inversion Hrun; subst st.
    simpl in Hex. lia.
Qed.

(** C9, amended. For every threshold below the seed 100 of [dt_global],
    every cap that is not negative and every initial world: the loop
    condition holds at the first evaluation, the first execution of the body
    returns, and a run of the loop that finishes has executed the body at
    least once; with a cap below INT_MAX the loop does finish. *)
Theorem C9_loop_body_runs_once (ROWS COLUMNS : nat) (MAX_NUMBER_OF_ITERATIONS : Z)
    (MAX_TEMP_ERROR : float) (initial : world) :
  quiet ROWS COLUMNS initial ->
  (0 <= MAX_NUMBER_OF_ITERATIONS)%Z ->
  Double.gt 100 MAX_TEMP_ERROR = true ->
  dt_global (loop_start initial) = 100%float /\
  loop_condition MAX_NUMBER_OF_ITERATIONS MAX_TEMP_ERROR (loop_start initial) = true /\
  (exists st1, loop_body ROWS COLUMNS (loop_start initial) = Some st1 /\ executions st1 = 1) /\
  (forall fuel st,
     relaxation_loop ROWS COLUMNS MAX_NUMBER_OF_ITERATIONS MAX_TEMP_ERROR fuel
       (loop_start initial) = Finished st -> 1 <= executions st) /\
  ((MAX_NUMBER_OF_ITERATIONS < INT_MAX)%Z ->
   forall fuel, Z.to_nat MAX_NUMBER_OF_ITERATIONS + 1 <= fuel ->
   exists st,
     relaxation_loop ROWS COLUMNS MAX_NUMBER_OF_ITERATIONS MAX_TEMP_ERROR fuel
       (loop_start initial) = Finished st /\
     1 <= executions st).
Proof.
  intros Hq Hmax Hgt.
  assert (Hc : loop_condition MAX_NUMBER_OF_ITERATIONS MAX_TEMP_ERROR (loop_start initial) = true).
  { unfold loop_condition. simpl. rewrite Hgt. simpl. apply Z.leb_le. exact Hmax. }
  destruct (world_iteration_spec ROWS COLUMNS initial (or_introl Hq)) as (w & Hw & _).
  assert (Hb : loop_body ROWS COLUMNS (loop_start initial) =
               Some (LoopState w (int_incr 0) (allreduce_max (dt <$> w.1)) 1)).
  { unfold loop_body. simpl. rewrite Hw. reflexivity. }
  split; [reflexivity|]. split; [exact Hc|]. split; [eexists; split; [exact Hb|reflexivity]|].
  split.
  - intros fuel st Hrun. destruct fuel as [|fuel]; simpl in Hrun; rewrite Hc in Hrun;
      [discriminate|].
    rewrite Hb in Hrun.
    destruct (loop_tests_finished ROWS COLUMNS MAX_NUMBER_OF_ITERATIONS MAX_TEMP_ERROR fuel
                _ _ Hrun) as (before & _ & _ & Hlen).
    simpl in Hlen. lia.
  - intros Hlt fuel Hfuel.
    now apply (loop_entered ROWS COLUMNS MAX_NUMBER_OF_ITERATIONS MAX_TEMP_ERROR initial fuel).
Qed.

Lemma C9_witness :
  dt_global (loop_start example_world) = 100%float /\
  loop_condition 3 1 (loop_start example_world) = true /\
  (exists st1, loop_body 4 2 (loop_start example_world) = Some st1 /\ executions st1 = 1) /\
  (forall fuel st,
     relaxation_loop 4 2 3 1 fuel (loop_start example_world) = Finished st ->
     1 <= executions st) /\
  ((3 < INT_MAX)%Z ->
   forall fuel, Z.to_nat 3 + 1 <= fuel ->
   exists st,
     relaxation_loop 4 2 3 1 fuel (loop_start example_world) = Finished st /\
     1 <= executions st).
Proof.
  apply (C9_loop_body_runs_once 4 2 3 1 example_world).
  - exact example_world_quiet.
  - lia.
  - reflexivity.
Defined.

(** C4, as stated, fails with a single row per rank when the send is read
    late: row 1 is also row ROWS, rank 0 rewrites it (line 109) before it
    waits on the send of row ROWS (line 116), and rank 1 receives the
    rewritten row, 25.5 and 25.25, where 1 and 2 were sent. *)
Lemma C4_counterexample :
  ~ halo_as_sent (exec_late 1 2) 1 2
      (initial_process single_row_grid single_row_grid 0)
      (initial_process single_row_grid single_row_grid 0).
Proof.
  intros H.
  apply (f_equal (fun o => match o with
                           | Some (x :: _) => PrimFloat.eqb x 1
                           | _ => false
                           end)) in H.
  vm_compute in H. discriminate.
Qed.

(** Read at the call, the same exchange delivers the row as sent; with
    four rows it does so whenever the send is read. *)
Example single_row_read_at_call :
  halo_as_sent (exec 1 2) 1 2
    (initial_process single_row_grid single_row_grid 0)
    (initial_process single_row_grid single_row_grid 0).
Proof. vm_compute. reflexivity. Qed.

Example four_rows_read_late :
  halo_as_sent (exec_late 4 2) 4 2 example_process example_process.
Proof. vm_compute. reflexivity. Qed.

(** C4, amended. With at least two rows per rank: from a world in which
    nothing is in flight (every rank has done its waits), the launch of the
    exchange on every rank followed by the waits of the next iteration never
    blocks, and for every pair of neighbouring ranks r (upper) and r+1
    (lower): the upper rank sends its row ROWS downward under tag 0 and the
    lower rank its row 1 upward under tag 1, the matching receives name the
    same peer and tag, each of the two channels of the link holds exactly
    that one row after the launch and none after the waits, and afterwards
    cells 1..COLUMNS of the top halo row of rank r+1 are exactly the row
    ROWS that rank r had when it sent and cells 1..COLUMNS of the bottom
    halo row of rank r are exactly the row 1 of rank r+1. The rows sent are
    not written while the sends are pending: in every schedule of the next
    iteration, when a rank starts the wait on one of its sends, the row this
    send reads is still the row it had at the launch; so, on the link
    between ranks 0 and 1 of two, the halo received is the row as sent also
    when the send is read as late as the wait on it. *)
Theorem C4_halo_round_trip (ROWS COLUMNS : nat) (w : world) :
  2 <= ROWS ->
  quiet ROWS COLUMNS w ->
  exists w1 w2,
    launch_phase ROWS COLUMNS w = Some w1 /\
    wait_phase ROWS COLUMNS w1 = Some w2 /\
    (forall r, r + 1 < length w.1 ->
      let n := Z.of_nat (length w.1) in
      let upper := Z.of_nat r in
      let lower := (Z.of_nat r + 1)%Z in
      MPI_Isend ROWS lower 0 BottomSend ∈ launch_exchange ROWS upper n /\
      MPI_Irecv 0 upper 0 TopRecv ∈ launch_exchange ROWS lower n /\
      MPI_Isend 1 upper 1 TopSend ∈ launch_exchange ROWS lower n /\
      MPI_Irecv (ROWS + 1) lower 1 BottomRecv ∈ launch_exchange ROWS upper n /\
      channel w1.2 (upper, lower, 0%Z) = [row_of COLUMNS w r ROWS] /\
      channel w1.2 (lower, upper, 1%Z) = [row_of COLUMNS w (r + 1) 1] /\
      channel w2.2 (upper, lower, 0%Z) = [] /\
      channel w2.2 (lower, upper, 1%Z) = [] /\
      halo_of COLUMNS w2 (r + 1) 0 = row_of COLUMNS w r ROWS /\
      halo_of COLUMNS w2 r (ROWS + 1) = row_of COLUMNS w (r + 1) 1) /\
    (forall r p1 net sched h row s',
      w1.1 !! r = Some p1 ->
      compute_schedule ROWS (Z.of_nat r) (Z.of_nat (length w.1)) sched ->
      request_of h p1 = Sending row ->
      (MPI_Wait h, s') ∈ visits ROWS COLUMNS (Z.of_nat r) sched (p1, net) ->
      row_payload COLUMNS (temperature s'.1) row = row_of COLUMNS w r row) /\
    (forall upper lower,
      shapes ROWS COLUMNS upper -> shapes ROWS COLUMNS lower -> idle upper -> idle lower ->
      halo_as_sent (exec_late ROWS COLUMNS) ROWS COLUMNS upper lower).
Proof.
  intros Hrows2 Hq.
  destruct (launch_quiet ROWS COLUMNS w Hq) as (w1 & Hl & Hex & Hlen1 & Hrows).
  destruct (wait_exchanging ROWS COLUMNS w1 Hex) as (w2 & Hw & Hq2 & Hlen2 & Hhalo).
  exists w1, w2. split; [exact Hl|]. split; [exact Hw|]. split; [|split].
  - intros r Hr. cbv zeta.
    assert (Hub : (Z.of_nat r =? Z.of_nat (length w.1) - 1)%Z = false) by (apply Z.eqb_neq; lia).
    assert (Hl0 : (Z.of_nat r + 1 =? 0)%Z = false) by (apply Z.eqb_neq; lia).
    assert (Hlu : (Z.of_nat r + 1 - 1)%Z = Z.of_nat r) by lia.
    destruct Hex as [_ Hch1], Hq2 as [_ Hch2].
    destruct (Hch1 r) as [Hd1 Hu1]; [lia|]. destruct (Hch2 r) as [Hd2 Hu2]; [lia|].
    destruct (Hrows r) as [_ Er], (Hrows (r + 1)) as [Er1 _].
    destruct (Hhalo r) as [Hh1 Hh2]; [lia|].
    unfold link_down, link_up in *.
    split; [|split; [|split; [|split]]].
    + unfold launch_exchange. rewrite Hub. simpl. rewrite !elem_of_app, !elem_of_cons. tauto.
    + unfold launch_exchange. rewrite Hl0, Hlu. simpl. rewrite !elem_of_cons. tauto.
    + unfold launch_exchange. rewrite Hl0, Hlu. simpl. rewrite !elem_of_cons. tauto.
    + unfold launch_exchange. rewrite Hub. simpl. rewrite !elem_of_app, !elem_of_cons. tauto.
    + rewrite Hd1, Hu1, Hd2, Hu2, Hh1, Hh2, Er, Er1. repeat split; reflexivity.
  - intros r p1 net sched h row s' Hp1 (order & Hord & Hi) Hh Hv.
    destruct Hex as [Hranks _]. destruct (Hranks r p1 Hp1) as (Hsh & Hen & _).
    rewrite Hlen1 in Hen.
    pose proof (engaged_well_formed ROWS COLUMNS _ _ p1 net Hsh Hen) as Hwf.
    pose proof (send_buffer_kept ROWS COLUMNS (Z.of_nat r) (Z.of_nat (length w.1)) order Hord
                  sched (p1, net) h row s' Hrows2 Hi Hwf Hh Hv) as Hkept.
    assert (Hrow : row = 1 \/ row = ROWS).
    { destruct Hwf as (_ & _ & Hreq). specialize (Hreq h). simpl in Hreq. rewrite Hh in Hreq.
      destruct h; simpl in Hreq.
      - destruct Hreq as [?|(? & ? & ?)]; discriminate.
      - destruct Hreq as [?|E]; [discriminate|]. inversion E. now left.
      - destruct Hreq as [?|(? & ? & ?)]; discriminate.
      - destruct Hreq as [?|E]; [discriminate|]. inversion E. now right. }
    transitivity (row_of COLUMNS w1 r row).
    + unfold row_of. rewrite Hp1. unfold row_payload. apply map_ext. intros j. apply Hkept.
    + destruct (Hrows r) as [E1 ER]. destruct Hrow as [-> | ->]; assumption.
  - intros upper lower. now apply late_read_as_sent.
Qed.

Lemma C4_witness :
  exists w1 w2,
    launch_phase 4 2 example_world = Some w1 /\
    wait_phase 4 2 w1 = Some w2 /\
    channel w1.2 (0, 1, 0)%Z = [row_of 2 example_world 0 4] /\
    channel w2.2 (0, 1, 0)%Z = [] /\
    halo_of 2 w2 1 0 = row_of 2 example_world 0 4 /\
    halo_of 2 w2 0 5 = row_of 2 example_world 1 1.
Proof.
  destruct (C4_halo_round_trip 4 2 example_world ltac:(lia) example_world_quiet)
    as (w1 & w2 & Hl & Hw & H & _ & _).
  exists w1, w2. split; [exact Hl|]. split; [exact Hw|].
  destruct (H 0) as (_ & _ & _ & _ & H1 & _ & H2 & _ & H3 & H4); [simpl; lia|].
  repeat split; assumption.
Defined.

(** The statements of one iteration on rank 1 of two ranks with four
    rows, thread 0 first. *)
Example sequential_schedule_rank1 :
  sequential_schedule 4 1 2 =
  [ MPI_Wait TopSend; MPI_Wait TopRecv; Relax 1;
    MPI_Wait BottomSend; MPI_Wait BottomRecv; Relax 4;
    MPI_Irecv 0 0 0 TopRecv; MPI_Isend 1 0 1 TopSend;
    Relax 2; Relax 3;
    ResetDt; Barrier; DeltaPass ].
Proof. reflexivity. Qed.

Lemma example_iteration_ok : iteration_schedule 4 1 2 (example_schedule ++ closing).
Proof. exists example_schedule. split; [exact example_schedule_ok|reflexivity]. Qed.

(** The launch of the exchange comes after the delta pass: C5 as the spec
    words it, for the statements [cs] of one iteration. *)
Definition launch_after_delta_pass (cs : list command) : Prop :=
  forall c, c ∈ cs -> is_launch c = true -> precedes cs DeltaPass c.

(** C5, as stated, fails on rank 1 of two ranks (four rows per rank): its
    receive into the top halo is launched, and the delta pass does not come
    before it. *)
Lemma C5_counterexample : ~ launch_after_delta_pass (example_schedule ++ closing).
Proof.
  intros H. specialize (H (MPI_Irecv 0 0 0 TopRecv)).
  assert (Hin : MPI_Irecv 0 0 0 TopRecv ∈ example_schedule ++ closing).
  { apply (bool_decide_unpack _). vm_compute. exact I. }
  specialize (H Hin eq_refl).
  destruct example_schedule_ok as (order & Hord & Hi).
  destruct (launch_position 4 1 2 order Hord example_schedule _ Hi Hin eq_refl)
    as (_ & _ & _ & _ & Hn).
  now apply Hn.
Qed.

(** C5, amended. In every schedule of an iteration, on every rank, each
    launched transfer comes after the writes of both boundary rows (rows 1
    and ROWS of [temperature]) and before the barrier and the delta pass
    with its copy-forward; the delta pass never comes before a launch. *)
Theorem C5_launch_before_delta_pass (ROWS : nat) (my_rank comm_size : Z)
    (cs : list command) (c : command) :
  iteration_schedule ROWS my_rank comm_size cs ->
  c ∈ cs -> is_launch c = true ->
  precedes cs (Relax 1) c /\
  precedes cs (Relax ROWS) c /\
  precedes cs c Barrier /\
  precedes cs c DeltaPass /\
  ~ precedes cs DeltaPass c.
Proof.
  intros (sched & (order & Hord & Hi) & ->) Hc Hl.
  now apply (launch_position ROWS my_rank comm_size order Hord).
Qed.

Lemma C5_witness :
  precedes (example_schedule ++ closing) (Relax 1) (MPI_Isend 1 0 1 TopSend) /\
  precedes (example_schedule ++ closing) (Relax 4) (MPI_Isend 1 0 1 TopSend) /\
  precedes (example_schedule ++ closing) (MPI_Isend 1 0 1 TopSend) Barrier /\
  precedes (example_schedule ++ closing) (MPI_Isend 1 0 1 TopSend) DeltaPass /\
  ~ precedes (example_schedule ++ closing) DeltaPass (MPI_Isend 1 0 1 TopSend).
Proof.
  apply (C5_launch_before_delta_pass 4 1 2).
  - exact example_iteration_ok.
  - apply (bool_decide_unpack _). vm_compute. exact I.
  - reflexivity.
Defined.

(** The protection of the send buffers as C6 words it, without a
    condition on the number of rows: in every schedule of an iteration, no
    row is written while a handle holds a send of it. *)
Definition send_buffer_protected (ROWS COLUMNS : nat) (my_rank comm_size : Z) : Prop :=
  forall sched s i s',
    compute_schedule ROWS my_rank comm_size sched ->
    well_formed ROWS COLUMNS s ->
    (Relax i, s') ∈ visits ROWS COLUMNS my_rank sched s ->
    ~ send_in_flight i s'.1.

(** C6, as stated, fails with a single row per rank: row 1 is also row
    ROWS, and its first write of an iteration (line 109) comes before the
    wait on the bottom send (line 116), which still reads it. *)
Lemma C6_counterexample : ~ send_buffer_protected 1 2 0 2.
Proof.
  intros H.
  apply (H (thread0 1 0 2) (single_row_sending, ∅) 1 (single_row_sending, ∅)).
  - exists []. split; [reflexivity|].
    rewrite <- (app_nil_r (thread0 1 0 2)) at 2. apply interleaving_sequential.
  - exact single_row_sending_well_formed.
  - apply (list_elem_of_lookup_2 _ 2). vm_compute. reflexivity.
  - now exists BottomSend.
Qed.

(** C6, amended. With at least two rows per rank, in an iteration that
    starts in any well-formed state, so also with the sends of the previous
    iteration in flight, and under any schedule of the two threads: whenever
    a row of
    [temperature] is about to be rewritten, no send that reads this row is
    in flight; the write of row 1 finds the top send handle waited for and
    free, the write of row ROWS the bottom send handle. *)
Theorem C6_send_buffer_not_overwritten (ROWS COLUMNS : nat) (my_rank comm_size : Z)
    (sched : list command) (s : process * network) (i : nat) (s' : process * network) :
  2 <= ROWS ->
  compute_schedule ROWS my_rank comm_size sched ->
  well_formed ROWS COLUMNS s ->
  (Relax i, s') ∈ visits ROWS COLUMNS my_rank sched s ->
  (i = 1 -> top_send s'.1 = MPI_REQUEST_NULL) /\
  (i = ROWS -> bottom_send s'.1 = MPI_REQUEST_NULL) /\
  ~ send_in_flight i s'.1 /\
  precedes sched (MPI_Wait TopSend) (Relax 1) /\
  precedes sched (MPI_Wait BottomSend) (Relax ROWS).
Proof.
  intros Hrows (order & Hord & Hi) Hwf Hv.
  destruct (relax_not_in_flight ROWS COLUMNS my_rank comm_size order Hord sched s i s'
              Hrows Hi Hwf Hv) as (H1 & H2 & H3).
  split; [exact H1|]. split; [exact H2|]. split; [exact H3|].
  split; apply (interleaving_precedes _ _ _ _ _ Hi); unfold thread0, boundary_rows;
    apply precedes_app_l.
  - now exists [], [MPI_Wait TopRecv], [MPI_Wait BottomSend; MPI_Wait BottomRecv; Relax ROWS].
  - now exists [MPI_Wait TopSend; MPI_Wait TopRecv; Relax 1], [MPI_Wait BottomRecv], [].
Qed.

Lemma example_sending_well_formed : well_formed 4 2 (example_sending, ∅).
Proof.
  split; [|split].
  - split; [reflexivity|]. repeat constructor.
  - split; [reflexivity|]. repeat constructor.
  - intros h. destruct h; simpl; try (now left); right; eauto.
Qed.

(** The state of [example_sending] once row 3 is relaxed. *)
Definition example_sending_row3 : process :=
  set_temperature (relax_row 2 example_grid 3 example_grid) example_sending.

(** The network when rank 1 of two has sent its row 1 upward. *)
Definition example_network : network := post (1, 0, 1)%Z [9; 9]%float ∅.

(** Rank 0 in [example_schedule_top] from [example_sending] when it
    reaches the update of row 4: row 3 and row 1 are relaxed, the wait on
    the bottom send has returned and the bottom halo has arrived. *)
Definition example_before_row4 : process * network :=
  (Process (relax_row 2 example_grid 1 (relax_row 2 example_grid 3 example_grid))
           (store_payload example_grid 5 [9; 9]%float)
           MPI_REQUEST_NULL MPI_REQUEST_NULL MPI_REQUEST_NULL MPI_REQUEST_NULL 0%float,
   <[(1, 0, 1)%Z := []]> example_network).

Lemma example_sending_network_well_formed : well_formed 4 2 (example_sending, example_network).
Proof.
  split; [|split].
  - split; [reflexivity|]. repeat constructor.
  - split; [reflexivity|]. repeat constructor.
  - intros h. destruct h; simpl; try (now left); right; eauto.
Qed.

Lemma C6_witness :
  (4 = 1 -> top_send example_before_row4.1 = MPI_REQUEST_NULL) /\
  (4 = 4 -> bottom_send example_before_row4.1 = MPI_REQUEST_NULL) /\
  ~ send_in_flight 4 example_before_row4.1 /\
  precedes example_schedule_top (MPI_Wait TopSend) (Relax 1) /\
  precedes example_schedule_top (MPI_Wait BottomSend) (Relax 4).
Proof.
  apply (C6_send_buffer_not_overwritten 4 2 0 2 example_schedule_top
           (example_sending, example_network) 4 example_before_row4).
  - lia.
  - exact example_schedule_top_ok.
  - exact example_sending_network_well_formed.
  - apply (list_elem_of_lookup_2 _ 6). vm_compute. reflexivity.
Defined.

(** The peer and the handle of a transfer. *)
Definition peer_of (c : command) : option Z :=
  match c with
  | MPI_Irecv _ source _ _ => Some source
  | MPI_Isend _ dest _ _ => Some dest
  | _ => None
  end.

Definition handle_of (c : command) : option handle :=
  match c with
  | MPI_Irecv _ _ _ h | MPI_Isend _ _ _ h => Some h
  | _ => None
  end.

(** C7. Every transfer launched in an iteration, under any schedule, is one
    of the four of [launch_exchange] with its guard true: a transfer on a
    top handle is launched only when my_rank is not 0 and goes to
    my_rank - 1, one on a bottom handle only when my_rank is not
    comm_size - 1 and goes to my_rank + 1; the peer is a rank of the
    communicator; rank 0 launches nothing on its top handles, rank
    comm_size - 1 nothing on its bottom handles, and the single rank of a
    one-process run launches nothing at all. *)
Theorem C7_transfer_only_to_neighbour (ROWS : nat) (my_rank comm_size : Z)
    (cs : list command) (c : command) :
  iteration_schedule ROWS my_rank comm_size cs ->
  c ∈ cs -> is_launch c = true ->
  launch_exact ROWS my_rank comm_size c /\
  ((0 <= my_rank < comm_size)%Z ->
   exists peer, peer_of c = Some peer /\ (0 <= peer < comm_size)%Z /\
                (peer = my_rank - 1 \/ peer = my_rank + 1)%Z) /\
  (my_rank = 0%Z -> handle_of c <> Some TopRecv /\ handle_of c <> Some TopSend) /\
  (my_rank = (comm_size - 1)%Z ->
   handle_of c <> Some BottomRecv /\ handle_of c <> Some BottomSend) /\
  ~ (comm_size = 1%Z /\ my_rank = 0%Z).
Proof.
  intros (sched & (order & Hord & Hi) & ->) Hc Hl.
  destruct (schedule_launch ROWS my_rank comm_size order Hord sched c Hi Hc Hl) as [_ Hin].
  pose proof (launch_exchange_exact ROWS my_rank comm_size c Hin) as Hex.
  split; [exact Hex|].
  destruct c as [h|i|row source tag h|row dest tag h| | |]; try discriminate; simpl in *.
  - split; [|split; [|split]].
    + intros Hr. exists source. split; [reflexivity|].
      destruct Hex as [(? & ? & ? & -> & ?)|(? & ? & ? & -> & ?)]; lia.
    + intros ->. destruct Hex as [(? & ? & ?)|(? & -> & ?)]; [lia|]. split; discriminate.
    + intros E. destruct Hex as [(? & -> & ?)|(? & ? & ?)]; [|lia]. split; discriminate.
    + intros [-> ->]. destruct Hex as [(? & ?)|(? & ?)]; lia.
  - split; [|split; [|split]].
    + intros Hr. exists dest. split; [reflexivity|].
      destruct Hex as [(? & ? & ? & -> & ?)|(? & ? & ? & -> & ?)]; lia.
    + intros ->. destruct Hex as [(? & ? & ?)|(? & -> & ?)]; [lia|]. split; discriminate.
    + intros E. destruct Hex as [(? & -> & ?)|(? & ? & ?)]; [|lia]. split; discriminate.
    + intros [-> ->]. destruct Hex as [(? & ?)|(? & ?)]; lia.
Qed.

Lemma C7_witness :
  launch_exact 4 1 2 (MPI_Isend 1 0 1 TopSend) /\
  ((0 <= 1 < 2)%Z ->
   exists peer, peer_of (MPI_Isend 1 0 1 TopSend) = Some peer /\ (0 <= peer < 2)%Z /\
                (peer = 1 - 1 \/ peer = 1 + 1)%Z) /\
  (1%Z = 0%Z -> handle_of (MPI_Isend 1 0 1 TopSend) <> Some TopRecv /\
                handle_of (MPI_Isend 1 0 1 TopSend) <> Some TopSend) /\
  (1%Z = (2 - 1)%Z ->
   handle_of (MPI_Isend 1 0 1 TopSend) <> Some BottomRecv /\
   handle_of (MPI_Isend 1 0 1 TopSend) <> Some BottomSend) /\
  ~ (2%Z = 1%Z /\ 1%Z = 0%Z).
Proof.
  apply (C7_transfer_only_to_neighbour 4 1 2 (example_schedule ++ closing)).
  - exact example_iteration_ok.
  - apply (bool_decide_unpack _). vm_compute. exact I.
  - reflexivity.
Defined.

(** A one-process run launches no transfer in any schedule of any
    iteration. *)
Lemma single_process_no_transfer (ROWS : nat) (cs : list command) (c : command) :
  iteration_schedule ROWS 0 1 cs -> c ∈ cs -> is_launch c = false.
Proof.
  intros (sched & (order & Hord & Hi) & ->) Hc. destruct (is_launch c) eqn:E; [|reflexivity].
  destruct (schedule_launch ROWS 0 1 order Hord sched c Hi Hc E) as [_ Hin].
  now apply elem_of_nil in Hin.
Qed.





Example startup_small_with_three_processes :
  startup "hybrid_small" 3 3 = ([small_diagnostic 3], Abort 1) /\
  small_diagnostic 3 =
    String.append "The small version is meant to be run with 2 MPI processes, not 3." newline.
Proof. split; reflexivity. Qed.

Example startup_big_with_eight_processes : startup "hybrid_big" 3 8 = ([], Proceed).
Proof. reflexivity. Qed.

Example startup_low_threading : startup "hybrid_small" 2 2 = ([threading_diagnostic], Abort 1).
Proof. reflexivity. Qed.







(** * Further properties of the code *)

(** ** Numbers that are no negative zero

    [0.0] and the values of [fabs] have the sign bit clear; two of them
    that compare equal are the same binary64 value. *)

Definition sign_clear (x : float) : Prop :=
  match Prim2SF x with
  | S754_zero s | S754_infinity s | S754_finite s _ _ => s = false
  | S754_nan => True
  end.

Lemma sign_clear_zero : sign_clear 0%float.
Proof. reflexivity. Qed.

Lemma sign_clear_fabs x : sign_clear (Double.fabs x).
Proof.
  unfold sign_clear, Double.fabs. rewrite FloatAxioms.abs_spec.
  now destruct (Prim2SF x).
Qed.

Lemma le_antisym x y :
  sign_clear x -> sign_clear y -> Double.le x y -> Double.le y x -> x = y.
Proof.
  unfold sign_clear, Double.le. rewrite !FloatAxioms.leb_spec. intros Hx Hy H1 H2.
  apply FloatAxioms.Prim2SF_inj.
  destruct (Prim2SF x) as [sx|sx| |sx mx ex], (Prim2SF y) as [sy|sy| |sy my ey];
    subst; try reflexivity; try discriminate.
  unfold SFleb, SFcompare in H1, H2.
  destruct (Z.compare_spec ex ey) as [E|E|E].
  - subst ey. rewrite Z.compare_refl in H2.
    change (Pos.compare_cont Eq mx my) with (Pos.compare mx my) in H1.
    change (Pos.compare_cont Eq my mx) with (Pos.compare my mx) in H2.
    destruct (Pos.compare_spec mx my) as [Em|Em|Em].
    + now subst.
    + apply Pos.compare_gt_iff in Em. rewrite Em in H2. discriminate.
    + discriminate.
  - apply Z.compare_gt_iff in E. rewrite E in H2. discriminate.
  - discriminate.
Qed.

(** ** The parallel region of one rank, lines 98-194 *)

Lemma sequential_schedule_ok (ROWS : nat) (my_rank comm_size : Z) :
  iteration_schedule ROWS my_rank comm_size (sequential_schedule ROWS my_rank comm_size).
Proof.
  exists (thread0 ROWS my_rank comm_size ++ thread1 ROWS). split.
  - exists (interior_rows ROWS). split; [reflexivity|apply interleaving_sequential].
  - unfold sequential_schedule. now rewrite app_assoc.
Qed.

(** X1. The two threads of the parallel region do not race: from a
    well-formed state of a rank, any two schedules of an iteration (thread 0
    merged in any way with the interior rows taken in any order, then the
    closing phase) end in the same process state and the same network, and
    one blocks in a wait exactly when the other does. *)
Theorem X1_schedule_independent (ROWS COLUMNS : nat) (my_rank comm_size : Z)
    (cs cs' : list command) (s : process * network) :
  iteration_schedule ROWS my_rank comm_size cs ->
  iteration_schedule ROWS my_rank comm_size cs' ->
  well_formed ROWS COLUMNS s ->
  run ROWS COLUMNS my_rank cs s = run ROWS COLUMNS my_rank cs' s.
Proof.
  intros H H' Hwf.
  rewrite (iteration_schedule_deterministic ROWS COLUMNS my_rank comm_size cs s H Hwf).
  now rewrite (iteration_schedule_deterministic ROWS COLUMNS my_rank comm_size cs' s H' Hwf).
Qed.

Lemma X1_witness :
  run 4 2 1 (example_schedule ++ closing) (example_process, ∅) =
  run 4 2 1 (sequential_schedule 4 1 2) (example_process, ∅).
Proof.
  apply (X1_schedule_independent 4 2 1 2).
  - exact example_iteration_ok.
  - apply sequential_schedule_ok.
  - exact example_process_well_formed.
Defined.

(** X2. [dt = 0.0] stands under [omp single nowait]: the thread that
    reaches it first executes it, maybe while the other thread is still in
    its branch. Wherever it falls among the statements of the two branches,
    the iteration ends as if it were executed right before the barrier. *)
Theorem X2_reset_dt_position (ROWS COLUMNS : nat) (my_rank comm_size : Z)
    (before after : list command) (s : process * network) :
  compute_schedule ROWS my_rank comm_size (before ++ after) ->
  run ROWS COLUMNS my_rank (before ++ ResetDt :: after ++ [Barrier; DeltaPass]) s =
  run ROWS COLUMNS my_rank ((before ++ after) ++ closing) s.
Proof. apply reset_dt_anywhere. Qed.

Lemma X2_witness :
  run 4 2 1 ([Relax 3; MPI_Wait TopSend; MPI_Wait TopRecv; Relax 1] ++
             ResetDt ::
             [MPI_Wait BottomSend; MPI_Wait BottomRecv; Relax 4;
              MPI_Irecv 0 0 0 TopRecv; Relax 2; MPI_Isend 1 0 1 TopSend] ++
             [Barrier; DeltaPass]) (example_process, ∅) =
  run 4 2 1 (([Relax 3; MPI_Wait TopSend; MPI_Wait TopRecv; Relax 1] ++
              [MPI_Wait BottomSend; MPI_Wait BottomRecv; Relax 4;
               MPI_Irecv 0 0 0 TopRecv; Relax 2; MPI_Isend 1 0 1 TopSend]) ++ closing)
    (example_process, ∅).
Proof.
  apply (X2_reset_dt_position 4 2 1 2). exact example_schedule_ok.
Defined.

Lemma local_maximum_sign_clear (ROWS COLUMNS : nat) t last d :
  local_maximum ROWS COLUMNS t last d -> sign_clear d.
Proof.
  intros (_ & _ & [->|(i & j & _ & _ & ->)]); [apply sign_clear_zero|apply sign_clear_fabs].
Qed.

(** X3. The delta loop nest is an [omp for] with a [max] reduction: its
    iterations are dealt out to the threads. In whatever order the cells
    [1..ROWS] x [1..COLUMNS] are visited, [temperature_last] ends with the
    same cells and [dt] with the same binary64 value as in the order of the
    loops. *)
Theorem X3_delta_pass_order (ROWS COLUMNS : nat) (t last : grid) (cs : list (nat * nat)) :
  local_shape ROWS COLUMNS last ->
  cs ≡ₚ local_cells ROWS COLUMNS ->
  let r := foldl (fun acc c => delta_cell t c.1 c.2 acc) (last, 0%float) cs in
  (forall i j, cell r.1 i j = cell (delta_pass ROWS COLUMNS t (last, 0%float)).1 i j) /\
  r.2 = (delta_pass ROWS COLUMNS t (last, 0%float)).2.
Proof.
  intros Hs Hp. cbv zeta.
  destruct (delta_pass_any_order ROWS COLUMNS t last cs Hs Hp) as [Hc Hm].
  split; [exact Hc|].
  destruct (delta_pass_spec ROWS COLUMNS t last Hs) as (_ & _ & Hdt).
  pose proof (fold_max_local_maximum ROWS COLUMNS t last) as Hm'. rewrite <- Hdt in Hm'.
  destruct (local_maximum_unique ROWS COLUMNS t last _ _ Hm Hm') as [H1 H2].
  apply le_antisym; try assumption; eapply local_maximum_sign_clear; eassumption.
Qed.

Lemma X3_witness :
  let r := foldl (fun acc c => delta_cell (relax_row 2 example_grid 1 example_grid) c.1 c.2 acc)
             (example_grid, 0%float) (reverse (local_cells 4 2)) in
  (forall i j, cell r.1 i j =
     cell (delta_pass 4 2 (relax_row 2 example_grid 1 example_grid)
             (example_grid, 0%float)).1 i j) /\
  r.2 = (delta_pass 4 2 (relax_row 2 example_grid 1 example_grid) (example_grid, 0%float)).2.
Proof.
  apply (X3_delta_pass_order 4 2).
  - split; [reflexivity|]. repeat constructor.
  - apply reverse_Permutation.
Defined.

(** X7. A halo row is not read while its receive is pending: whenever a
    row of [temperature] is about to be updated, in any schedule of the two
    threads from any well-formed state (at least two rows per rank), none
    of the three rows of [temperature_last] the update reads is the buffer
    of a receive that has not been waited for. *)
Theorem X7_halo_not_read_in_flight (ROWS COLUMNS : nat) (my_rank comm_size : Z)
    (sched : list command) (s : process * network) (i : nat) (s' : process * network)
    (k : nat) :
  2 <= ROWS ->
  compute_schedule ROWS my_rank comm_size sched ->
  well_formed ROWS COLUMNS s ->
  (Relax i, s') ∈ visits ROWS COLUMNS my_rank sched s ->
  i - 1 <= k <= i + 1 ->
  ~ receive_in_flight k s'.1.
Proof.
  intros Hrows (order & Hord & Hi) Hwf Hv Hk.
  now apply (relax_reads_no_pending_halo ROWS COLUMNS my_rank comm_size order Hord sched s i s').
Qed.

Lemma X7_witness : ~ receive_in_flight 0 example_sending_row3.
Proof.
  apply (X7_halo_not_read_in_flight 4 2 0 2 example_schedule_top (example_sending, ∅) 1
           (example_sending_row3, ∅) 0).
  - lia.
  - exact example_schedule_top_ok.
  - exact example_sending_well_formed.
  - apply (list_elem_of_lookup_2 _ 3). vm_compute. reflexivity.
  - lia.
Defined.

(** ** The ranks between two all-reduces, lines 94-210 *)

(** Ranks 1 and 0 in turn, statement by statement, through one iteration. *)
Definition example_order : list nat := mjoin (replicate 13 [1; 0]).

Definition example_round : round :=
  default (round_start 4 example_world) (run_ranks 4 2 example_order (round_start 4 example_world)).

(** X4. The ranks need not run in lock step. With at least two rows per
    rank (no row is then written while a send reads it, [send_buffer_kept]),
    from a world in which nothing is in flight (the first iteration) or
    every link holds one row in each direction (a later one), let the ranks
    execute the statements of one iteration in any order, each rank its own
    in sequence: when every rank is through, the grids, handles and channels
    are those of the lock-step iteration, and as long as some rank is not
    through, some rank can move (no deadlock). *)
Theorem X4_rank_order_independent (ROWS COLUMNS : nat) (w : world) (rs : list nat)
    (st : round) :
  2 <= ROWS ->
  quiet ROWS COLUMNS w \/ exchanging ROWS COLUMNS w ->
  run_ranks ROWS COLUMNS rs (round_start ROWS w) = Some st ->
  exists w', world_iteration ROWS COLUMNS w = Some w' /\
    (finished st -> st = round_end w') /\
    (~ finished st -> exists r, is_Some (rank_step ROWS COLUMNS r st)).
Proof.
  intros _ Hw Hrs.
  destruct (asynchronous_iteration_spec ROWS COLUMNS w rs st Hw Hrs) as (w' & H1 & _ & H2 & H3).
  now exists w'.
Qed.

Lemma X4_witness :
  exists w', world_iteration 4 2 example_world = Some w' /\
    (finished example_round -> example_round = round_end w') /\
    (~ finished example_round -> exists r, is_Some (rank_step 4 2 r example_round)).
Proof.
  apply (X4_rank_order_independent 4 2 example_world example_order).
  - lia.
  - left. exact example_world_quiet.
  - vm_compute. reflexivity.
Defined.

Example example_round_finished : finished example_round.
Proof. apply (bool_decide_unpack _). vm_compute. exact I. Qed.

(** ** After the loop, lines 212-219 *)

Section Finalize.

Variables ROWS COLUMNS : nat.

(** Lines 214-217 on every rank: the four waits that complete the
    transfers of the last iteration. *)
Definition finalize (w : world) : option world :=
  on_all ROWS COLUMNS (fun _ => final_waits) w.

(** The halo rows as received; nothing else changes. *)
Definition receive_only (top bottom : option (list float)) (p : process) : process :=
  let last1 := match top with
               | Some m => store_payload (temperature_last p) 0 m
               | None => temperature_last p
               end in
  let last2 := match bottom with
               | Some m => store_payload last1 (ROWS + 1) m
               | None => last1
               end in
  Process (temperature p) last2
          MPI_REQUEST_NULL MPI_REQUEST_NULL MPI_REQUEST_NULL MPI_REQUEST_NULL (dt p).

Lemma temperature_last_receive_only top bottom p :
  temperature_last (receive_only top bottom p) =
  temperature_last (receive_and_relax ROWS COLUMNS top bottom p).
Proof. reflexivity. Qed.

Lemma run_final_idle r p net :
  idle p -> run ROWS COLUMNS r final_waits (p, net) = Some (p, net).
Proof.
  intros (H1 & H2 & H3 & H4). unfold final_waits.
  destruct p as [t last tr ts br bs d]. simpl in *. subst tr ts br bs. reflexivity.
Qed.

Lemma run_final_engaged r n p net top bottom qt qb :
  engaged ROWS r n p ->
  (if has_top r
   then exists m, top = Some m /\ channel net (r - 1, r, 0)%Z = m :: qt
   else top = None) ->
  (if has_bottom r n
   then exists m, bottom = Some m /\ channel net (r + 1, r, 1)%Z = m :: qb
   else bottom = None) ->
  run ROWS COLUMNS r final_waits (p, net) =
  Some (receive_only top bottom p,
        (if has_bottom r n then <[(r + 1, r, 1)%Z := qb]> else id)
          ((if has_top r then <[(r - 1, r, 0)%Z := qt]> else id) net)).
Proof.
  intros (H1 & H2 & H3 & H4) Ht Hb. unfold final_waits, receive_only.
  destruct p as [t last tr ts br bs d]. simpl in *. subst tr ts br bs.
  destruct (has_top r), (has_bottom r n).
  - destruct Ht as (mt & -> & Ct), Hb as (mb & -> & Cb).
    unfold exec; simpl. rewrite Ct. simpl.
    rewrite channel_insert_ne by congruence. rewrite Cb. reflexivity.
  - destruct Ht as (mt & -> & Ct). subst bottom.
    unfold exec; simpl. rewrite Ct. reflexivity.
  - destruct Hb as (mb & -> & Cb). subst top.
    unfold exec; simpl. rewrite Cb. reflexivity.
  - subst top bottom. reflexivity.
Qed.

Lemma finalize_quiet w0 :
  (forall r p, w0.1 !! r = Some p -> idle p) -> finalize w0 = Some w0.
Proof.
  intros Hidle.
  pose (J := fun (k : nat) (w : world) => w = w0).
  destruct (on_all_invariant ROWS COLUMNS (fun _ => final_waits) J (length w0.1)) with (w := w0)
    as (w' & Hrun & ->); try reflexivity; [|exact Hrun].
  intros k w Hk ->. destruct (lookup_lt_is_Some_2 w0.1 k Hk) as [p Hp].
  unfold on_rank. rewrite Hp. cbn [mbind option_bind].
  rewrite run_final_idle by (eapply Hidle; eauto). cbn [mbind option_bind fst snd].
  exists w0. split; [|reflexivity]. rewrite list_insert_id by exact Hp. now destruct w0.
Qed.

(** What the final waits leave on rank [r]. *)
Definition finalized (w0 : world) (r : nat) (p : process) : process :=
  receive_only (top_message ROWS COLUMNS w0 r) (bottom_message COLUMNS w0 r) p.

Lemma finalize_exchanging w0 :
  exchanging ROWS COLUMNS w0 ->
  exists w', finalize w0 = Some w' /\
    done_below (finalized w0) w0.1 w'.1 (length w0.1) /\
    forall r, r + 1 < length w0.1 ->
      channel w'.2 (link_down r) = [] /\ channel w'.2 (link_up r) = [].
Proof.
  intros [Hranks Hlinks]. set (n := length w0.1) in *.
  pose (J := fun (k : nat) (w : world) =>
    done_below (finalized w0) w0.1 w.1 k /\
    forall r, r + 1 < n ->
      channel w.2 (link_down r) = (if decide (r + 1 < k) then [] else [row_of COLUMNS w0 r ROWS]) /\
      channel w.2 (link_up r) = (if decide (r < k) then [] else [row_of COLUMNS w0 (r + 1) 1])).
  destruct (on_all_invariant ROWS COLUMNS (fun _ => final_waits) J n) with (w := w0)
    as (w' & Hrun & Hdone & Hch).
  - intros k w Hk [Hdone Hch].
    destruct (done_below_current _ _ _ _ Hdone Hk) as (p0 & Hp0 & Hp).
    destruct (Hranks k p0 Hp0) as (_ & Heng & _).
    unfold on_rank. rewrite Hp. cbn [mbind option_bind].
    rewrite (run_final_engaged (Z.of_nat k) (Z.of_nat n) p0 w.2
               (top_message ROWS COLUMNS w0 k) (bottom_message COLUMNS w0 k) [] [] Heng).
    + cbn [mbind option_bind fst snd]. eexists. split; [reflexivity|].
      split; [exact (done_below_step (finalized w0) _ _ _ _ Hdone Hp0)|].
      intros r Hr. cbn [snd]. fold (delivered k n w.2).
      rewrite channel_delivered_down, channel_delivered_up by exact Hk.
      destruct (Hch r Hr) as [-> ->]. split.
      * destruct (decide (r + 1 = k)), (decide (r + 1 < k)), (decide (r + 1 < S k));
          try lia; reflexivity.
      * destruct (decide (r = k /\ k + 1 < n)) as [[-> _]|Hn].
        -- rewrite decide_True by lia. reflexivity.
        -- destruct (decide (r < k)), (decide (r < S k)); try lia; reflexivity.
    + rewrite has_top_spec. unfold top_message. destruct (Nat.eqb_spec k 0) as [E|E]; simpl.
      * reflexivity.
      * eexists. split; [reflexivity|]. rewrite link_down_pred by assumption.
        destruct (Hch (k - 1)) as [-> _]; [lia|]. rewrite decide_False by lia.
        reflexivity.
    + rewrite (has_bottom_spec k n Hk). unfold bottom_message. fold n.
      destruct (Nat.eqb_spec (k + 1) n) as [E|E]; simpl.
      * reflexivity.
      * eexists. split; [reflexivity|].
        change (Z.of_nat k + 1, Z.of_nat k, 1)%Z with (link_up k).
        destruct (Hch k) as [_ ->]; [lia|]. rewrite decide_False by lia. reflexivity.
  - reflexivity.
  - split; [apply done_below_start|]. intros r Hr. destruct (Hlinks r Hr) as [-> ->].
    rewrite !decide_False by lia. auto.
  - exists w'. split; [exact Hrun|]. split; [exact Hdone|].
    intros r Hr. destruct (Hch r Hr) as [-> ->]. rewrite !decide_True by lia. auto.
Qed.

(** The final waits from either state of the world at a phase boundary. *)
Lemma finalize_spec w :
  quiet ROWS COLUMNS w \/ exchanging ROWS COLUMNS w ->
  exists w', finalize w = Some w' /\
    length w'.1 = length w.1 /\
    (forall r p', w'.1 !! r = Some p' ->
       idle p' /\ exists p, w.1 !! r = Some p /\
                            temperature p' = temperature p /\ dt p' = dt p) /\
    (forall r, r + 1 < length w.1 ->
       channel w'.2 (link_down r) = [] /\ channel w'.2 (link_up r) = []) /\
    (exchanging ROWS COLUMNS w -> forall r, r + 1 < length w.1 ->
       halo_of COLUMNS w' (r + 1) 0 = row_of COLUMNS w' r ROWS /\
       halo_of COLUMNS w' r (ROWS + 1) = row_of COLUMNS w' (r + 1) 1).
Proof.
  intros [Hq|Hex].
  - destruct Hq as [Hranks Hlinks]. exists w.
    split; [apply finalize_quiet; intros r p Hp; now apply (Hranks r p)|].
    split; [reflexivity|]. split; [|split; [exact Hlinks|]].
    + intros r p Hp. split; [now apply (Hranks r p)|]. now exists p.
    + intros [Hr _] r Hr'.
      destruct (lookup_lt_is_Some_2 w.1 r) as [p Hp]; [lia|].
      destruct (Hranks r p Hp) as [_ (Hi1 & _)], (Hr r p Hp) as (_ & (He1 & He2 & He3 & He4) & _).
      assert (Hb : has_bottom (Z.of_nat r) (Z.of_nat (length w.1)) = true).
      { rewrite has_bottom_spec by lia. destruct (Nat.eqb_spec (r + 1) (length w.1)); [lia|reflexivity]. }
      rewrite Hb in He3. destruct Hranks with (r := r) (p := p) as [_ (_ & _ & Hi3 & _)]; [exact Hp|].
      congruence.
  - pose proof Hex as [Hranks Hlinks].
    destruct (finalize_exchanging w Hex) as (w' & Hrun & Hdone & Hch).
    exists w'. split; [exact Hrun|]. pose proof Hdone as [Hlen _]. split; [exact Hlen|].
    split; [|split; [exact Hch|]].
    + intros r p' Hp'. destruct (done_below_inv _ _ _ _ _ Hdone Hp') as (p0 & Hp0 & ->).
      split; [repeat split|]. now exists p0.
    + intros _ r Hr.
      destruct (lookup_lt_is_Some_2 w.1 r) as [pu Hpu]; [lia|].
      destruct (lookup_lt_is_Some_2 w.1 (r + 1)) as [pl Hpl]; [lia|].
      unfold halo_of, row_of.
      rewrite (done_below_all _ _ _ Hdone _ _ Hpu), (done_below_all _ _ _ Hdone _ _ Hpl).
      destruct (Hranks r pu Hpu) as (Hsu & _), (Hranks (r + 1) pl Hpl) as (Hsl & _).
      unfold finalized. rewrite !temperature_last_receive_only.
      change (temperature (receive_only (top_message ROWS COLUMNS w r)
                             (bottom_message COLUMNS w r) pu)) with (temperature pu).
      change (temperature (receive_only (top_message ROWS COLUMNS w (r + 1))
                             (bottom_message COLUMNS w (r + 1)) pl)) with (temperature pl).
      split.
      * transitivity (row_of COLUMNS w r ROWS); [|unfold row_of; now rewrite Hpu].
        apply (received_top ROWS COLUMNS w (r + 1) pl);
          [exact Hsl| |now apply (row_of_length COLUMNS w r ROWS pu)].
        unfold top_message. destruct (Nat.eqb_spec (r + 1) 0); [lia|].
        now replace (r + 1 - 1) with r by lia.
      * transitivity (row_of COLUMNS w (r + 1) 1); [|unfold row_of; now rewrite Hpl].
        apply (received_bottom ROWS COLUMNS w r pu);
          [exact Hsu| |now apply (row_of_length COLUMNS w (r + 1) 1 pl)].
        unfold bottom_message. destruct (Nat.eqb_spec (r + 1) (length w.1)); [lia|reflexivity].
Qed.

End Finalize.

(** The world the loop leaves has as many ranks as the one it starts in,
    and, unless the body never ran, every link holds one row in each
    direction. *)
Lemma relaxation_loop_world (ROWS COLUMNS : nat) (MAX_NUMBER_OF_ITERATIONS : Z)
    (MAX_TEMP_ERROR : float) (fuel : nat) (st st' : loop_state) :
  relaxation_loop ROWS COLUMNS MAX_NUMBER_OF_ITERATIONS MAX_TEMP_ERROR fuel st = Finished st' ->
  quiet ROWS COLUMNS (ranks st) \/ exchanging ROWS COLUMNS (ranks st) ->
  length (ranks st').1 = length (ranks st).1 /\
  (st' = st \/ exchanging ROWS COLUMNS (ranks st')).
Proof.
  revert st. induction fuel as [|fuel IH]; intros st H Hw; simpl in H.
  - destruct (loop_condition _ _ st); [discriminate|]. inversion H; subst. auto.
  - destruct (loop_condition _ _ st); [|inversion H; subst; auto].
    destruct (world_iteration_spec ROWS COLUMNS (ranks st) Hw) as (w & Hrun & Hex & Hlen).
    unfold loop_body in H. rewrite Hrun in H. cbn [mbind option_bind] in H.
    destruct (IH _ H) as [Hl Hc]; [now right|]. cbn [ranks] in Hl, Hc.
    split; [congruence|]. right. destruct Hc as [->|Hc]; [exact Hex|exact Hc].
Qed.

(** X5. The run reaches [MPI_Finalize] with nothing pending. From grids
    as initialised, once the loop is left (whether it ran or not) the four
    final waits return on every rank; afterwards every handle is
    [MPI_REQUEST_NULL], no message is left on any link, the grid
    [temperature] and [dt] are those the loop left, and, if the body ran at
    least once, each halo row of [temperature_last] holds cells
    [1..COLUMNS] of the neighbour's boundary row of the final grid. *)
Theorem X5_run_ends_quiet (ROWS COLUMNS : nat) (MAX_NUMBER_OF_ITERATIONS : Z)
    (MAX_TEMP_ERROR : float) (initial : world) (fuel : nat) :
  quiet ROWS COLUMNS initial ->
  (0 <= MAX_NUMBER_OF_ITERATIONS < INT_MAX)%Z ->
  Z.to_nat MAX_NUMBER_OF_ITERATIONS + 1 <= fuel ->
  exists st w',
    relaxation_loop ROWS COLUMNS MAX_NUMBER_OF_ITERATIONS MAX_TEMP_ERROR fuel
      (loop_start initial) = Finished st /\
    finalize ROWS COLUMNS (ranks st) = Some w' /\
    length w'.1 = length initial.1 /\
    (forall r p', w'.1 !! r = Some p' ->
       idle p' /\ exists p, (ranks st).1 !! r = Some p /\
                            temperature p' = temperature p /\ dt p' = dt p) /\
    (forall r, r + 1 < length initial.1 ->
       channel w'.2 (link_down r) = [] /\ channel w'.2 (link_up r) = []) /\
    (1 <= executions st -> forall r, r + 1 < length initial.1 ->
       halo_of COLUMNS w' (r + 1) 0 = row_of COLUMNS w' r ROWS /\
       halo_of COLUMNS w' r (ROWS + 1) = row_of COLUMNS w' (r + 1) 1).
Proof.
  intros Hq [Hmax0 Hmax] Hfuel.
  pose proof (loop_start_invariant ROWS COLUMNS MAX_NUMBER_OF_ITERATIONS initial Hq Hmax0) as Hinv.
  destruct (relaxation_loop_from ROWS COLUMNS MAX_NUMBER_OF_ITERATIONS MAX_TEMP_ERROR fuel
              (loop_start initial) Hmax Hinv) as (st & Hrun & (Hw & _) & _).
  { simpl. lia. }
  destruct (relaxation_loop_world _ _ _ _ _ _ _ Hrun) as [Hlen Hst]; [now left|].
  simpl in Hlen.
  destruct (finalize_spec ROWS COLUMNS (ranks st) Hw) as (w' & Hf & Hl & Hp & Hc & Hh).
  exists st, w'. split; [exact Hrun|]. split; [exact Hf|]. split; [congruence|].
  split; [exact Hp|]. rewrite <- Hlen. split; [exact Hc|].
  intros Hex. apply Hh. destruct Hst as [->|Hst]; [simpl in Hex; lia|exact Hst].
Qed.

Lemma X5_witness :
  exists st w',
    relaxation_loop 4 2 3 spec_MAX_TEMP_ERROR 4 (loop_start example_world) = Finished st /\
    finalize 4 2 (ranks st) = Some w' /\
    length w'.1 = length example_world.1 /\
    (forall r p', w'.1 !! r = Some p' ->
       idle p' /\ exists p, (ranks st).1 !! r = Some p /\
                            temperature p' = temperature p /\ dt p' = dt p) /\
    (forall r, r + 1 < length example_world.1 ->
       channel w'.2 (link_down r) = [] /\ channel w'.2 (link_up r) = []) /\
    (1 <= executions st -> forall r, r + 1 < length example_world.1 ->
       halo_of 2 w' (r + 1) 0 = row_of 2 w' r 4 /\
       halo_of 2 w' r (4 + 1) = row_of 2 w' (r + 1) 1).
Proof.
  apply (X5_run_ends_quiet 4 2 3 spec_MAX_TEMP_ERROR example_world 4).
  - exact example_world_quiet.
  - unfold INT_MAX. lia.
  - simpl. lia.
Defined.

(** ** One iteration of all ranks, cell by cell *)

Section Sweep.

Variables ROWS COLUMNS : nat.

Local Abbreviation local i j := (1 <= i <= ROWS /\ 1 <= j <= COLUMNS).

Lemma relax_rows_cell_outside last rows t i' j :
  local_shape ROWS COLUMNS t -> Forall (fun i => i < ROWS + 2) rows ->
  i' ∉ rows \/ ~ 1 <= j <= COLUMNS ->
  cell (foldl (fun t i => relax_row COLUMNS last i t) t rows) i' j = cell t i' j.
Proof.
  revert t. induction rows as [|i rows IH]; intros t Ht Hrows Hout; simpl; [reflexivity|].
  apply Forall_cons in Hrows as [Hi Hrows].
  rewrite IH; [|now apply relax_row_shape|exact Hrows|].
  - rewrite (relax_row_cell ROWS) by assumption.
    rewrite decide_False; [reflexivity|]. intros [-> Hj].
    destruct Hout as [Hn|Hn]; [apply Hn; apply elem_of_cons; now left|contradiction].
  - destruct Hout as [Hn|Hn]; [left|now right].
    intros Hin. apply Hn. apply elem_of_cons. now right.
Qed.

(** The second half of the iteration writes the interior rows of
    [temperature] and copies the local cells into [temperature_last]. *)
Lemma launched_temperature_cell n r q i j :
  shapes ROWS COLUMNS q -> ~ local i j ->
  cell (temperature (launched ROWS COLUMNS n r q)) i j = cell (temperature q) i j.
Proof.
  intros [Ht _] Hout. rewrite temperature_launched.
  apply relax_rows_cell_outside; [exact Ht| |].
  - apply Forall_forall. intros k Hk. apply elem_of_seq in Hk. lia.
  - destruct (decide (1 <= j <= COLUMNS)) as [Hj|Hj]; [left|now right].
    intros Hk. apply elem_of_seq in Hk. apply Hout. lia.
Qed.

Lemma launched_last_cell n r q i j :
  shapes ROWS COLUMNS q ->
  cell (temperature_last (launched ROWS COLUMNS n r q)) i j =
  if decide (local i j) then cell (temperature (launched ROWS COLUMNS n r q)) i j
  else cell (temperature_last q) i j.
Proof.
  intros [_ Hl]. unfold launched at 1, local_delta. simpl.
  destruct (delta_pass_spec ROWS COLUMNS
              (foldl (fun t i => relax_row COLUMNS (temperature_last q) i t)
                     (temperature q) (seq 2 (ROWS - 2)))
              (temperature_last q) Hl) as (_ & H & _).
  apply H.
Qed.

(** The first half writes the two boundary rows of [temperature]. *)
Lemma boundary_temperature_cell last1 last2 t i j :
  1 <= ROWS -> local_shape ROWS COLUMNS t -> ~ local i j ->
  cell (relax_row COLUMNS last2 ROWS (relax_row COLUMNS last1 1 t)) i j = cell t i j.
Proof.
  intros Hpos Ht Hout.
  rewrite (relax_row_cell ROWS); [|now apply relax_row_shape|lia].
  rewrite decide_False by (intros [-> Hj]; apply Hout; lia).
  rewrite (relax_row_cell ROWS); [|exact Ht|lia].
  rewrite decide_False by (intros [-> Hj]; apply Hout; lia). reflexivity.
Qed.

(** A completed receive writes cells [1..COLUMNS] of a halo row, and only
    where there is a neighbour. *)
Lemma received_last_cell w r p i j :
  w.1 !! r = Some p ->
  1 <= i <= ROWS \/ j = 0 \/ COLUMNS < j \/ (i = 0 /\ r = 0) \/
    (i = ROWS + 1 /\ r + 1 = length w.1) ->
  cell (temperature_last (received ROWS COLUMNS w r p)) i j = cell (temperature_last p) i j.
Proof.
  intros Hp Hc. assert (Hr : r < length w.1) by (eapply lookup_lt_Some; eauto).
  unfold received, receive_and_relax. simpl.
  assert (Hb : forall g,
    cell match bottom_message COLUMNS w r with
         | Some m => store_payload g (ROWS + 1) m
         | None => g
         end i j = cell g i j).
  { intros g. unfold bottom_message.
    destruct (Nat.eqb_spec (r + 1) (length w.1)) as [E|E]; [reflexivity|].
    unfold store_payload. apply cell_store_from_other.
    destruct (lookup_lt_is_Some_2 w.1 (r + 1)) as [pl Hpl]; [lia|].
    rewrite (row_of_length COLUMNS w (r + 1) 1 pl Hpl). lia. }
  rewrite Hb. unfold top_message.
  destruct (Nat.eqb_spec r 0) as [E|E]; [reflexivity|].
  unfold store_payload. apply cell_store_from_other.
  destruct (lookup_lt_is_Some_2 w.1 (r - 1)) as [pu Hpu]; [lia|].
  rewrite (row_of_length COLUMNS w (r - 1) ROWS pu Hpu). lia.
Qed.

(** What the first half of the iteration leaves on rank [r]: with the
    messages taken when the iteration starts with rows in flight. *)
Definition arrived (w : world) (r : nat) (p q : process) : Prop :=
  q = relax_boundary ROWS COLUMNS p \/ q = received ROWS COLUMNS w r p.

Lemma arrived_shapes w r p q :
  shapes ROWS COLUMNS p -> arrived w r p q -> shapes ROWS COLUMNS q.
Proof.
  intros Hs [->| ->]; [now apply relax_boundary_shapes|now apply received_shapes].
Qed.

Lemma arrived_last_cell w r p q i j :
  w.1 !! r = Some p -> arrived w r p q ->
  1 <= i <= ROWS \/ j = 0 \/ COLUMNS < j \/ (i = 0 /\ r = 0) \/
    (i = ROWS + 1 /\ r + 1 = length w.1) ->
  cell (temperature_last q) i j = cell (temperature_last p) i j.
Proof. intros Hp [->| ->] Hc; [reflexivity|now apply received_last_cell]. Qed.

Lemma arrived_temperature_cell w r p q i j :
  1 <= ROWS -> shapes ROWS COLUMNS p -> arrived w r p q -> ~ local i j ->
  cell (temperature q) i j = cell (temperature p) i j.
Proof.
  intros Hpos [Ht _] [->| ->] Hout; now apply boundary_temperature_cell.
Qed.

(** The iteration of all ranks, rank by rank. *)
Lemma world_iteration_form w :
  quiet ROWS COLUMNS w \/ exchanging ROWS COLUMNS w ->
  exists w', world_iteration ROWS COLUMNS w = Some w' /\
    length w'.1 = length w.1 /\
    (forall r p, w.1 !! r = Some p ->
       shapes ROWS COLUMNS p /\
       exists q, arrived w r p q /\
                 w'.1 !! r = Some (launched ROWS COLUMNS (length w.1) r q)) /\
    (forall r p', w'.1 !! r = Some p' -> exists p, w.1 !! r = Some p).
Proof.
  intros Hw. unfold world_iteration.
  assert (H1 : exists w1, wait_phase ROWS COLUMNS w = Some w1 /\ quiet ROWS COLUMNS w1 /\
            length w1.1 = length w.1 /\
            forall r p, w.1 !! r = Some p ->
              shapes ROWS COLUMNS p /\ exists q, arrived w r p q /\ w1.1 !! r = Some q).
  { destruct Hw as [Hq|Hex].
    - destruct (wait_quiet ROWS COLUMNS w Hq) as (w1 & Hrun & Hq1 & Hlen).
      destruct Hq as [Hranks _].
      destruct (wait_phase_quiet ROWS COLUMNS w) as (w1' & Hrun' & Hdone & _).
      { intros r p Hp. now apply (Hranks r p). }
      rewrite Hrun in Hrun'. inversion Hrun'; subst w1'.
      exists w1. split; [exact Hrun|]. split; [exact Hq1|]. split; [exact Hlen|].
      intros r p Hp. split; [now apply (Hranks r p)|].
      exists (relax_boundary ROWS COLUMNS p). split; [now left|].
      apply (done_below_all _ _ _ Hdone _ _ Hp).
    - destruct (wait_exchanging ROWS COLUMNS w Hex) as (w1 & Hrun & Hq1 & Hlen & _).
      destruct (wait_phase_exchanging ROWS COLUMNS w Hex) as (w1' & Hrun' & Hdone & _).
      rewrite Hrun in Hrun'. inversion Hrun'; subst w1'.
      destruct Hex as [Hranks _].
      exists w1. split; [exact Hrun|]. split; [exact Hq1|]. split; [exact Hlen|].
      intros r p Hp. split; [now apply (Hranks r p)|].
      exists (received ROWS COLUMNS w r p). split; [now right|].
      apply (done_below_all _ _ _ Hdone _ _ Hp). }
  destruct H1 as (w1 & -> & [_ Hlinks] & Hlen1 & Hform). cbn [mbind option_bind].
  destruct (launch_phase_spec ROWS COLUMNS w1 Hlinks) as (w' & Hrun & Hdone & _).
  exists w'. split; [exact Hrun|]. pose proof Hdone as [Hlen _].
  split; [congruence|]. split.
  - intros r p Hp. destruct (Hform r p Hp) as (Hs & q & Hq & Hq1). split; [exact Hs|].
    exists q. split; [exact Hq|]. rewrite <- Hlen1.
    apply (done_below_all _ _ _ Hdone _ _ Hq1).
  - intros r p' Hp'. apply lookup_lt_is_Some_2. apply lookup_lt_Some in Hp'. lia.
Qed.

(** *** The all-reduce *)

Lemma allreduce_max_ge ds d :
  Forall Double.ordered ds -> d ∈ ds -> Double.le d (allreduce_max ds).
Proof.
  destruct ds as [|d0 ds]; intros Hord Hin; [now apply elem_of_nil in Hin|].
  apply Forall_cons in Hord as [H0 Hord]. simpl.
  apply elem_of_cons in Hin as [->|Hin].
  - now apply fold_max_ge_init.
  - apply fold_max_ge; [exact H0|exact Hin|]. rewrite Forall_forall in Hord. now apply Hord.
Qed.

Lemma allreduce_max_attained ds : ds <> [] -> allreduce_max ds ∈ ds.
Proof.
  destruct ds as [|d0 ds]; [congruence|]. intros _. simpl.
  destruct (fold_max_attained d0 ds) as [->|H]; apply elem_of_cons; auto.
Qed.

End Sweep.

(** X6. The global delta of an iteration bounds the change of every cell
    on every rank. After the body of the loop, whether it is the first
    iteration or a later one: [dt] of a rank is the largest of 0 and the
    differences between its new [temperature] and the [temperature_last] it
    started the iteration with, over its cells [1..ROWS] x [1..COLUMNS];
    [dt_global] is a number, is the [dt] of one of the ranks, is at least
    the [dt] of every rank, and so at least every such difference that is a
    number. *)
Theorem X6_global_delta_bounds (ROWS COLUMNS : nat) (st : loop_state) :
  quiet ROWS COLUMNS (ranks st) \/ exchanging ROWS COLUMNS (ranks st) ->
  exists st', loop_body ROWS COLUMNS st = Some st' /\
    Double.ordered (dt_global st') /\
    ((ranks st').1 <> [] -> exists p', p' ∈ (ranks st').1 /\ dt_global st' = dt p') /\
    forall r p p', (ranks st).1 !! r = Some p -> (ranks st').1 !! r = Some p' ->
      local_maximum ROWS COLUMNS (temperature p') (temperature_last p) (dt p') /\
      Double.le (dt p') (dt_global st') /\
      forall i j, 1 <= i <= ROWS -> 1 <= j <= COLUMNS ->
        Double.ordered (abs_delta (temperature p') (temperature_last p) (i, j)) ->
        Double.le (abs_delta (temperature p') (temperature_last p) (i, j)) (dt_global st').
Proof.
  intros Hw.
  destruct (world_iteration_form ROWS COLUMNS (ranks st) Hw) as (w' & Hrun & Hlen & Hform & Hback).
  unfold loop_body. rewrite Hrun. cbn [mbind option_bind].
  eexists. split; [reflexivity|]. cbn [ranks dt_global].
  assert (Hrank : forall r p p', (ranks st).1 !! r = Some p -> w'.1 !! r = Some p' ->
            local_maximum ROWS COLUMNS (temperature p') (temperature_last p) (dt p')).
  { intros r p p' Hp Hp'. destruct (Hform r p Hp) as (Hs & q & Hq & Hl).
    rewrite Hl in Hp'. inversion Hp'; subst p'.
    rewrite launched_dt by (eapply arrived_shapes; eauto).
    rewrite (fold_max_ext _ (abs_delta (temperature (launched ROWS COLUMNS
                                          (length (ranks st).1) r q)) (temperature_last p))).
    - apply fold_max_local_maximum.
    - intros [i j] Hc. apply elem_of_local_cells in Hc. unfold abs_delta. simpl.
      rewrite (arrived_last_cell ROWS COLUMNS (ranks st) r p q i j Hp Hq); [reflexivity|].
      left. lia. }
  assert (Hord : Forall Double.ordered (dt <$> w'.1)).
  { apply Forall_fmap, Forall_forall. intros p' Hin.
    apply list_elem_of_lookup in Hin as [r Hp']. destruct (Hback r p' Hp') as [p Hp].
    apply (Hrank r p p' Hp Hp'). }
  split; [now apply allreduce_max_ordered|]. split.
  - intros Hne.
    assert (Hin : allreduce_max (dt <$> w'.1) ∈ dt <$> w'.1).
    { apply allreduce_max_attained. destruct w'.1; [congruence|discriminate]. }
    apply list_elem_of_fmap in Hin as (p' & E & Hin). now exists p'.
  - intros r p p' Hp Hp'. pose proof (Hrank r p p' Hp Hp') as Hm.
    assert (Hle : Double.le (dt p') (allreduce_max (dt <$> w'.1))).
    { apply allreduce_max_ge; [exact Hord|]. apply list_elem_of_fmap. exists p'.
      split; [reflexivity|]. eapply list_elem_of_lookup_2; eauto. }
    split; [exact Hm|]. split; [exact Hle|].
    intros i j Hi Hj Ho. destruct Hm as (_ & Hb & _).
    eapply Double.le_trans; [now apply Hb|exact Hle].
Qed.

Lemma X6_witness :
  exists st', loop_body 4 2 (loop_start example_world) = Some st' /\
    Double.ordered (dt_global st') /\
    ((ranks st').1 <> [] -> exists p', p' ∈ (ranks st').1 /\ dt_global st' = dt p') /\
    forall r p p', (ranks (loop_start example_world)).1 !! r = Some p ->
      (ranks st').1 !! r = Some p' ->
      local_maximum 4 2 (temperature p') (temperature_last p) (dt p') /\
      Double.le (dt p') (dt_global st') /\
      forall i j, 1 <= i <= 4 -> 1 <= j <= 2 ->
        Double.ordered (abs_delta (temperature p') (temperature_last p) (i, j)) ->
        Double.le (abs_delta (temperature p') (temperature_last p) (i, j)) (dt_global st').
Proof.
  apply (X6_global_delta_bounds 4 2 (loop_start example_world)).
  left. exact example_world_quiet.
Defined.

(** X8. The fixed boundary values are never overwritten. One iteration of
    all ranks (at least one row per rank) writes [temperature] only in the
    cells [1..ROWS] x [1..COLUMNS]; in [temperature_last] it leaves columns
    [0] and [COLUMNS+1] of every row as they are, and also the whole top halo
    row of rank 0 and the whole bottom halo row of the last rank, which have
    no neighbour to receive from. *)
Theorem X8_boundaries_never_written (ROWS COLUMNS : nat) (w : world) :
  1 <= ROWS ->
  quiet ROWS COLUMNS w \/ exchanging ROWS COLUMNS w ->
  exists w', world_iteration ROWS COLUMNS w = Some w' /\
    forall r p p', w.1 !! r = Some p -> w'.1 !! r = Some p' ->
      (forall i j, ~ (1 <= i <= ROWS /\ 1 <= j <= COLUMNS) ->
         cell (temperature p') i j = cell (temperature p) i j) /\
      (forall i j, j = 0 \/ COLUMNS < j ->
         cell (temperature_last p') i j = cell (temperature_last p) i j) /\
      (r = 0 -> forall j,
         cell (temperature_last p') 0 j = cell (temperature_last p) 0 j) /\
      (r + 1 = length w.1 -> forall j,
         cell (temperature_last p') (ROWS + 1) j = cell (temperature_last p) (ROWS + 1) j).
Proof.
  intros Hpos Hw.
  destruct (world_iteration_form ROWS COLUMNS w Hw) as (w' & Hrun & Hlen & Hform & _).
  exists w'. split; [exact Hrun|].
  intros r p p' Hp Hp'. destruct (Hform r p Hp) as (Hs & q & Hq & Hl).
  rewrite Hl in Hp'. inversion Hp'; subst p'.
  pose proof (arrived_shapes ROWS COLUMNS w r p q Hs Hq) as Hsq.
  assert (Hlast : forall i j, ~ (1 <= i <= ROWS /\ 1 <= j <= COLUMNS) ->
            j = 0 \/ COLUMNS < j \/ (i = 0 /\ r = 0) \/ (i = ROWS + 1 /\ r + 1 = length w.1) ->
            cell (temperature_last (launched ROWS COLUMNS (length w.1) r q)) i j =
            cell (temperature_last p) i j).
  { intros i j Hout Hc. rewrite launched_last_cell by exact Hsq.
    rewrite decide_False by exact Hout.
    apply (arrived_last_cell ROWS COLUMNS w r p q i j Hp Hq). tauto. }
  split; [|split; [|split]].
  - intros i j Hout. rewrite launched_temperature_cell by assumption.
    now apply (arrived_temperature_cell ROWS COLUMNS w r p q).
  - intros i j Hj. apply Hlast; [lia|tauto].
  - intros -> j. apply Hlast; [lia|tauto].
  - intros E j. apply Hlast; [lia|tauto].
Qed.

Lemma X8_witness :
  exists w', world_iteration 4 2 example_world = Some w' /\
    forall r p p', example_world.1 !! r = Some p -> w'.1 !! r = Some p' ->
      (forall i j, ~ (1 <= i <= 4 /\ 1 <= j <= 2) ->
         cell (temperature p') i j = cell (temperature p) i j) /\
      (forall i j, j = 0 \/ 2 < j ->
         cell (temperature_last p') i j = cell (temperature_last p) i j) /\
      (r = 0 -> forall j,
         cell (temperature_last p') 0 j = cell (temperature_last p) 0 j) /\
      (r + 1 = length example_world.1 -> forall j,
         cell (temperature_last p') (4 + 1) j = cell (temperature_last p) (4 + 1) j).
Proof.
  apply (X8_boundaries_never_written 4 2 example_world).
  - lia.
  - left. exact example_world_quiet.
Defined.

(** X11. From the second iteration on the ranks relax one grid. When the
    waits of an iteration that follows another one have returned (at least
    two rows per rank), cells [1..COLUMNS] of the top halo row of
    [temperature_last] on every rank with an upper neighbour are those of
    row ROWS of [temperature_last] on that neighbour, and its bottom halo
    row those of row 1 on the lower neighbour: the stencil of a boundary row
    reads the values of the previous iteration across the cut. *)
Theorem X11_halos_consistent (ROWS COLUMNS : nat) (w : world) :
  2 <= ROWS ->
  quiet ROWS COLUMNS w \/ exchanging ROWS COLUMNS w ->
  exists w1 w2,
    world_iteration ROWS COLUMNS w = Some w1 /\
    wait_phase ROWS COLUMNS w1 = Some w2 /\
    forall r, r + 1 < length w.1 ->
      halo_of COLUMNS w2 (r + 1) 0 = halo_of COLUMNS w2 r ROWS /\
      halo_of COLUMNS w2 r (ROWS + 1) = halo_of COLUMNS w2 (r + 1) 1.
Proof.
  intros Hpos Hw.
  destruct (world_iteration_form ROWS COLUMNS w Hw) as (w1 & Hrun & Hlen & Hform & _).
  destruct (world_iteration_spec ROWS COLUMNS w Hw) as (w1' & Hrun' & Hex & _).
  rewrite Hrun in Hrun'. inversion Hrun'; subst w1'.
  destruct (wait_exchanging ROWS COLUMNS w1 Hex) as (w2 & Hwait & _ & _ & Hhalo).
  destruct (wait_phase_exchanging ROWS COLUMNS w1 Hex) as (w2' & Hwait' & Hdone & _).
  rewrite Hwait in Hwait'. inversion Hwait'; subst w2'.
  exists w1, w2. split; [exact Hrun|]. split; [exact Hwait|].
  assert (Hrow : forall r i, r < length w.1 -> 1 <= i <= ROWS ->
            halo_of COLUMNS w2 r i = row_of COLUMNS w1 r i).
  { intros r i Hr Hi. destruct (lookup_lt_is_Some_2 w.1 r Hr) as [p Hp].
    destruct (Hform r p Hp) as (Hs & q & Hq & Hl).
    unfold halo_of, row_of. rewrite (done_below_all _ _ _ Hdone _ _ Hl), Hl.
    unfold row_payload. apply map_ext_in. intros j Hj. apply in_seq in Hj.
    rewrite (received_last_cell ROWS COLUMNS w1 r _ i j Hl) by (left; lia).
    rewrite launched_last_cell by (eapply arrived_shapes; eauto).
    rewrite decide_True by lia. reflexivity. }
  intros r Hr. rewrite Hlen in Hhalo. destruct (Hhalo r Hr) as [H1 H2].
  rewrite H1, H2, !Hrow by lia. split; reflexivity.
Qed.

Lemma X11_witness :
  exists w1 w2,
    world_iteration 4 2 example_world = Some w1 /\
    wait_phase 4 2 w1 = Some w2 /\
    forall r, r + 1 < length example_world.1 ->
      halo_of 2 w2 (r + 1) 0 = halo_of 2 w2 r 4 /\
      halo_of 2 w2 r (4 + 1) = halo_of 2 w2 (r + 1) 1.
Proof.
  apply (X11_halos_consistent 4 2 example_world).
  - lia.
  - left. exact example_world_quiet.
Defined.

(** ** Not-a-number in the delta pass, line 189 *)

#[local] Instance ordered_dec (x : float) : Decision (Double.ordered x).
Proof. unfold Double.ordered. apply _. Defined.

Lemma fmax_nan_l x d : ~ Double.ordered x -> Double.fmax x d = d.
Proof.
  unfold Double.ordered, Double.fmax. intros H.
  destruct (PrimFloat.is_nan x); [reflexivity|congruence].
Qed.

Lemma fold_max_nan_dropped d xs : fold_max d xs = fold_max d (filter Double.ordered xs).
Proof.
  revert d. induction xs as [|x xs IH]; intros d; [reflexivity|].
  rewrite filter_cons. destruct (decide (Double.ordered x)) as [H|H]; simpl.
  - apply IH.
  - rewrite (fmax_nan_l x d H). apply IH.
Qed.

Lemma fold_max_all_nan d xs :
  Forall (fun x => ~ Double.ordered x) xs -> fold_max d xs = d.
Proof.
  induction 1 as [|x xs Hx _ IH]; [reflexivity|]. simpl. now rewrite (fmax_nan_l x d Hx).
Qed.

(** X9. [fmax] drops an operand that is not a number, so a cell whose
    difference [|temperature[i][j] - temperature_last[i][j]|] is NaN does
    not show in [dt]: the delta pass returns the maximum over the
    differences that are numbers only, and [0.0] when none is. A grid with
    NaN cells can so be reported as converged. *)
Theorem X9_nan_ignored (ROWS COLUMNS : nat) (t last : grid) :
  local_shape ROWS COLUMNS last ->
  (delta_pass ROWS COLUMNS t (last, 0%float)).2 =
    fold_max 0 (filter Double.ordered (abs_delta t last <$> local_cells ROWS COLUMNS)) /\
  ((forall i j, 1 <= i <= ROWS -> 1 <= j <= COLUMNS ->
      ~ Double.ordered (abs_delta t last (i, j))) ->
   (delta_pass ROWS COLUMNS t (last, 0%float)).2 = 0%float).
Proof.
  intros Hs. destruct (delta_pass_spec ROWS COLUMNS t last Hs) as (_ & _ & Hdt).
  rewrite Hdt. split; [apply fold_max_nan_dropped|].
  intros Hnan. apply fold_max_all_nan. apply Forall_fmap, Forall_forall.
  intros [i j] Hc. apply elem_of_local_cells in Hc. now apply Hnan.
Qed.

Lemma X9_witness :
  (delta_pass 4 2 (relax_row 2 example_grid 1 example_grid) (example_grid, 0%float)).2 =
    fold_max 0 (filter Double.ordered
                  (abs_delta (relax_row 2 example_grid 1 example_grid) example_grid
                     <$> local_cells 4 2)) /\
  ((forall i j, 1 <= i <= 4 -> 1 <= j <= 2 ->
      ~ Double.ordered (abs_delta (relax_row 2 example_grid 1 example_grid) example_grid (i, j))) ->
   (delta_pass 4 2 (relax_row 2 example_grid 1 example_grid) (example_grid, 0%float)).2 = 0%float).
Proof.
  apply (X9_nan_ignored 4 2). split; [reflexivity|]. repeat constructor.
Defined.

(** A grid of NaN, relaxed or not, has no difference that is a number. *)
Example nan_grid_converged :
  let g := replicate 3 (replicate 3 nan) in
  (delta_pass 1 1 (relax_row 1 g 1 g) (g, 0%float)).2 = 0%float.
Proof. reflexivity. Qed.

(** ** The handles at the end of an iteration *)

Lemma wait_frees (ROWS COLUMNS : nat) (r : Z) h s s' :
  exec ROWS COLUMNS r (MPI_Wait h) s = Some s' ->
  request_of h s'.1 = MPI_REQUEST_NULL /\
  forall h', h' <> h -> request_of h' s'.1 = request_of h' s.1.
Proof.
  destruct s as [p net]. unfold exec. simpl.
  destruct (request_of h p) as [|row|source tag row] eqn:E.
  - intros H. inversion H; subst. simpl. split; [exact E|reflexivity].
  - intros H. inversion H; subst. simpl.
    split; [apply request_of_set_eq|]. intros h' Hne. now apply request_of_set_ne.
  - destruct (channel net (source, r, tag)) as [|m rest]; [discriminate|].
    intros H. inversion H; subst. simpl.
    split; [apply request_of_set_eq|]. intros h' Hne.
    rewrite request_of_set_ne by congruence. now destruct h'.
Qed.

Lemma relax_requests (ROWS COLUMNS : nat) (r : Z) i s s' :
  exec ROWS COLUMNS r (Relax i) s = Some s' ->
  forall h, request_of h s'.1 = request_of h s.1.
Proof.
  destruct s as [p net]. unfold exec. simpl. intros H. inversion H; subst. simpl.
  now intros [].
Qed.

(** After the waits of thread 0 every handle is free. *)
Lemma run_boundary_rows_idle (ROWS COLUMNS : nat) (r : Z) s s' :
  run ROWS COLUMNS r (boundary_rows ROWS) s = Some s' -> idle s'.1.
Proof.
  unfold boundary_rows. cbn [run]. intros H.
  destruct (exec ROWS COLUMNS r (MPI_Wait TopSend) s) as [s1|] eqn:E1; [|discriminate].
  cbn [mbind option_bind] in H.
  destruct (exec ROWS COLUMNS r (MPI_Wait TopRecv) s1) as [s2|] eqn:E2; [|discriminate].
  cbn [mbind option_bind] in H.
  destruct (exec ROWS COLUMNS r (Relax 1) s2) as [s3|] eqn:E3; [|discriminate].
  cbn [mbind option_bind] in H.
  destruct (exec ROWS COLUMNS r (MPI_Wait BottomSend) s3) as [s4|] eqn:E4; [|discriminate].
  cbn [mbind option_bind] in H.
  destruct (exec ROWS COLUMNS r (MPI_Wait BottomRecv) s4) as [s5|] eqn:E5; [|discriminate].
  cbn [mbind option_bind] in H.
  destruct (exec ROWS COLUMNS r (Relax ROWS) s5) as [s6|] eqn:E6; [|discriminate].
  cbn [mbind option_bind] in H. inversion H; subst s6.
  apply wait_frees in E1 as [F1 K1], E2 as [F2 K2], E4 as [F4 K4], E5 as [F5 K5].
  pose proof (relax_requests _ _ _ _ _ _ E3) as K3.
  pose proof (relax_requests _ _ _ _ _ _ E6) as K6.
  assert (G : forall h, request_of h s'.1 = MPI_REQUEST_NULL).
  { intros h. rewrite K6. destruct h.
    - rewrite K5, K4, K3 by discriminate. exact F2.
    - rewrite K5, K4, K3, K2 by discriminate. exact F1.
    - exact F5.
    - rewrite K5 by discriminate. exact F4. }
  repeat split; [apply (G TopRecv)|apply (G TopSend)|apply (G BottomRecv)|apply (G BottomSend)].
Qed.

(** X10. At the end of every iteration a rank has exactly the transfers
    of its neighbours pending, whatever it started with and whatever the
    schedule of its threads: with an upper neighbour, [top_recv] is a
    receive from rank [my_rank - 1] under tag 0 into halo row 0 and
    [top_send] a send of row 1, otherwise both are [MPI_REQUEST_NULL];
    with a lower neighbour, [bottom_recv] is a receive from rank
    [my_rank + 1] under tag 1 into halo row [ROWS + 1] and [bottom_send] a
    send of row [ROWS], otherwise both are [MPI_REQUEST_NULL]. *)
Theorem X10_handles_after_iteration (ROWS COLUMNS : nat) (my_rank comm_size : Z)
    (cs : list command) (s s' : process * network) :
  iteration_schedule ROWS my_rank comm_size cs ->
  well_formed ROWS COLUMNS s ->
  run ROWS COLUMNS my_rank cs s = Some s' ->
  top_recv s'.1 = (if (my_rank =? 0)%Z then MPI_REQUEST_NULL
                   else Receiving (my_rank - 1) 0 0) /\
  top_send s'.1 = (if (my_rank =? 0)%Z then MPI_REQUEST_NULL else Sending 1) /\
  bottom_recv s'.1 = (if (my_rank =? comm_size - 1)%Z then MPI_REQUEST_NULL
                      else Receiving (my_rank + 1) 1 (ROWS + 1)) /\
  bottom_send s'.1 = (if (my_rank =? comm_size - 1)%Z then MPI_REQUEST_NULL
                      else Sending ROWS).
Proof.
  intros Hcs Hwf Hrun.
  rewrite (iteration_schedule_deterministic ROWS COLUMNS my_rank comm_size cs s Hcs Hwf) in Hrun.
  unfold sequential_schedule, thread0 in Hrun. rewrite <- app_assoc, run_app in Hrun.
  destruct (run ROWS COLUMNS my_rank (boundary_rows ROWS) s) as [[p1 net1]|] eqn:E1;
    [|discriminate].
  cbn [mbind option_bind] in Hrun. rewrite run_second_half in Hrun. inversion Hrun; subst s'.
  apply run_boundary_rows_idle in E1 as (H1 & H2 & H3 & H4). simpl in *.
  unfold has_top, has_bottom. rewrite H1, H2, H3, H4.
  destruct (my_rank =? 0)%Z, (my_rank =? comm_size - 1)%Z; simpl; auto.
Qed.

(** The state [example_schedule] and the closing phase leave on rank 1 of
    two. *)
Definition example_process_end : process * network :=
  default (example_process, ∅) (run 4 2 1 (example_schedule ++ closing) (example_process, ∅)).

Lemma X10_witness :
  top_recv example_process_end.1 = (if (1 =? 0)%Z then MPI_REQUEST_NULL
                                    else Receiving (1 - 1) 0 0) /\
  top_send example_process_end.1 = (if (1 =? 0)%Z then MPI_REQUEST_NULL else Sending 1) /\
  bottom_recv example_process_end.1 = (if (1 =? 2 - 1)%Z then MPI_REQUEST_NULL
                                       else Receiving (1 + 1) 1 (4 + 1)) /\
  bottom_send example_process_end.1 = (if (1 =? 2 - 1)%Z then MPI_REQUEST_NULL
                                       else Sending 4).
Proof.
  apply (X10_handles_after_iteration 4 2 1 2 (example_schedule ++ closing) (example_process, ∅)).
  - exact example_iteration_ok.
  - exact example_process_well_formed.
  - vm_compute. reflexivity.
Defined.

(** ** The loop at its edges, lines 28-32 and 94 *)

(** X12. The body of the loop is skipped exactly when the seed 100 of
    [dt_global] is not above [MAX_TEMP_ERROR] (a threshold of 100 or more,
    or one that is not a number) or [MAX_NUMBER_OF_ITERATIONS] is negative;
    the loop then returns at its first test with the grids, the handles and
    the network as initialised, [iteration = 0] and [dt_global = 100]. In
    every other case the body runs at least once. *)
Theorem X12_loop_skipped (ROWS COLUMNS : nat) (MAX_NUMBER_OF_ITERATIONS : Z)
    (MAX_TEMP_ERROR : float) (initial : world) (fuel : nat) :
  quiet ROWS COLUMNS initial ->
  (MAX_NUMBER_OF_ITERATIONS < INT_MAX)%Z ->
  Z.to_nat MAX_NUMBER_OF_ITERATIONS + 1 <= fuel ->
  exists st,
    relaxation_loop ROWS COLUMNS MAX_NUMBER_OF_ITERATIONS MAX_TEMP_ERROR fuel
      (loop_start initial) = Finished st /\
    (executions st = 0 <->
     Double.gt 100 MAX_TEMP_ERROR = false \/ (MAX_NUMBER_OF_ITERATIONS < 0)%Z) /\
    (executions st = 0 -> st = loop_start initial).
Proof.
  intros Hq Hmax Hfuel.
  destruct (loop_condition MAX_NUMBER_OF_ITERATIONS MAX_TEMP_ERROR (loop_start initial)) eqn:Hc.
  - unfold loop_condition in Hc. simpl in Hc. apply andb_true_iff in Hc as [Hgt Hle].
    apply Z.leb_le in Hle.
    destruct (loop_entered ROWS COLUMNS MAX_NUMBER_OF_ITERATIONS MAX_TEMP_ERROR initial fuel
                Hq (conj Hle Hmax) Hgt Hfuel) as (_ & st & Hrun & Hex).
    exists st. split; [exact Hrun|]. split; [|lia]. split; [lia|].
    intros [H|H]; [congruence|lia].
  - exists (loop_start initial). split; [destruct fuel; simpl; now rewrite Hc|].
    split; [|reflexivity]. split; [|reflexivity]. intros _.
    unfold loop_condition in Hc. simpl in Hc. apply andb_false_iff in Hc as [H|H]; [now left|].
    right. now apply Z.leb_gt in H.
Qed.

Lemma X12_witness :
  exists st,
    relaxation_loop 4 2 3 nan 4 (loop_start example_world) = Finished st /\
    (executions st = 0 <-> Double.gt 100 nan = false \/ (3 < 0)%Z) /\
    (executions st = 0 -> st = loop_start example_world).
Proof.
  apply (X12_loop_skipped 4 2 3 nan example_world 4).
  - exact example_world_quiet.
  - unfold INT_MAX. lia.
  - simpl. lia.
Defined.

(** ** The links between the iterations *)

Lemma loop_tests_world (ROWS COLUMNS : nat) (MAX_NUMBER_OF_ITERATIONS : Z)
    (MAX_TEMP_ERROR : float) (fuel : nat) (st0 : loop_state) :
  quiet ROWS COLUMNS (ranks st0) \/ exchanging ROWS COLUMNS (ranks st0) ->
  Forall (fun s => length (ranks s).1 = length (ranks st0).1 /\
                   (s = st0 \/ exchanging ROWS COLUMNS (ranks s)))
         (loop_tests ROWS COLUMNS MAX_NUMBER_OF_ITERATIONS MAX_TEMP_ERROR fuel st0).
Proof.
  revert st0. induction fuel as [|fuel IH]; intros st0 Hw; simpl.
  - constructor; [auto|]. destruct (loop_condition _ _ st0); constructor.
  - constructor; [auto|]. destruct (loop_condition _ _ st0); [|constructor].
    destruct (world_iteration_spec ROWS COLUMNS (ranks st0) Hw) as (w & Hrun & Hex & Hlen).
    unfold loop_body. rewrite Hrun. cbn [mbind option_bind].
    eapply Forall_impl; [apply IH; now right|].
    cbn [ranks]. intros s [Hl Hs]. split; [congruence|]. right.
    destruct Hs as [->|Hs]; [exact Hex|exact Hs].
Qed.

(** X13. No message is lost, duplicated or left behind from one iteration
    to the next. At every evaluation of the loop condition after the first
    one, the number of ranks is unchanged and every link between two
    neighbours holds exactly one row in each direction: downward (tag 0)
    cells [1..COLUMNS] of row ROWS of the upper rank's [temperature],
    upward (tag 1) those of row 1 of the lower rank's. *)
Theorem X13_links_hold_one_row (ROWS COLUMNS : nat) (MAX_NUMBER_OF_ITERATIONS : Z)
    (MAX_TEMP_ERROR : float) (initial : world) (fuel : nat) (st : loop_state) :
  quiet ROWS COLUMNS initial ->
  st ∈ loop_tests ROWS COLUMNS MAX_NUMBER_OF_ITERATIONS MAX_TEMP_ERROR fuel
         (loop_start initial) ->
  1 <= executions st ->
  length (ranks st).1 = length initial.1 /\
  forall r, r + 1 < length initial.1 ->
    channel (ranks st).2 (link_down r) = [row_of COLUMNS (ranks st) r ROWS] /\
    channel (ranks st).2 (link_up r) = [row_of COLUMNS (ranks st) (r + 1) 1].
Proof.
  intros Hq Hin Hex.
  pose proof (loop_tests_world ROWS COLUMNS MAX_NUMBER_OF_ITERATIONS MAX_TEMP_ERROR fuel
                (loop_start initial) (or_introl Hq)) as Hall.
  rewrite Forall_forall in Hall. destruct (Hall st Hin) as [Hlen Hs]. simpl in Hlen.
  split; [exact Hlen|]. destruct Hs as [->|[_ Hch]]; [simpl in Hex; lia|].
  rewrite <- Hlen. exact Hch.
Qed.

(** The state at the second evaluation of the loop condition. *)
Definition example_second_test : loop_state :=
  default (loop_start example_world)
    (loop_tests 4 2 3 spec_MAX_TEMP_ERROR 4 (loop_start example_world) !! 1).

Lemma X13_witness :
  length (ranks example_second_test).1 = length example_world.1 /\
  forall r, r + 1 < length example_world.1 ->
    channel (ranks example_second_test).2 (link_down r) =
      [row_of 2 (ranks example_second_test) r 4] /\
    channel (ranks example_second_test).2 (link_up r) =
      [row_of 2 (ranks example_second_test) (r + 1) 1].
Proof.
  apply (X13_links_hold_one_row 4 2 3 spec_MAX_TEMP_ERROR example_world 4).
  - exact example_world_quiet.
  - apply (list_elem_of_lookup_2 _ 1). vm_compute. reflexivity.
  - vm_compute. lia.
Defined.
